(** * A shallow embedding of storey's flow engine (storey/flow.py)

    Steps are Python objects with an asynchronous [_do] method.  Each class
    of flow.py becomes a module holding a record for the instance fields and
    one definition per method; a method that mutates [self] or calls into the
    downstream steps is a computation in the state-and-exception monad [M].
    Awaiting a coroutine that does not suspend is sequencing in that monad;
    the two worker-based engines, whose coroutines do suspend, are modelled
    as labelled transition systems further down. *)

From stdpp Require Import gmap strings list.
From Stdlib Require Import ZArith QArith.

Set Warnings "-register-all".
Open Scope Z_scope.

(** ** Python values *)

(** [storey.dtypes.Event]: payload, optional key, optional event time and
    the optional handle of the single-shot result slot. *)
Record EventOf (V : Type) : Type := mkEvent
  { body : V;
    key : option string;
    time : option Z;
    _awaitable_result : option nat }.
Arguments mkEvent {V} _ _ _ _.
Arguments body {V} _.
Arguments key {V} _.
Arguments time {V} _.
Arguments _awaitable_result {V} _.

Inductive val : Type :=
| VNone
| VBool (b : bool)
| VInt (n : Z)
| VStr (s : string)
| VList (l : list val)
| VDict (d : list (string * val))
| VEvent (e : EventOf val).

Abbreviation Event := (EventOf val).

(** Truth value of an object, as tested by [if x:]. *)
Definition truthy (v : val) : bool :=
  match v with
  | VNone => false
  | VBool b => b
  | VInt n => negb (n =? 0)
  | VStr s => negb (String.eqb s "")
  | VList l => match l with [] => false | _ :: _ => true end
  | VDict d => match d with [] => false | _ :: _ => true end
  | VEvent _ => true
  end.

Definition type_name (v : val) : string :=
  match v with
  | VNone => "<class 'NoneType'>"
  | VBool _ => "<class 'bool'>"
  | VInt _ => "<class 'int'>"
  | VStr _ => "<class 'str'>"
  | VList _ => "<class 'list'>"
  | VDict _ => "<class 'dict'>"
  | VEvent _ => "<class 'storey.dtypes.Event'>"
  end.

(** ** Exceptions and the monad of stateful, fallible code *)

Inductive exn : Type :=
| TypeError (message : string)
| ValueError (message : string)
| AttributeError (message : string)
| KeyError (message : string)
| FlowError (message : string)
| NotImplementedError
| UserError (code : nat).

Inductive result (A : Type) : Type :=
| Ok (a : A)
| Raise (e : exn).
Arguments Ok {A} _.
Arguments Raise {A} _.

Definition is_ok {A} (r : result A) : bool :=
  match r with Ok _ => true | Raise _ => false end.

(** A computation over a mutable state [S]: the state survives an
    exception, as the fields of a Python object do. *)
Definition M (S A : Type) : Type := S → result A * S.

#[global] Instance M_ret S : MRet (M S) := λ A a s, (Ok a, s).
#[global] Instance M_bind S : MBind (M S) := λ A B f m s,
  match m s with
  | (Ok a, s') => f a s'
  | (Raise e, s') => (Raise e, s')
  end.

#[global] Instance result_ret : MRet result := λ A a, Ok a.
#[global] Instance result_bind : MBind result := λ A B f r,
  match r with
  | Ok a => f a
  | Raise e => Raise e
  end.

Definition raise {S A} (e : exn) : M S A := λ s, (Raise e, s).
Definition lift {S A} (r : result A) : M S A := λ s, (r, s).
Definition get {S} : M S S := λ s, (Ok s, s).
Definition put {S} (s : S) : M S unit := λ _, (Ok tt, s).
Definition modify {S} (f : S → S) : M S unit := λ s, (Ok tt, f s).

(** Run a computation and keep its outcome instead of propagating it:
    what a task does with the coroutine it wraps. *)
Definition attempt {S A} (m : M S A) : M S (result A) :=
  λ s, let '(r, s') := m s in (Ok r, s').

(** A constructor argument that is expected to be callable. *)
Inductive pyarg (F : Type) : Type :=
| Callable (f : F)
| Object (v : val).
Arguments Callable {F} _.
Arguments Object {F} _.

Definition type_of_arg {F} (fn : pyarg F) : string :=
  match fn with Callable _ => "<class 'function'>" | Object v => type_name v end.

(** ** Events on the wire *)

(** What a step's [_do] receives: the sentinel [_termination_obj] or any
    other object (an [Event], unless a user function misbehaved). *)
Inductive msg : Type :=
| Termination
| Ev (event : val).

(** [event.body], [event.time], [event._awaitable_result]. *)
Definition attr_body (event : val) : result val :=
  match event with
  | VEvent e => Ok (body e)
  | _ => Raise (AttributeError "body")
  end.

Definition attr_time (event : val) : result (option Z) :=
  match event with
  | VEvent e => Ok (time e)
  | _ => Raise (AttributeError "time")
  end.

Definition attr_awaitable_result (event : val) : result (option nat) :=
  match event with
  | VEvent e => Ok (_awaitable_result e)
  | _ => Raise (AttributeError "_awaitable_result")
  end.

Definition attr_key (event : val) : result (option string) :=
  match event with
  | VEvent e => Ok (key e)
  | _ => Raise (AttributeError "key")
  end.

(** [copy.copy(event)]: a shallow copy; values carry no identity here. *)
Definition copy (event : val) : val := event.

(** [event.body = v]. *)
Definition set_body (event : val) (v : val) : result val :=
  match event with
  | VEvent e => Ok (VEvent (mkEvent v (key e) (time e) (_awaitable_result e)))
  | _ => Raise (AttributeError "body")
  end.

(** What an observer of a step sees: the calls it makes to the [_do] of its
    outlets, the result slots it settles, and the resources it releases. *)
Inductive obs : Type :=
| Called (outlet : nat) (m : msg)
| Settled (handle : nat) (v : val)
| Released.

(** [Context]: the registry of secrets, parameters and tables.  Tables are
    external objects, named here by a number. *)
Module Context.
Record t : Type := mk
  { _secrets : gmap string string;
    _parameters : gmap string val;
    _tables : gmap string nat }.

Definition __init__ (initial_secrets : option (gmap string string))
    (initial_parameters : option (gmap string val))
    (initial_tables : option (gmap string nat)) : t :=
  {| _secrets := default ∅ initial_secrets;
     _parameters := default ∅ initial_parameters;
     _tables := default ∅ initial_tables |}.

Definition get_table (self : t) (k : string) : result nat :=
  match _tables self !! k with
  | Some tbl => Ok tbl
  | None => Raise (KeyError k)
  end.

Definition get_param (self : t) (k : string) (default : val) : val :=
  match _parameters self !! k with
  | Some v => v
  | None => default
  end.

Definition set_param (self : t) (k : string) (value : val) : t :=
  mk (_secrets self) (<[k := value]> (_parameters self)) (_tables self).

Definition get_secret (self : t) (k : string) : option string :=
  _secrets self !! k.

Definition set_secret (self : t) (k : string) (secret : string) : t :=
  mk (<[k := secret]> (_secrets self)) (_parameters self) (_tables self).

Definition set_table (self : t) (k : string) (table : nat) : t :=
  mk (_secrets self) (_parameters self) (<[k := table]> (_tables self)).
End Context.

(** ** Flow: the base class *)

Module Flow.

(** The default [termination_result_fn]:
    [lambda x, y: x if x is not None else y]. *)
Definition default_termination_result_fn (x y : val) : result val :=
  Ok (match x with VNone => y | _ => x end).

Record t : Type := mk
  { name : string;
    _outlets : list nat;
    _full_event : bool;
    _termination_result_fn : val → val → result val;
    context : option Context.t }.

(** The keyword arguments every step constructor passes on to
    [Flow.__init__], with their defaults. *)
Record kwargs : Type := mk_kwargs
  { kw_name : option string;
    kw_full_event : bool;
    kw_termination_result_fn : val → val → result val;
    kw_context : option Context.t }.

Definition no_kwargs : kwargs :=
  {| kw_name := None;
     kw_full_event := false;
     kw_termination_result_fn := default_termination_result_fn;
     kw_context := None |}.

Definition __init__ (class_name : string) (kw : kwargs) : t :=
  {| name := match kw_name kw with
             | Some n => if String.eqb n "" then class_name else n
             | None => class_name
             end;
     _outlets := [];
     _full_event := kw_full_event kw;
     _termination_result_fn := kw_termination_result_fn kw;
     context := kw_context kw |}.

Definition with_outlets (self : t) (outs : list nat) : t :=
  {| name := name self;
     _outlets := outs;
     _full_event := _full_event self;
     _termination_result_fn := _termination_result_fn self;
     context := context self |}.

Definition to (self : t) (outlet : nat) : t :=
  with_outlets self (_outlets self ++ [outlet]).

Definition _get_safe_event_or_body (self : t) (event : val) : result val :=
  if _full_event self then Ok (copy event) else attr_body event.

Definition _user_fn_output_to_event (self : t) (event fn_result : val) : result val :=
  if _full_event self then Ok fn_result else set_body (copy event) fn_result.

Section Downstream.
(** The state of everything downstream of the step, and the [_do] of
    the step object numbered [o]: any subclass of Flow. *)
Context {W : Type}.
Variable beh : nat → msg → W → result val * W.

Record world : Type := mk_world { trace : list obs; down : W }.

(** [await outlet._do(event)] *)
Definition call_do (o : nat) (m : msg) : M world val := λ w,
  let '(r, d) := beh o m (down w) in
  (r, {| trace := trace w ++ [Called o m]; down := d |}).

(** The loop over [range(1, len(self._outlets))] on the sentinel. *)
Fixpoint fold_termination (fn : val → val → result val)
    (termination_result : val) (outs : list nat) : M world val :=
  match outs with
  | [] => mret termination_result
  | o :: outs' =>
      r ← call_do o Termination;
      acc ← lift (fn termination_result r);
      fold_termination fn acc outs'
  end.

(** The tasks created for the outlets after the first: each starts
    when the caller first suspends, they start in creation order, and
    each keeps its own outcome.  The [_do] of an outlet is taken to run
    without suspending, so the first outlet, awaited inline, runs before
    them, and they have not started if it raises. *)
Fixpoint run_tasks (outs : list nat) (m : msg) : M world (list (result val)) :=
  match outs with
  | [] => mret []
  | o :: outs' =>
      r ← attempt (call_do o m);
      rs ← run_tasks outs' m;
      mret (r :: rs)
  end.

(** [for task in tasks: await task] *)
Fixpoint await_all {S} (tasks : list (result val)) : M S unit :=
  match tasks with
  | [] => mret tt
  | r :: tasks' => _ ← lift r; await_all tasks'
  end.

Definition _do_downstream (self : t) (event : msg) : M world val :=
  match _outlets self with
  | [] => mret VNone
  | o0 :: rest =>
      match event with
      | Termination =>
          termination_result ← call_do o0 Termination;
          fold_termination (_termination_result_fn self) termination_result rest
      | Ev _ =>
          _ ← call_do o0 event;
          tasks ← run_tasks rest event;
          _ ← await_all tasks;
          mret VNone
      end
  end.
End Downstream.

Arguments world : clear implicits.
Arguments mk_world {W} _ _.
Arguments trace {W} _.
Arguments down {W} _.

End Flow.

(** Feed a step a sequence of messages, one [_do] after the other; the
  first exception ends the run, as it ends the source's loop. *)
Fixpoint feed {S} (do : msg → M S val) (ms : list msg) (last : val) : M S val :=
  match ms with
  | [] => mret last
  | m :: ms' => r ← do m; feed do ms' r
  end.

(** ** Reduce *)

Module Reduce.

Record t : Type := mk
  { base : Flow.t;
    _fn : val → val → result val;
    _result : val }.

Definition __init__ (initial_value : val) (fn : pyarg (val → val → result val))
    (kw : Flow.kwargs) : result t :=
  let base := Flow.__init__ "Reduce" kw in
  match fn with
  | Callable f => Ok {| base := base; _fn := f; _result := initial_value |}
  | Object _ =>
      Raise (TypeError ("Expected a callable, got " ++ type_of_arg fn))
  end.

Definition to (self : t) (outlet : nat) : result nat :=
  Raise (ValueError "Reduce is a terminal step. It cannot be piped further.").

Definition set_result (self : t) (res : val) : t :=
  {| base := base self; _fn := _fn self; _result := res |}.

Definition _do (event : msg) : M t val :=
  match event with
  | Termination => self ← get; mret (_result self)
  | Ev event =>
      self ← get;
      elem ← lift (if Flow._full_event (base self) then Ok event else attr_body event);
      res ← lift (_fn self (_result self) elem);
      _ ← put (set_result self res);
      mret VNone
  end.

End Reduce.

(** The projection of an event a step works on: the event itself under
    [full_event], its body otherwise. *)
Definition element_of (full_event : bool) (e : Event) : val :=
  if full_event then VEvent e else body e.

(** A user function that returns normally on every input. *)
Definition pure2 (f : val → val → val) : val → val → result val :=
  λ x y, Ok (f x y).

(** ** Sequential runs of the outlets, stated as relations *)

Section Chains.
Context {W : Type}.
Variable beh : nat → msg → W → result val * W.

(** [outlet_chain m outs d rs d']: called one after the other with [m],
    starting from the downstream state [d], the steps [outs] all return,
    their results are [rs] in order, and the state they leave is [d']. *)
Inductive outlet_chain (m : msg) : list nat → W → list val → W → Prop :=
| outlet_chain_nil d : outlet_chain m [] d [] d
| outlet_chain_cons o outs d r d1 rs d2 :
    beh o m d = (Ok r, d1) →
    outlet_chain m outs d1 rs d2 →
    outlet_chain m (o :: outs) d (r :: rs) d2.
End Chains.

Definition is_none (v : val) : bool :=
  match v with VNone => true | _ => false end.

(** ** A step's own fields next to the downstream world *)

(** A step with mutable fields of its own runs over the pair of those
    fields and the world downstream of it. *)
Definition on_self {S T A} (m : M S A) : M (S * T) A :=
  λ '(s, t), let '(r, s') := m s in (r, (s', t)).

Definition on_world {S T A} (m : M T A) : M (S * T) A :=
  λ '(s, t), let '(r, t') := m t in (r, (s, t')).

(** ** Choice *)

Module Choice.

Record t : Type := mk
  { base : Flow.t;
    _choice_array : list (nat * (val → result val));
    _default : option nat }.

Definition __init__ (choice_array : list (nat * (val → result val)))
    (default : option nat) (kw : Flow.kwargs) : t :=
  let base := Flow.__init__ "Choice" kw in
  let outs := map fst choice_array in
  let outs := match default with Some d => outs ++ [d] | None => outs end in
  {| base := Flow.with_outlets base outs;
     _choice_array := choice_array;
     _default := default |}.

(** The loop [for outlet, condition in self._choice_array] with its
    [break]: the outlet of the first condition that holds, if any. *)
Fixpoint choose (choice_array : list (nat * (val → result val))) (element : val)
    : result (option nat) :=
  match choice_array with
  | [] => Ok None
  | (outlet, condition) :: rest =>
      match condition element with
      | Raise ex => Raise ex
      | Ok c => if truthy c then Ok (Some outlet) else choose rest element
      end
  end.

Section Do.
Context {W : Type}.
Variable beh : nat → msg → W → result val * W.

Definition _do (self : t) (event : msg) : M (Flow.world W) val :=
  match Flow._outlets (base self), event with
  | [], _ | _, Termination => Flow._do_downstream beh (base self) event
  | _ :: _, Ev ev =>
      element ← lift (Flow._get_safe_event_or_body (base self) ev);
      chosen_outlet ← lift (choose (_choice_array self) element);
      match chosen_outlet with
      | Some outlet => _ ← Flow.call_do beh outlet event; mret VNone
      | None =>
          match _default self with
          | Some d => _ ← Flow.call_do beh d event; mret VNone
          | None => mret VNone
          end
      end
  end.
End Do.

End Choice.

(** ** Dicts *)

(** [element[column]] on a dict. *)
Fixpoint dict_lookup (column : string) (d : list (string * val)) : result val :=
  match d with
  | [] => Raise (KeyError column)
  | (k, v) :: d' => if String.eqb k column then Ok v else dict_lookup column d'
  end.

Definition subscript (element : val) (column : string) : result val :=
  match element with
  | VDict d => dict_lookup column d
  | _ => Raise (TypeError (type_name element ++ " is not subscriptable by a column name"))
  end.

(** [event.update(join_res)] on dicts: the keys of [join_res] are set in
    [event], in order. *)
Fixpoint dict_store (column : string) (v : val) (d : list (string * val))
    : list (string * val) :=
  match d with
  | [] => [(column, v)]
  | (k, v') :: d' =>
      if String.eqb k column then (k, v) :: d' else (k, v') :: dict_store column v d'
  end.

Definition dict_update (event join_res : val) : result val :=
  match event, join_res with
  | VDict d, VDict r => Ok (VDict (fold_left (λ acc kv, dict_store (fst kv) (snd kv) acc) r d))
  | VDict _, _ => Raise (TypeError "cannot update a dict from this object")
  | _, _ => Raise (AttributeError "update")
  end.

(** [obj.items()] and [obj[column] = v]. *)
Definition dict_items (obj : val) : result (list (string * val)) :=
  match obj with
  | VDict d => Ok d
  | _ => Raise (AttributeError "items")
  end.

Definition set_item (obj : val) (column : string) (v : val) : result val :=
  match obj with
  | VDict d => Ok (VDict (dict_store column v d))
  | _ => Raise (TypeError (type_name obj ++ " does not take a column assignment"))
  end.

Fixpoint characters (s : string) : list val :=
  match s with
  | EmptyString => []
  | String c s' => VStr (String c EmptyString) :: characters s'
  end.

(** The elements [for x in obj] runs over: those of a list, the characters
    of a string, the keys of a dict. *)
Definition iterate (obj : val) : result (list val) :=
  match obj with
  | VList l => Ok l
  | VStr s => Ok (characters s)
  | VDict d => Ok (map (λ kv, VStr (fst kv)) d)
  | _ => Raise (TypeError (type_name obj ++ " object is not iterable"))
  end.

(** ** _UnaryFunctionFlow and its subclasses Map, Filter, FlatMap, Extend *)

Module _UnaryFunctionFlow.

Record t : Type := mk
  { base : Flow.t;
    _fn : val → result val }.

(** [class_name] is [type(self).__name__]: the constructor is inherited
    unchanged by Map, Filter, FlatMap and Extend. *)
Definition __init__ (class_name : string) (fn : pyarg (val → result val))
    (kw : Flow.kwargs) : result t :=
  let base := Flow.__init__ class_name kw in
  match fn with
  | Callable f => Ok {| base := base; _fn := f |}
  | Object _ => Raise (TypeError ("Expected a callable, got " ++ type_of_arg fn))
  end.

Section Do.
Context {W : Type}.
Variable beh : nat → msg → W → result val * W.
Variable _do_internal : t → val → val → M (Flow.world W) unit.

Definition _do (self : t) (event : msg) : M (Flow.world W) val :=
  match event with
  | Termination => Flow._do_downstream beh (base self) Termination
  | Ev ev =>
      element ← lift (Flow._get_safe_event_or_body (base self) ev);
      fn_result ← lift (_fn self element);
      _ ← _do_internal self ev fn_result;
      mret VNone
  end.
End Do.

End _UnaryFunctionFlow.

Module Map.
Definition __init__ := _UnaryFunctionFlow.__init__ "Map".

Definition _do_internal {W} (beh : nat → msg → W → result val * W)
    (self : _UnaryFunctionFlow.t) (event fn_result : val) : M (Flow.world W) unit :=
  mapped_event ← lift (Flow._user_fn_output_to_event (_UnaryFunctionFlow.base self)
                         event fn_result);
  _ ← Flow._do_downstream beh (_UnaryFunctionFlow.base self) (Ev mapped_event);
  mret tt.

Definition _do {W} (beh : nat → msg → W → result val * W) :=
  _UnaryFunctionFlow._do beh (_do_internal beh).
End Map.

Module Filter.
Definition __init__ := _UnaryFunctionFlow.__init__ "Filter".

Definition _do_internal {W} (beh : nat → msg → W → result val * W)
    (self : _UnaryFunctionFlow.t) (event keep : val) : M (Flow.world W) unit :=
  if truthy keep
  then _ ← Flow._do_downstream beh (_UnaryFunctionFlow.base self) (Ev event); mret tt
  else mret tt.

Definition _do {W} (beh : nat → msg → W → result val * W) :=
  _UnaryFunctionFlow._do beh (_do_internal beh).
End Filter.

Module FlatMap.
Definition __init__ := _UnaryFunctionFlow.__init__ "FlatMap".

(** The body of [for fn_result_element in fn_result], element after
    element. *)
Fixpoint forward_elements {W} (beh : nat → msg → W → result val * W)
    (self : _UnaryFunctionFlow.t) (event : val) (elements : list val)
    : M (Flow.world W) unit :=
  match elements with
  | [] => mret tt
  | fn_result_element :: elements' =>
      mapped_event ← lift (Flow._user_fn_output_to_event (_UnaryFunctionFlow.base self)
                             event fn_result_element);
      _ ← Flow._do_downstream beh (_UnaryFunctionFlow.base self) (Ev mapped_event);
      forward_elements beh self event elements'
  end.

Definition _do_internal {W} (beh : nat → msg → W → result val * W)
    (self : _UnaryFunctionFlow.t) (event fn_result : val) : M (Flow.world W) unit :=
  elements ← lift (iterate fn_result);
  forward_elements beh self event elements.

Definition _do {W} (beh : nat → msg → W → result val * W) :=
  _UnaryFunctionFlow._do beh (_do_internal beh).
End FlatMap.

Module Extend.
Definition __init__ := _UnaryFunctionFlow.__init__ "Extend".

(** [for key, value in fn_result.items(): event.body[key] = value].  The
    body is updated in place; here the event with the updated body is the
    one that goes on. *)
Fixpoint store_items (event : val) (items : list (string * val)) : result val :=
  match items with
  | [] => Ok event
  | (k, value) :: items' =>
      b ← attr_body event;
      b' ← set_item b k value;
      event' ← set_body event b';
      store_items event' items'
  end.

Definition _do_internal {W} (beh : nat → msg → W → result val * W)
    (self : _UnaryFunctionFlow.t) (event fn_result : val) : M (Flow.world W) unit :=
  items ← lift (dict_items fn_result);
  event' ← lift (store_items event items);
  _ ← Flow._do_downstream beh (_UnaryFunctionFlow.base self) (Ev event');
  mret tt.

Definition _do {W} (beh : nat → msg → W → result val * W) :=
  _UnaryFunctionFlow._do beh (_do_internal beh).
End Extend.

(** ** _FunctionWithStateFlow and MapWithState (construction) *)

Module MapWithState.

Record t : Type := mk
  { base : Flow.t;
    _state : val;
    _fn : val → val → result (val * val);
    _group_by_key : bool }.

Definition __init__ (initial_state : val)
    (fn : pyarg (val → val → result (val * val))) (group_by_key : bool)
    (kw : Flow.kwargs) : result t :=
  let base := Flow.__init__ "MapWithState" kw in
  match fn with
  | Callable f =>
      Ok {| base := base; _state := initial_state; _fn := f;
            _group_by_key := group_by_key |}
  | Object _ => Raise (TypeError ("Expected a callable, got " ++ type_of_arg fn))
  end.

Definition set_state (st : val) (self : t) : t :=
  mk (base self) st (_fn self) (_group_by_key self).

(** [self._state[event.key]]: the entry under the key, paired with what
    [self._state[event.key] = v] makes of the state once that read has
    returned.  The dicts among the values here have strings as their keys:
    such a dict holds nothing under the key None, so the read raises
    KeyError for an event without a key, as it does for a string that is
    not a key.  A dict that holds the key None has no counterpart among the
    values here, and neither has a Table. *)
Definition state_entry (st : val) (k : option string) : result (val * (val → val)) :=
  match st with
  | VDict d =>
      match k with
      | Some column =>
          key_data ← dict_lookup column d;
          Ok (key_data, λ v, VDict (dict_store column v d))
      | None => Raise (KeyError "None")
      end
  | _ => Raise (TypeError (type_name st ++ " object is not subscriptable"))
  end.

Definition _call (event : val) : M t val :=
  self ← get;
  element ← lift (Flow._get_safe_event_or_body (base self) event);
  if _group_by_key self
  then
    k ← lift (attr_key event);
    entry ← lift (state_entry (_state self) k);
    out ← lift (_fn self element (fst entry));
    _ ← modify (set_state (snd entry (snd out)));
    mret (fst out)
  else
    out ← lift (_fn self element (_state self));
    _ ← modify (set_state (snd out));
    mret (fst out).

Section Do.
Context {W : Type}.
Variable beh : nat → msg → W → result val * W.

Definition _do_internal (self : t) (event mapped_element : val) : M (Flow.world W) unit :=
  mapped_event ← lift (Flow._user_fn_output_to_event (base self) event mapped_element);
  _ ← Flow._do_downstream beh (base self) (Ev mapped_event);
  mret tt.

Definition _do (event : msg) : M (t * Flow.world W) val :=
  match event with
  | Termination =>
      self ← on_self get;
      on_world (Flow._do_downstream beh (base self) Termination)
  | Ev ev =>
      fn_result ← on_self (_call ev);
      self ← on_self get;
      _ ← on_world (_do_internal self ev fn_result);
      mret VNone
  end.
End Do.

End MapWithState.

(** ** Complete *)

Module Complete.

Record t : Type := mk { base : Flow.t }.

Definition __init__ (kw : Flow.kwargs) : t :=
  {| base := Flow.__init__ "Complete" kw |}.

Section Do.
Context {W : Type}.
Variable beh : nat → msg → W → result val * W.

(** Modelled from the spec: [AwaitableResult._set_result] of
    storey/dtypes.py, which is not part of the sources at hand.  The slot
    is single-assignment and whoever waits on it sees the value once it is
    settled; settling is recorded as an observation. *)
Definition _set_result (handle : nat) (v : val) : M (Flow.world W) unit :=
  modify (λ w, Flow.mk_world (Flow.trace w ++ [Settled handle v]) (Flow.down w)).

(** The outlets are handed the event object itself, not a copy, and a step
    below may store into its body: Extend does, in [event.body[key] = value],
    and so does the default join function of JoinWithTable.  [_do] reads
    [event.body] once [_do_downstream] has returned, so it reads what they
    left.  [body_now d b] is the body [b] of the event as the steps below,
    now in the state [d], have left it.  The attributes of the event stay:
    no step of flow.py assigns an attribute of an event it was handed, a new
    body is assigned on a copy ([_user_fn_output_to_event]). *)
Variable body_now : W → val → val.

Definition event_now (d : W) (event : val) : val :=
  match event with
  | VEvent e =>
      VEvent (mkEvent (body_now d (body e)) (key e) (time e) (_awaitable_result e))
  | _ => event
  end.

Definition _do (self : t) (event : msg) : M (Flow.world W) val :=
  termination_result ← Flow._do_downstream beh (base self) event;
  match event with
  | Termination => mret termination_result
  | Ev ev =>
      w ← get;
      let ev := event_now (Flow.down w) ev in
      res ← lift (Flow._get_safe_event_or_body (base self) ev);
      awaitable ← lift (attr_awaitable_result ev);
      match awaitable with
      | None =>
          raise (AttributeError "'NoneType' object has no attribute '_set_result'")
      | Some handle => _ ← _set_result handle res; mret termination_result
      end
  end.
End Do.

End Complete.

(** ** MapClass *)

Module MapClass.

(** [user] holds the fields the subclass adds. *)
Record t (U : Type) : Type := mk
  { base : Flow.t;
    _filter : bool;
    user : U }.
Arguments mk {U} _ _ _.
Arguments base {U} _.
Arguments _filter {U} _.
Arguments user {U} _.

Definition __init__ {U} (u : U) (kw : Flow.kwargs) : t U :=
  {| base := Flow.__init__ "MapClass" kw; _filter := false; user := u |}.

Definition filter {U} : M (t U) unit :=
  modify (λ self, mk (base self) true (user self)).

Definition clear_filter {U} : M (t U) unit :=
  modify (λ self, mk (base self) false (user self)).

(** The overridden [do] of a subclass: from the element and the fields of
    the subclass it yields an outcome, whether it called [self.filter()]
    on the way, and the updated fields. *)
Definition do_method (U : Type) : Type := val → U → result val * bool * U.

Section Do.
Context {U W : Type}.
Variable do : do_method U.
Variable beh : nat → msg → W → result val * W.

Definition _call (element : val) : M (t U) val := λ self,
  let '(res, called_filter, u) := do element (user self) in
  let self := mk (base self) (_filter self) u in
  if called_filter then (res, snd (filter self)) else (res, self).

Definition _do (event : msg) : M (t U * Flow.world W) val :=
  match event with
  | Termination =>
      self ← on_self get;
      on_world (Flow._do_downstream beh (base self) Termination)
  | Ev ev =>
      self ← on_self get;
      element ← lift (Flow._get_safe_event_or_body (base self) ev);
      fn_result ← on_self (_call element);
      self ← on_self get;
      if negb (_filter self)
      then
        mapped_event ← lift (Flow._user_fn_output_to_event (base self) ev fn_result);
        _ ← on_world (Flow._do_downstream beh (base self) (Ev mapped_event));
        mret VNone
      else
        _ ← on_self clear_filter;
        mret VNone
  end.
End Do.

End MapClass.

(** ** _Batching and Batch *)

Module _Batching.

(** What the step knows of [self._timeout_task]: created and pending,
    cancelled, or run to its end. *)
Inductive timeout_task : Type :=
| Scheduled
| Cancelled
| Finished.

Record t : Type := mk
  { base : Flow.t;
    _max_events : option Z;
    _event_count : Z;
    _batch : list val;
    _batch_time : option Z;
    _timeout_task : option timeout_task;
    _timeout_secs : option Q }.

Definition __init__ (class_name : string) (max_events : option Z)
    (timeout_secs : option Q) (kw : Flow.kwargs) : result t :=
  let self :=
    {| base := Flow.__init__ class_name kw;
       _max_events := max_events;
       _event_count := 0;
       _batch := [];
       _batch_time := None;
       _timeout_task := None;
       _timeout_secs := timeout_secs |} in
  match timeout_secs with
  | Some secs =>
      if Qle_bool secs 0
      then Raise (ValueError "Batch timeout cannot be 0 or negative")
      else Ok self
  | None => Ok self
  end.

Definition set_batch_time (bt : option Z) (self : t) : t :=
  mk (base self) (_max_events self) (_event_count self) (_batch self) bt
     (_timeout_task self) (_timeout_secs self).

Definition set_timeout_task (task : option timeout_task) (self : t) : t :=
  mk (base self) (_max_events self) (_event_count self) (_batch self)
     (_batch_time self) task (_timeout_secs self).

Definition set_event_count (n : Z) (self : t) : t :=
  mk (base self) (_max_events self) n (_batch self) (_batch_time self)
     (_timeout_task self) (_timeout_secs self).

Definition set_batch (b : list val) (self : t) : t :=
  mk (base self) (_max_events self) (_event_count self) b (_batch_time self)
     (_timeout_task self) (_timeout_secs self).

(** [if self._timeout_task and not self._timeout_task.cancelled():
       self._timeout_task.cancel()] *)
Definition cancel_timeout (self : t) : t :=
  match _timeout_task self with
  | Some Scheduled => set_timeout_task (Some Cancelled) self
  | _ => self
  end.

(** [self._event_count == self._max_events] *)
Definition count_reached (self : t) : bool :=
  match _max_events self with
  | Some m => _event_count self =? m
  | None => false
  end.

Definition timeout_configured (self : t) : bool :=
  match _timeout_secs self with
  | Some secs => negb (Qeq_bool secs 0)
  | None => false
  end.

Section Do.
Context {W : Type}.
Variable beh : nat → msg → W → result val * W.
(** The hooks a subclass provides. *)
Variable _emit : t → list val → option Z → M (Flow.world W) val.
Variable _terminate : M (t * Flow.world W) unit.

Definition _emit_batch : M (t * Flow.world W) unit :=
  self ← on_self get;
  match _batch self with
  | _ :: _ =>
      let batch_to_emit := _batch self in
      let batch_time := _batch_time self in
      _ ← on_self (modify (λ s, set_event_count 0 (set_batch_time None (set_batch [] s))));
      _ ← on_world (_emit self batch_to_emit batch_time);
      mret tt
  | [] => mret tt
  end.

(** The body of the task made from [_sleep_and_emit], once its sleep is
    over. *)
Definition _sleep_and_emit : M (t * Flow.world W) unit :=
  _ ← _emit_batch;
  on_self (modify (set_timeout_task (Some Finished))).

Definition _do (event : msg) : M (t * Flow.world W) val :=
  match event with
  | Termination =>
      _ ← on_self (modify cancel_timeout);
      _ ← _emit_batch;
      _ ← _terminate;
      self ← on_self get;
      on_world (Flow._do_downstream beh (base self) Termination)
  | Ev ev =>
      self ← on_self get;
      _ ← match _batch self with
          | [] =>
              event_time ← lift (attr_time ev);
              _ ← on_self (modify (set_batch_time event_time));
              if timeout_configured self
              then on_self (modify (set_timeout_task (Some Scheduled)))
              else mret tt
          | _ :: _ => mret tt
          end;
      _ ← on_self (modify (λ s, set_event_count (_event_count s + 1) s));
      entry ← lift (Flow._get_safe_event_or_body (base self) ev);
      _ ← on_self (modify (λ s, set_batch (_batch s ++ [entry]) s));
      self ← on_self get;
      _ ← (if count_reached self
           then _ ← on_self (modify cancel_timeout); _emit_batch
           else mret tt);
      mret VNone
  end.
End Do.

End _Batching.

Module Batch.

Definition __init__ := _Batching.__init__ "Batch".

(** Modelled from the spec: the constructor [Event(batch, time=batch_time)]
    of storey/dtypes.py, which is not part of the sources at hand: the
    emitted event has the list as its body, the batch time as its time, and
    neither key nor result slot. *)
Definition batch_event (batch : list val) (batch_time : option Z) : val :=
  VEvent (mkEvent (VList batch) None batch_time None).

Section Do.
Context {W : Type}.
Variable beh : nat → msg → W → result val * W.

Definition _emit (self : _Batching.t) (batch : list val) (batch_time : option Z)
    : M (Flow.world W) val :=
  Flow._do_downstream beh (_Batching.base self) (Ev (batch_event batch batch_time)).

Definition _terminate : M (_Batching.t * Flow.world W) unit := mret tt.

Definition _do : msg → M (_Batching.t * Flow.world W) val :=
  _Batching._do beh _emit _terminate.
End Do.

End Batch.

(** ** Vocabulary for the statements about Choice *)

(** A user function of one argument that returns normally. *)
Definition pure1 (p : val → val) : val → result val := λ x, Ok (p x).

Definition pure_choices (choices : list (nat * (val → val)))
    : list (nat * (val → result val)) :=
  map (λ oc, (fst oc, pure1 (snd oc))) choices.

(** The outlet paired with the first predicate, in list order, that is
    truthy on the element. *)
Definition first_match (choices : list (nat * (val → val))) (element : val)
    : option nat :=
  (λ hit, fst (snd hit)) <$>
    list_find (λ oc : nat * (val → val), truthy (snd oc element) = true) choices.

Definition option_outlet (o : option nat) : list nat :=
  match o with Some d => [d] | None => [] end.

(** ** Vocabulary for the statements about Batch *)

(** The calls by which the batches, each with its batch time, reach the
    outlets: batch after batch, and for each batch outlet after outlet. *)
Definition emissions (outs : list nat) (batches : list (list val * option Z))
    : list obs :=
  concat (map (λ bt, map (λ o, Called o (Ev (Batch.batch_event (fst bt) (snd bt)))) outs)
            batches).

(** No outlet ever raises. *)
Definition never_raises {W} (beh : nat → msg → W → result val * W) : Prop :=
  ∀ (o : nat) (m : msg) (d : W), is_ok (fst (beh o m d)) = true.

(** ** Concrete collaborators for the scenarios *)

(** A downstream without state of its own whose steps all return None. *)
Definition sink : nat → msg → unit → result val * unit :=
  λ _ _ d, (Ok VNone, d).

(** An event as a source emits it for the payload [n]. *)
Definition int_event (n : Z) : Event := mkEvent (VInt n) None None None.

(** ** build_flow *)

(** An element of the list given to [build_flow]: a step object, named by
    its number, or a nested list. *)
Inductive item : Type :=
| Step (id : nat)
| Nested (steps : list item).

(** The step objects the builder links: which of them are Reduce steps,
    whose [to] refuses, and the [_outlets] list of each.  [to] appends
    whatever object it is given. *)
Record heap : Type := mk_heap
  { is_reduce : nat → bool;
    outlets : gmap nat (list item) }.

Definition outlets_of (h : heap) (s : nat) : list item :=
  default [] (outlets h !! s).

Definition append_outlet (s : nat) (outlet : item) (h : heap) : heap :=
  mk_heap (is_reduce h) (<[s := outlets_of h s ++ [outlet]]> (outlets h)).

(** Looking up the attribute [to] on an object. *)
Definition lookup_to (cur_step : item) : M heap unit :=
  match cur_step with
  | Step _ => mret tt
  | Nested _ => raise (AttributeError "'list' object has no attribute 'to'")
  end.

(** [cur_step.to(outlet)], by the class of [cur_step]. *)
Definition to (cur_step outlet : item) : M heap item :=
  _ ← lookup_to cur_step;
  match cur_step with
  | Step s =>
      h ← get;
      if is_reduce h s
      then raise (ValueError "Reduce is a terminal step. It cannot be piped further.")
      else _ ← modify (append_outlet s outlet); mret outlet
  | Nested _ => mret outlet
  end.

(** [build_flow] recurses into the lists nested in its argument, so its
    recursion is over the list as an object: [build_flow_of (Nested steps)]
    is [build_flow(steps)].  It is never applied to a step. *)
Fixpoint build_flow_of (steps : item) : M heap item :=
  match steps with
  | Step _ => raise (TypeError "object of type 'Flow' has no len()")
  | Nested [] => raise (ValueError "Cannot build an empty flow")
  | Nested (first :: rest) =>
      _ ← (fix loop (cur_step : item) (rest : list item) : M heap unit :=
             match rest with
             | [] => mret tt
             | next_step :: rest' =>
                 match next_step with
                 | Nested _ =>
                     _ ← lookup_to cur_step;
                     head ← build_flow_of next_step;
                     _ ← to cur_step head;
                     loop cur_step rest'
                 | Step _ =>
                     _ ← to cur_step next_step;
                     loop next_step rest'
                 end
             end) first rest;
      mret first
  end.

Definition build_flow (steps : list item) : M heap item :=
  build_flow_of (Nested steps).

(** The [for next_step in steps[1:]] loop of [build_flow] on its own. *)
Fixpoint build_loop (cur_step : item) (rest : list item) : M heap unit :=
  match rest with
  | [] => mret tt
  | next_step :: rest' =>
      match next_step with
      | Nested sub =>
          _ ← lookup_to cur_step;
          head ← build_flow sub;
          _ ← to cur_step head;
          build_loop cur_step rest'
      | Step _ =>
          _ ← to cur_step next_step;
          build_loop next_step rest'
      end
  end.

(** The builder as the specification words it.  [attach cur outlet h] makes
    [outlet] one more outlet of the step [cur]; a Reduce step takes none. *)
Definition attach (cur : item) (outlet : item) (h : heap) : option heap :=
  match cur with
  | Step s => if is_reduce h s then None else Some (append_outlet s outlet h)
  | Nested _ => None
  end.

(** [walks cur rest h h']: walking the elements [rest] left to right with
    [cur] as the current step turns [h] into [h'].  A nested list is built
    recursively and its head attached to [cur], which stays; a step is
    attached to [cur] and becomes the current step. *)
Inductive walks : item → list item → heap → heap → Prop :=
| walks_end cur h :
    walks cur [] h h
| walks_nested cur head sub rest h h1 h2 h3 :
    walks head sub h h1 →
    attach cur head h1 = Some h2 →
    walks cur rest h2 h3 →
    walks cur (Nested (head :: sub) :: rest) h h3
| walks_step cur s rest h h1 h2 :
    attach cur (Step s) h = Some h1 →
    walks (Step s) rest h1 h2 →
    walks cur (Step s :: rest) h h2.

(** Induction over items through the lists nested in them. *)
Section ItemInduction.
Variable P : item → Prop.
Hypothesis P_step : ∀ s, P (Step s).
Hypothesis P_nested : ∀ steps, Forall P steps → P (Nested steps).

Fixpoint item_nested_ind (x : item) : P x :=
  match x with
  | Step s => P_step s
  | Nested steps =>
      P_nested steps
        ((fix go (l : list item) : Forall P l :=
            match l with
            | [] => @List.Forall_nil item P
            | y :: l' => @List.Forall_cons item P y l' (item_nested_ind y) (go l')
            end) steps)
  end.
End ItemInduction.

(** Steps none of which is a Reduce step or has an outlet yet, and the
    two-branch example of the docstring, [[step1, [step2a, step2b], step3]]. *)
Definition no_edges : heap := mk_heap (λ _, false) ∅.

Definition docstring_flow : list item :=
  [Step 0; Nested [Step 1; Step 2]; Step 3].

(** ** The worker-based engines: shared vocabulary *)

(** An entry of the bounded queue [self._q]: the sentinel, or an event
    paired with the task running its external call.  The task is given by
    the outcome that awaiting it yields. *)
Inductive job : Type :=
| JTermination
| JEvent (event : val) (task : result val).

(** Where the worker coroutine stands: suspended in [self._q.get()], in
    [await job[1]], in a [self._q.put(...)] of its own, or finished with
    the outcome that awaiting [self._worker_awaitable] yields. *)
Inductive worker_state : Type :=
| Waiting
| Handling (event : val) (task : result val)
| Putting (j : job)
| Done (r : result unit).

(** Where a call of [_do] is suspended. *)
Inductive suspended : Type :=
| BlockedOnPut (j : job)
| AwaitingWorker.

(** A call of [_do] has returned or raised, or it is suspended. *)
Inductive progress : Type :=
| Finished (r : result val)
| Suspended (k : suspended).

(** [asyncio.Queue(maxsize).full()]: a queue with [maxsize <= 0] is
    unbounded. *)
Definition queue_full (maxsize : Z) (q : list job) : bool :=
  (0 <? maxsize) && (maxsize <=? Z.of_nat (length q)).

(** ** _ConcurrentJobExecution *)

Module _ConcurrentJobExecution.

Record t : Type := mk
  { base : Flow.t;
    _max_in_flight : Z;
    _q : option (list job);
    _worker_awaitable : option worker_state }.

Definition __init__ (class_name : string) (max_in_flight : Z) (kw : Flow.kwargs) : t :=
  {| base := Flow.__init__ class_name kw;
     _max_in_flight := max_in_flight;
     _q := None;
     _worker_awaitable := None |}.

Definition set_q (q : option (list job)) (self : t) : t :=
  mk (base self) (_max_in_flight self) q (_worker_awaitable self).

Definition set_worker (ws : worker_state) (self : t) : t :=
  mk (base self) (_max_in_flight self) (_q self) (Some ws).

Definition queue (self : t) : list job := default [] (_q self).

Section Engine.
Context {W : Type}.
Variable beh : nat → msg → W → result val * W.
(** The hooks of the subclass. *)
Variable _lazy_init : M (Flow.world W) unit.
Variable _process_event : val → result val.
Variable _handle_completed : val → val → M (Flow.world W) unit.
Variable _cleanup : M (Flow.world W) unit.

(** The [finally] clause of [_worker]: the cleanup hook runs, and an
    exception of its own replaces the outcome the worker had. *)
Definition worker_finally (outcome : result unit) : t * Flow.world W → t * Flow.world W :=
  λ '(self, w),
    let '(c, w1) := _cleanup w in
    (set_worker (Done (match c with Ok _ => outcome | Raise ex => Raise ex end)) self, w1).

(** The [except BaseException as ex] clause of [_worker]:
    [if not self._q.empty(): await self._q.get()], then [raise ex]. *)
Definition worker_except (ex : exn) : t * Flow.world W → t * Flow.world W :=
  λ '(self, w),
    let self :=
      match queue self with
      | [] => self
      | _ :: rest => set_q (Some rest) self
      end in
    worker_finally (Raise ex) (self, w).

(** The worker, suspended in [self._q.get()], takes the next job. *)
Definition worker_get : t * Flow.world W → option (t * Flow.world W) :=
  λ '(self, w),
    match _worker_awaitable self, queue self with
    | Some Waiting, j :: rest =>
        let self := set_q (Some rest) self in
        match j with
        | JTermination => Some (worker_finally (Ok tt) (self, w))
        | JEvent event task => Some (set_worker (Handling event task) self, w)
        end
    | _, _ => None
    end.

(** The task the worker awaits completes. *)
Definition worker_complete : t * Flow.world W → option (t * Flow.world W) :=
  λ '(self, w),
    match _worker_awaitable self with
    | Some (Handling event task) =>
        match task with
        | Raise ex => Some (worker_except ex (self, w))
        | Ok completed =>
            match _handle_completed event completed w with
            | (Ok _, w1) => Some (set_worker Waiting self, w1)
            | (Raise ex, w1) => Some (worker_except ex (self, w1))
            end
        end
    | _ => None
    end.

(** [await self._worker_awaitable; return await self._do_downstream(...)] *)
Definition await_worker_then_downstream : t * Flow.world W → progress * (t * Flow.world W) :=
  λ '(self, w),
    match _worker_awaitable self with
    | Some (Done (Ok _)) =>
        let '(r, w1) := Flow._do_downstream beh (base self) Termination w in
        (Finished r, (self, w1))
    | Some (Done (Raise ex)) => (Finished (Raise ex), (self, w))
    | _ => (Suspended AwaitingWorker, (self, w))
    end.

(** What follows [await self._q.put(j)] in [_do]. *)
Definition after_put (j : job) : t * Flow.world W → progress * (t * Flow.world W) :=
  λ '(self, w),
    match j with
    | JTermination => await_worker_then_downstream (self, w)
    | JEvent _ _ =>
        match _worker_awaitable self with
        | Some (Done (Raise ex)) => (Finished (Raise ex), (self, w))
        | _ => (Finished (Ok VNone), (self, w))
        end
    end.

(** [await self._q.put(j)] and what follows it. *)
Definition put_then_continue (j : job) : t * Flow.world W → progress * (t * Flow.world W) :=
  λ '(self, w),
    if queue_full (_max_in_flight self) (queue self)
    then (Suspended (BlockedOnPut j), (self, w))
    else after_put j (set_q (Some (queue self ++ [j])) self, w).

Definition _do (event : msg) : t * Flow.world W → progress * (t * Flow.world W) :=
  λ '(self, w),
    let '(init, (self, w)) :=
      match _q self with
      | None =>
          match _lazy_init w with
          | (Ok _, w1) => (Ok tt, (set_worker Waiting (set_q (Some []) self), w1))
          | (Raise ex, w1) => (Raise ex, (self, w1))
          end
      | Some _ => (Ok tt, (self, w))
      end in
    match init with
    | Raise ex => (Finished (Raise ex), (self, w))
    | Ok _ =>
        match _worker_awaitable self with
        | Some (Done (Raise ex)) => (Finished (Raise ex), (self, w))
        | Some (Done (Ok _)) =>
            (Finished (Raise (FlowError "ConcurrentJobExecution worker has already terminated")),
             (self, w))
        | _ =>
            match event with
            | Termination => put_then_continue JTermination (self, w)
            | Ev ev => put_then_continue (JEvent ev (_process_event ev)) (self, w)
            end
        end
    end.

(** A suspended [_do] is resumed. *)
Definition _do_resume (k : suspended) : t * Flow.world W → progress * (t * Flow.world W) :=
  match k with
  | BlockedOnPut j => put_then_continue j
  | AwaitingWorker => await_worker_then_downstream
  end.

End Engine.

End _ConcurrentJobExecution.

(** ** _ConcurrentByKeyJobExecution *)

Record _PendingEvent : Type := mk_pending
  { in_flight : list val;
    pending : list val }.

Module _ConcurrentByKeyJobExecution.

(** [_pending_by_key] is a dict, iterated in insertion order by the
    worker: an association list with one entry per key. *)
Abbreviation pending_dict := (list (option string * _PendingEvent)).

Fixpoint dict_get (k : option string) (d : pending_dict) : option _PendingEvent :=
  match d with
  | [] => None
  | (k', pe) :: d' => if decide (k = k') then Some pe else dict_get k d'
  end.

Fixpoint dict_set (k : option string) (pe : _PendingEvent) (d : pending_dict)
    : pending_dict :=
  match d with
  | [] => [(k, pe)]
  | (k', pe') :: d' =>
      if decide (k = k') then (k', pe) :: d' else (k', pe') :: dict_set k pe d'
  end.

Fixpoint dict_del (k : option string) (d : pending_dict) : pending_dict :=
  match d with
  | [] => []
  | (k', pe') :: d' => if decide (k = k') then d' else (k', pe') :: dict_del k d'
  end.

Record t : Type := mk
  { base : Flow.t;
    _max_in_flight : Z;
    _q : option (list job);
    _worker_awaitable : option worker_state;
    _pending_by_key : pending_dict }.

Definition __init__ (class_name : string) (max_in_flight : Z) (kw : Flow.kwargs) : t :=
  {| base := Flow.__init__ class_name kw;
     _max_in_flight := max_in_flight;
     _q := None;
     _worker_awaitable := None;
     _pending_by_key := [] |}.

Definition set_q (q : option (list job)) (self : t) : t :=
  mk (base self) (_max_in_flight self) q (_worker_awaitable self) (_pending_by_key self).

Definition set_worker (ws : worker_state) (self : t) : t :=
  mk (base self) (_max_in_flight self) (_q self) (Some ws) (_pending_by_key self).

Definition set_pending_by_key (d : pending_dict) (self : t) : t :=
  mk (base self) (_max_in_flight self) (_q self) (_worker_awaitable self) d.

Definition queue (self : t) : list job := default [] (_q self).

(** [self._pending_by_key[k]] *)
Definition pending_of (k : option string) : M t _PendingEvent := λ self,
  match dict_get k (_pending_by_key self) with
  | Some pe => (Ok pe, self)
  | None => (Raise (KeyError (default "None" k)), self)
  end.

Definition store_pending (k : option string) (pe : _PendingEvent) : M t unit :=
  modify (λ self, set_pending_by_key (dict_set k pe (_pending_by_key self)) self).

(** How an iteration of the worker loop ends. *)
Inductive next : Type :=
| Continue
| Break
| Blocked (j : job).

Section Engine.
Context {W : Type}.
Variable beh : nat → msg → W → result val * W.
Variable _lazy_init : M (Flow.world W) unit.
Variable _process_event : list val → result val.
Variable _handle_completed : val → val → M (Flow.world W) unit.
Variable _cleanup : M (Flow.world W) unit.

Definition worker_finally (outcome : result unit) : t * Flow.world W → t * Flow.world W :=
  λ '(self, w),
    let '(c, w1) := _cleanup w in
    (set_worker (Done (match c with Ok _ => outcome | Raise ex => Raise ex end)) self, w1).

(** [if not self._q.empty(): await self._q.get()], then [raise ex]. *)
Definition worker_except (ex : exn) : t * Flow.world W → t * Flow.world W :=
  λ '(self, w),
    let self :=
      match queue self with
      | [] => self
      | _ :: rest => set_q (Some rest) self
      end in
    worker_finally (Raise ex) (self, w).

(** [for event in events: await self._handle_completed(event, resp)] *)
Fixpoint handle_all (events : list val) (resp : val) : M (Flow.world W) unit :=
  match events with
  | [] => mret tt
  | event :: events' => _ ← _handle_completed event resp; handle_all events' resp
  end.

(** [await self._q.put(j)] inside the worker. *)
Definition worker_put (j : job) : M t next := λ self,
  if queue_full (_max_in_flight self) (queue self)
  then (Ok (Blocked j), self)
  else (Ok Continue, set_q (Some (queue self ++ [j])) self).

(** The sentinel branch of the loop: the keys whose events wait with no
    call in flight are flushed, in the order of the dict. *)
Fixpoint flush_pending (entries : pending_dict) : M (Flow.world W) unit :=
  match entries with
  | [] => mret tt
  | (_, pe) :: entries' =>
      _ ← match pending pe, in_flight pe with
          | _ :: _, [] =>
              resp ← lift (_process_event (pending pe));
              handle_all (pending pe) resp
          | _, _ => mret tt
          end;
      flush_pending entries'
  end.

Definition on_termination : M (t * Flow.world W) next :=
  self ← on_self get;
  _ ← on_world (flush_pending (_pending_by_key self));
  match queue self with
  | [] => mret Break
  | _ :: _ => on_self (worker_put JTermination)
  end.

(** The rest of the loop body, once [await job[1]] has yielded.  The loop
    [for event in ...in_flight] rebinds [event], so what follows it reads
    the key of the last event handled. *)
Definition on_completed (event completed : val) : M (t * Flow.world W) next :=
  k ← lift (attr_key event);
  pe ← on_self (pending_of k);
  _ ← on_world (handle_all (in_flight pe) completed);
  let event := default event (last (in_flight pe)) in
  k ← lift (attr_key event);
  pe ← on_self (pending_of k);
  _ ← on_self (store_pending k (mk_pending [] (pending pe)));
  pe ← on_self (pending_of k);
  match pending pe with
  | _ :: _ =>
      _ ← on_self (store_pending k (mk_pending (pending pe) []));
      on_self (worker_put (JEvent event (_process_event (pending pe))))
  | [] =>
      _ ← on_self (pending_of k);
      _ ← on_self (modify (λ self,
             set_pending_by_key (dict_del k (_pending_by_key self)) self));
      mret Continue
  end.

(** An iteration of the loop ends: back to [get], out of the loop, stuck in
    a [put], or into the [except] clause. *)
Definition end_iteration (r : result next * (t * Flow.world W)) : t * Flow.world W :=
  match r with
  | (Ok Continue, (self, w)) => (set_worker Waiting self, w)
  | (Ok Break, s) => worker_finally (Ok tt) s
  | (Ok (Blocked j), (self, w)) => (set_worker (Putting j) self, w)
  | (Raise ex, s) => worker_except ex s
  end.

Definition worker_get : t * Flow.world W → option (t * Flow.world W) :=
  λ '(self, w),
    match _worker_awaitable self, queue self with
    | Some Waiting, j :: rest =>
        let self := set_q (Some rest) self in
        match j with
        | JTermination => Some (end_iteration (on_termination (self, w)))
        | JEvent event task => Some (set_worker (Handling event task) self, w)
        end
    | _, _ => None
    end.

Definition worker_complete : t * Flow.world W → option (t * Flow.world W) :=
  λ '(self, w),
    match _worker_awaitable self with
    | Some (Handling event task) =>
        match task with
        | Raise ex => Some (worker_except ex (self, w))
        | Ok completed => Some (end_iteration (on_completed event completed (self, w)))
        end
    | _ => None
    end.

(** The worker, stuck in a [put], finds room in the queue. *)
Definition worker_resume_put : t * Flow.world W → option (t * Flow.world W) :=
  λ '(self, w),
    match _worker_awaitable self with
    | Some (Putting j) =>
        if queue_full (_max_in_flight self) (queue self)
        then None
        else Some (set_worker Waiting (set_q (Some (queue self ++ [j])) self), w)
    | _ => None
    end.

Definition await_worker_then_downstream : t * Flow.world W → progress * (t * Flow.world W) :=
  λ '(self, w),
    match _worker_awaitable self with
    | Some (Done (Ok _)) =>
        let '(r, w1) := Flow._do_downstream beh (base self) Termination w in
        (Finished r, (self, w1))
    | Some (Done (Raise ex)) => (Finished (Raise ex), (self, w))
    | _ => (Suspended AwaitingWorker, (self, w))
    end.

Definition after_put (j : job) : t * Flow.world W → progress * (t * Flow.world W) :=
  λ '(self, w),
    match j with
    | JTermination => await_worker_then_downstream (self, w)
    | JEvent _ _ =>
        match _worker_awaitable self with
        | Some (Done (Raise ex)) => (Finished (Raise ex), (self, w))
        | _ => (Finished (Ok VNone), (self, w))
        end
    end.

Definition put_then_continue (j : job) : t * Flow.world W → progress * (t * Flow.world W) :=
  λ '(self, w),
    if queue_full (_max_in_flight self) (queue self)
    then (Suspended (BlockedOnPut j), (self, w))
    else after_put j (set_q (Some (queue self ++ [j])) self, w).

(** The bookkeeping of [_do] for a real event, up to the [put]: the job to
    enqueue, if the event starts a call of its own. *)
Definition register_event (ev : val) : M t (option job) :=
  k ← lift (attr_key ev);
  self ← get;
  _ ← match dict_get k (_pending_by_key self) with
      | None => store_pending k (mk_pending [] [])
      | Some _ => mret tt
      end;
  pe ← pending_of k;
  _ ← store_pending k (mk_pending (in_flight pe) (pending pe ++ [ev]));
  pe ← pending_of k;
  match in_flight pe with
  | [] =>
      _ ← store_pending k (mk_pending (pending pe) []);
      mret (Some (JEvent ev (_process_event (pending pe))))
  | _ :: _ => mret None
  end.

Definition _do (event : msg) : t * Flow.world W → progress * (t * Flow.world W) :=
  λ '(self, w),
    let '(init, (self, w)) :=
      match _q self with
      | None =>
          match _lazy_init w with
          | (Ok _, w1) => (Ok tt, (set_worker Waiting (set_q (Some []) self), w1))
          | (Raise ex, w1) => (Raise ex, (self, w1))
          end
      | Some _ => (Ok tt, (self, w))
      end in
    match init with
    | Raise ex => (Finished (Raise ex), (self, w))
    | Ok _ =>
        match _worker_awaitable self with
        | Some (Done (Raise ex)) => (Finished (Raise ex), (self, w))
        | Some (Done (Ok _)) =>
            (Finished
               (Raise (FlowError "ConcurrentByKeyJobExecution worker has already terminated")),
             (self, w))
        | _ =>
            match event with
            | Termination => put_then_continue JTermination (self, w)
            | Ev ev =>
                match register_event ev self with
                | (Raise ex, self) => (Finished (Raise ex), (self, w))
                | (Ok None, self) => (Finished (Ok VNone), (self, w))
                | (Ok (Some j), self) => put_then_continue j (self, w)
                end
            end
        end
    end.

Definition _do_resume (k : suspended) : t * Flow.world W → progress * (t * Flow.world W) :=
  match k with
  | BlockedOnPut j => put_then_continue j
  | AwaitingWorker => await_worker_then_downstream
  end.

End Engine.

End _ConcurrentByKeyJobExecution.

(** ** Concrete hooks for the scenarios of the worker-based engines *)

(** An external call that fails for the payload 1 and answers None for
    every other event. *)
Definition call_failing_on_one (event : val) : result val :=
  match attr_body event with
  | Ok (VInt 1) => Raise (UserError 1)
  | _ => Ok VNone
  end.

Definition batch_call_failing_on_one (events : list val) : result val :=
  match events with
  | event :: _ => call_failing_on_one event
  | [] => Ok VNone
  end.

Definition handle_nothing {W} (event response : val) : M (Flow.world W) unit :=
  mret tt.

Definition init_nothing {W} : M (Flow.world W) unit := mret tt.

(** A cleanup hook that leaves a mark. *)
Definition cleanup_releasing {W} : M (Flow.world W) unit :=
  modify (λ w, Flow.mk_world (Flow.trace w ++ [Released]) (Flow.down w)).

Definition keyed_event (k : string) (n : Z) : val :=
  VEvent (mkEvent (VInt n) (Some k) None None).

(** Three events are submitted to a fresh engine with room for eight, the
    worker takes the first job, and the call of that job fails. *)
Definition failed_run : option (_ConcurrentJobExecution.t * Flow.world unit) :=
  let do := _ConcurrentJobExecution._do sink init_nothing call_failing_on_one in
  let s0 := (_ConcurrentJobExecution.__init__ "JoinWithTable" 8 Flow.no_kwargs,
             Flow.mk_world [] tt) in
  let s1 := snd (do (Ev (VEvent (int_event 1))) s0) in
  let s2 := snd (do (Ev (VEvent (int_event 2))) s1) in
  let s3 := snd (do (Ev (VEvent (int_event 3))) s2) in
  s4 ← _ConcurrentJobExecution.worker_get cleanup_releasing s3;
  _ConcurrentJobExecution.worker_complete handle_nothing cleanup_releasing s4.

Definition failed_run_by_key
    : option (_ConcurrentByKeyJobExecution.t * Flow.world unit) :=
  let do := _ConcurrentByKeyJobExecution._do sink init_nothing batch_call_failing_on_one in
  let s0 := (_ConcurrentByKeyJobExecution.__init__ "ByKey" 8 Flow.no_kwargs,
             Flow.mk_world [] tt) in
  let s1 := snd (do (Ev (keyed_event "a" 1)) s0) in
  let s2 := snd (do (Ev (keyed_event "b" 2)) s1) in
  let s3 := snd (do (Ev (keyed_event "c" 3)) s2) in
  s4 ← _ConcurrentByKeyJobExecution.worker_get batch_call_failing_on_one
          handle_nothing cleanup_releasing s3;
  _ConcurrentByKeyJobExecution.worker_complete batch_call_failing_on_one
    handle_nothing cleanup_releasing s4.

(** The states those two runs end in. *)
Definition failed_state : _ConcurrentJobExecution.t * Flow.world unit :=
  (_ConcurrentJobExecution.mk
     (Flow.__init__ "JoinWithTable" Flow.no_kwargs) 8
     (Some [JEvent (VEvent (int_event 3)) (Ok VNone)])
     (Some (Done (Raise (UserError 1)))),
   Flow.mk_world [Released] tt).

Definition failed_state_by_key : _ConcurrentByKeyJobExecution.t * Flow.world unit :=
  (_ConcurrentByKeyJobExecution.mk
     (Flow.__init__ "ByKey" Flow.no_kwargs) 8
     (Some [JEvent (keyed_event "c" 3) (Ok VNone)])
     (Some (Done (Raise (UserError 1))))
     [(Some "a", mk_pending [keyed_event "a" 1] []);
      (Some "b", mk_pending [keyed_event "b" 2] []);
      (Some "c", mk_pending [keyed_event "c" 3] [])],
   Flow.mk_world [Released] tt).

(** ** JoinWithTable (construction) *)

Module JoinWithTable.

(** The [table] argument: a Table object, named by its number, or the name
    of one. *)
Inductive table_arg : Type :=
| TableObject (tbl : nat)
| TableName (table_name : string).

(** The [key_extractor] argument: a callable, a column name, or some other
    object. *)
Inductive key_extractor_arg : Type :=
| KeyFunction (f : val → result val)
| KeyColumn (column : string)
| KeyObject (v : val).

Record t : Type := mk
  { engine : _ConcurrentJobExecution.t;
    _table : nat;
    _key_extractor : option (val → result val);
    _join_function : val → val → result val;
    _attributes : val }.

Definition default_join_fn (event join_res : val) : result val :=
  dict_update event join_res.

Definition __init__ (table : table_arg) (key_extractor : key_extractor_arg)
    (attributes : option val) (join_function : option (val → val → result val))
    (max_in_flight : Z) (kw : Flow.kwargs) : result t :=
  let engine := _ConcurrentJobExecution.__init__ "JoinWithTable" max_in_flight kw in
  tbl ← match table with
        | TableObject tbl => Ok tbl
        | TableName table_name =>
            match Flow.context (_ConcurrentJobExecution.base engine) with
            | None =>
                Raise (TypeError
                         "Table can not be string if no context was provided to the step")
            | Some ctx => Context.get_table ctx table_name
            end
        end;
  extractor ← match key_extractor with
              | KeyFunction f => Ok (Some f)
              | KeyColumn column =>
                  if String.eqb column "" then Ok None
                  else Ok (Some (λ element, subscript element column))
              | KeyObject v =>
                  if truthy v
                  then Raise (TypeError
                                ("key is expected to be either a callable or string but got "
                                 ++ type_name v))
                  else Ok None
              end;
  Ok {| engine := engine;
        _table := tbl;
        _key_extractor := extractor;
        _join_function := default default_join_fn join_function;
        _attributes := match attributes with
                       | Some a => if truthy a then a else VStr "*"
                       | None => VStr "*"
                       end |}.

Definition base (self : t) : Flow.t := _ConcurrentJobExecution.base (engine self).

(** [Flow.to], inherited: the outlet is appended to the outlets of the step. *)
Definition to (self : t) (outlet : nat) : t :=
  let e := engine self in
  mk (_ConcurrentJobExecution.mk (Flow.to (_ConcurrentJobExecution.base e) outlet)
        (_ConcurrentJobExecution._max_in_flight e) (_ConcurrentJobExecution._q e)
        (_ConcurrentJobExecution._worker_awaitable e))
     (_table self) (_key_extractor self) (_join_function self) (_attributes self).

Section Hooks.
Context {W : Type}.
Variable beh : nat → msg → W → result val * W.
(** [await self._table.get_or_load_key(key, attributes)]: the table is an
    object of another module, named by its number. *)
Variable get_or_load_key : nat → val → val → result val.

(** [self._key_extractor] is missing when the constructor got a falsy
    [key_extractor]. *)
Definition _process_event (self : t) (event : val) : result val :=
  extractor ← match _key_extractor self with
              | Some f => Ok f
              | None =>
                  Raise (AttributeError
                           "'JoinWithTable' object has no attribute '_key_extractor'")
              end;
  element ← Flow._get_safe_event_or_body (base self) event;
  key ← extractor element;
  get_or_load_key (_table self) key (_attributes self).

Definition _handle_completed (self : t) (event response : val) : M (Flow.world W) unit :=
  element ← lift (Flow._get_safe_event_or_body (base self) event);
  joined ← lift (_join_function self element response);
  match joined with
  | VNone => mret tt
  | _ =>
      new_event ← lift (Flow._user_fn_output_to_event (base self) event joined);
      _ ← Flow._do_downstream beh (base self) (Ev new_event);
      mret tt
  end.

(** [_lazy_init] and [_cleanup] are those of _ConcurrentJobExecution: [pass]. *)
Definition _lazy_init : M (Flow.world W) unit := mret tt.
Definition _cleanup : M (Flow.world W) unit := mret tt.

End Hooks.

End JoinWithTable.

(** First non-None wins, as a function of values. *)
Definition first_non_none (x y : val) : val :=
  match x with VNone => y | _ => x end.

(** A downstream in which step 1 answers the sentinel with 7, as a Reduce
    step would, and every other call returns None. *)
Definition answering_seven : nat → msg → unit → result val * unit :=
  λ o m d,
    match o, m with
    | 1%nat, Termination => (Ok (VInt 7), d)
    | _, _ => (Ok VNone, d)
    end.

(** A step with the outlets 0 and 1 and the default combiner. *)
Definition fan_out : Flow.t :=
  Flow.to (Flow.to (Flow.__init__ "Source" Flow.no_kwargs) 0%nat) 1%nat.

(** The predicate [lambda x: x == k]. *)
Definition equals (k : Z) : val → val :=
  λ v, VBool (match v with VInt n => n =? k | _ => false end).

(** An event with a result slot. *)
Definition awaited_event : Event := mkEvent (VInt 43) None None (Some 7%nat).

(** A MapClass subclass that counts its calls and filters the payload 0. *)
Definition counting_do : MapClass.do_method nat :=
  λ element calls,
    (Ok element, match element with VInt 0 => true | _ => false end, S calls).

(** What [build_flow] does to the lists nested in an item agrees with the
    walk of the specification. *)
Definition builds_as_walks (x : item) : Prop :=
  match x with
  | Step _ => True
  | Nested steps =>
      ∀ (h h' : heap) (r : item),
        build_flow steps h = (Ok r, h') ↔
        ∃ (first : item) (rest : list item),
          steps = first :: rest ∧ r = first ∧ walks first rest h h'
  end.

(** Lists on which [build_flow] goes through: every list, nested or not,
    starts with a step, and no step that is given an outlet is a Reduce
    step.  [reduce] tells the Reduce steps. *)
Fixpoint can_build (reduce : nat → bool) (x : item) : Prop :=
  match x with
  | Step _ => True
  | Nested [] => False
  | Nested (Nested _ :: _) => False
  | Nested (Step s :: rest) =>
      (fix go (cur : nat) (l : list item) : Prop :=
         match l with
         | [] => True
         | next :: l' =>
             match next with
             | Step s' => reduce cur = false ∧ go s' l'
             | Nested _ => can_build reduce next ∧ reduce cur = false ∧ go cur l'
             end
         end) s rest
  end.

Fixpoint can_walk (reduce : nat → bool) (cur : nat) (l : list item) : Prop :=
  match l with
  | [] => True
  | next :: l' =>
      match next with
      | Step s' => reduce cur = false ∧ can_walk reduce s' l'
      | Nested _ => can_build reduce next ∧ reduce cur = false ∧ can_walk reduce cur l'
      end
  end.

(** [build_flow] goes through on the lists nested in an item. *)
Definition builds_through (reduce : nat → bool) (x : item) : Prop :=
  match x with
  | Step _ => True
  | Nested steps =>
      can_build reduce x →
      ∀ h : heap,
        is_reduce h = reduce →
        ∃ (first : item) (h' : heap),
          head steps = Some first ∧
          build_flow steps h = (Ok first, h') ∧ is_reduce h' = reduce
  end.

(** Hooks in the manner of the join steps: the external call answers with
    the number of events it was given, and a completed event is forwarded
    to outlet 0 of the step with that answer as its body. *)
Definition call_counting (events : list val) : result val :=
  Ok (VInt (Z.of_nat (length events))).

Definition forward_to_outlet_zero (event response : val) : M (Flow.world unit) unit :=
  new_event ← lift (set_body event response);
  _ ← Flow.call_do sink 0%nat (Ev new_event);
  mret tt.

(** Run the worker of the by-key engine for as long as it can move, at most
    [n] moves. *)
Fixpoint run_by_key_worker (n : nat)
    (s : _ConcurrentByKeyJobExecution.t * Flow.world unit)
    : _ConcurrentByKeyJobExecution.t * Flow.world unit :=
  match n with
  | O => s
  | S n' =>
      match _ConcurrentByKeyJobExecution.worker_get call_counting forward_to_outlet_zero
              init_nothing s with
      | Some s' => run_by_key_worker n' s'
      | None =>
          match _ConcurrentByKeyJobExecution.worker_complete call_counting
                  forward_to_outlet_zero init_nothing s with
          | Some s' => run_by_key_worker n' s'
          | None => s
          end
      end
  end.

(** Scenario S5: two events for key a and one for key b are submitted
    back to back, then the worker runs. *)
Definition coalescing_run : _ConcurrentByKeyJobExecution.t * Flow.world unit :=
  let do := _ConcurrentByKeyJobExecution._do sink init_nothing call_counting in
  let s0 := (_ConcurrentByKeyJobExecution.__init__ "ByKey" 8 Flow.no_kwargs,
             Flow.mk_world [] tt) in
  let s1 := snd (do (Ev (keyed_event "a" 100)) s0) in
  let s2 := snd (do (Ev (keyed_event "a" 10)) s1) in
  let s3 := snd (do (Ev (keyed_event "b" 10)) s2) in
  run_by_key_worker 10 s3.

(** Scenario S1 in small: [Map(lambda x: x + 1)] piped into
    [Reduce(0, lambda acc, x: acc + x)].  The Reduce step is the only step
    downstream of the Map step, so its fields are the downstream state. *)
Definition add_one (x : val) : result val :=
  match x with
  | VInt n => Ok (VInt (n + 1))
  | _ => Raise (TypeError "unsupported operand type(s) for +")
  end.

Definition add (acc x : val) : result val :=
  match acc, x with
  | VInt a, VInt b => Ok (VInt (a + b))
  | _, _ => Raise (TypeError "unsupported operand type(s) for +")
  end.

Definition reduce_downstream : nat → msg → Reduce.t → result val * Reduce.t :=
  λ _ m, Reduce._do m.

Definition map_then_reduce (inputs : list Z) : result val :=
  match Map.__init__ (Callable add_one) Flow.no_kwargs,
        Reduce.__init__ (VInt 0) (Callable add) Flow.no_kwargs with
  | Ok map_step, Ok reduce_step =>
      let map_step :=
        _UnaryFunctionFlow.mk (Flow.to (_UnaryFunctionFlow.base map_step) 0%nat)
          (_UnaryFunctionFlow._fn map_step) in
      fst (feed (Map._do reduce_downstream map_step)
             (map (λ n, Ev (VEvent (int_event n))) inputs ++ [Termination]) VNone
             (Flow.mk_world [] reduce_step))
  | Raise ex, _ | _, Raise ex => Raise ex
  end.

(** ** Vocabulary for the statements about the functional steps *)

(** The calls by which the events [events] reach the outlets [outs]: event
    after event, and for each event outlet after outlet. *)
Definition forwarded (outs : list nat) (events : list val) : list obs :=
  concat (map (λ ev, map (λ o, Called o (Ev ev)) outs) events).

(** [_do_downstream] for one event after the other. *)
Fixpoint forward_each {W} (beh : nat → msg → W → result val * W) (b : Flow.t)
    (events : list val) : M (Flow.world W) unit :=
  match events with
  | [] => mret tt
  | ev :: events' => _ ← Flow._do_downstream beh b (Ev ev); forward_each beh b events'
  end.

(** The event with another body: key, time and result slot stay. *)
Definition with_body (e : Event) (b : val) : val :=
  VEvent (mkEvent b (key e) (time e) (_awaitable_result e)).

(** What a step hands on for the result [r] of its function on [e]: the
    result itself under [full_event], the event with [r] as body otherwise. *)
Definition derived_event (full_event : bool) (e : Event) (r : val) : val :=
  if full_event then r else with_body e r.

(** A user function of one argument that returns a list. *)
Definition pure_list (f : val → list val) : val → result val :=
  λ x, Ok (VList (f x)).

(** Functions for the scenarios of the functional steps. *)
Definition plus_one (v : val) : val :=
  match v with VInt n => VInt (n + 1) | _ => VNone end.

Definition twice (v : val) : list val := [v; v].

(** A flow base with the outlets 0 and 1 and the default combiner. *)
Definition two_outlets (class_name : string) : Flow.t :=
  Flow.to (Flow.to (Flow.__init__ class_name Flow.no_kwargs) 0%nat) 1%nat.

(** A condition that returns, with a falsy value, on the element. *)
Definition declines (element : val) (oc : nat * (val → result val)) : Prop :=
  ∃ c : val, snd oc element = Ok c ∧ truthy c = false.

(** Conditions for the scenarios of Choice: one that never holds and one
    that raises. *)
Definition never_holds : val → result val := λ _, Ok (VBool false).
Definition always_holds : val → result val := λ _, Ok (VBool true).
Definition raising_condition : val → result val := λ _, Raise (UserError 2).

(** ** Vocabulary for the statements about Extend and MapWithState *)

(** The body once the items have been stored in it, in order. *)
Definition store_all (items d : list (string * val)) : list (string * val) :=
  fold_left (λ acc kv, dict_store (fst kv) (snd kv) acc) items d.

(** A stateful user function that returns normally. *)
Definition pure_stateful (f : val → val → val * val) : val → val → result (val * val) :=
  λ element st, Ok (f element st).

(** The events MapWithState hands on for the inputs [es] from the state
    [st], and the state it ends in. *)
Fixpoint threaded (full_event : bool) (f : val → val → val * val) (st : val)
    (es : list Event) : list val :=
  match es with
  | [] => []
  | e :: es' =>
      let out := f (element_of full_event e) st in
      derived_event full_event e (fst out) :: threaded full_event f (snd out) es'
  end.

Definition final_state (full_event : bool) (f : val → val → val * val) (st : val)
    (es : list Event) : val :=
  fold_left (λ st e, snd (f (element_of full_event e) st)) es st.

(** Scenario functions: a running sum as state, and a dict of fields. *)
Definition running_sum (element st : val) : val * val :=
  match element, st with
  | VInt x, VInt s => (VInt (s + x), VInt (s + x))
  | _, _ => (VNone, st)
  end.

Definition dict_event (d : list (string * val)) (k : option string) : Event :=
  mkEvent (VDict d) k None None.

(** ** Vocabulary for further statements about build_flow *)

(** The chain [cur.to(x1).to(x2)...]: each [to] returns its argument, on
    which the next [to] is called. *)
Fixpoint pipe (cur : item) (xs : list item) : M heap item :=
  match xs with
  | [] => mret cur
  | x :: xs' => next ← to cur x; pipe next xs'
  end.

(** [h'] has every outlet list of [h], possibly with more outlets at its
    end, and the same Reduce steps. *)
Definition extends_edges (h h' : heap) : Prop :=
  is_reduce h' = is_reduce h ∧ ∀ s : nat, outlets_of h s `prefix_of` outlets_of h' s.

(** Running the builder only extends the edges, whether it returns or
    raises. *)
Definition only_extends {A} (m : M heap A) : Prop :=
  ∀ h : heap, extends_edges h (snd (m h)).

Definition builds_by_extending (x : item) : Prop :=
  match x with
  | Step _ => True
  | Nested steps => only_extends (build_flow steps)
  end.

(** ** Runs of _ConcurrentJobExecution under any schedule *)

(** The caller submits the messages [remaining] one [_do] after the other,
    and the worker task runs beside it; which of the two moves next is up
    to the event loop.  A schedule lists the moves in the order they are
    taken; a move that is not possible at its turn changes nothing. *)
Module JobRun.

Inductive action : Type :=
| Produce
| WorkerGet
| WorkerComplete.

Record sys (W : Type) : Type := mk
  { eng : _ConcurrentJobExecution.t;
    wld : Flow.world W;
    remaining : list msg;
    pending : option (msg * suspended);
    outcome : option (result val) }.
Arguments mk {W} _ _ _ _ _.
Arguments eng {W} _.
Arguments wld {W} _.
Arguments remaining {W} _.
Arguments pending {W} _.
Arguments outcome {W} _.

Section Run.
Context {W : Type}.
Variable beh : nat → msg → W → result val * W.
Variable _lazy_init : M (Flow.world W) unit.
Variable _process_event : val → result val.
Variable _handle_completed : val → val → M (Flow.world W) unit.
Variable _cleanup : M (Flow.world W) unit.

(** The job [_do] enqueues for a message. *)
Definition msg_job (m : msg) : job :=
  match m with
  | Termination => JTermination
  | Ev event => JEvent event (_process_event event)
  end.

(** A call of [_do] for [m] has come to [p]: it returned from an event, and
    the caller goes on to the next message; or it is suspended; or it
    raised, or returned from the sentinel, and the run is over. *)
Definition settle (m : msg)
    (p : progress * (_ConcurrentJobExecution.t * Flow.world W)) (rest : list msg)
    : sys W :=
  match p with
  | (Finished r, (e, w)) =>
      match m, r with
      | Ev _, Ok _ => mk e w rest None None
      | _, _ => mk e w rest None (Some r)
      end
  | (Suspended k, (e, w)) => mk e w rest (Some (m, k)) None
  end.

Definition produce (s : sys W) : sys W :=
  match outcome s with
  | Some _ => s
  | None =>
      match pending s with
      | Some (m, k) =>
          settle m (_ConcurrentJobExecution._do_resume beh k (eng s, wld s)) (remaining s)
      | None =>
          match remaining s with
          | [] => s
          | m :: rest =>
              settle m (_ConcurrentJobExecution._do beh _lazy_init _process_event m
                          (eng s, wld s)) rest
          end
      end
  end.

Definition with_engine (s : sys W)
    (ew : option (_ConcurrentJobExecution.t * Flow.world W)) : sys W :=
  match ew with
  | Some (e, w) => mk e w (remaining s) (pending s) (outcome s)
  | None => s
  end.

Definition act (a : action) (s : sys W) : sys W :=
  match a with
  | Produce => produce s
  | WorkerGet =>
      with_engine s (_ConcurrentJobExecution.worker_get _cleanup (eng s, wld s))
  | WorkerComplete =>
      with_engine s (_ConcurrentJobExecution.worker_complete _handle_completed _cleanup
                       (eng s, wld s))
  end.

Definition run (schedule : list action) (s : sys W) : sys W :=
  fold_left (λ s a, act a s) schedule s.

(** The step as its constructor leaves it, with neither queue nor worker. *)
Definition unstarted (self : _ConcurrentJobExecution.t) : Prop :=
  _ConcurrentJobExecution._q self = None ∧
  _ConcurrentJobExecution._worker_awaitable self = None.

(** The messages of a whole stream are still to submit to [self]. *)
Definition start (self : _ConcurrentJobExecution.t) (es : list val) (w : Flow.world W)
    : sys W :=
  mk self w (map Ev es ++ [Termination]) None None.

(** The call of the event answers, and handling the answer does not raise. *)
Definition completes (event : val) : Prop :=
  ∃ completed, _process_event event = Ok completed ∧
               ∀ w, fst (_handle_completed event completed w) = Ok tt.

(** The world once [_handle_completed] has run for the events, one after
    the other, each with the answer to its call. *)
Definition handle_one (w : Flow.world W) (event : val) : Flow.world W :=
  match _process_event event with
  | Ok completed => snd (_handle_completed event completed w)
  | Raise _ => w
  end.

Definition handled (events : list val) (w : Flow.world W) : Flow.world W :=
  fold_left handle_one events w.

Definition inflight (ws : option worker_state) : list job :=
  match ws with
  | Some (Handling event task) => [JEvent event task]
  | _ => []
  end.

Definition blocked (p : option (msg * suspended)) : list job :=
  match p with
  | Some (_, BlockedOnPut j) => [j]
  | _ => []
  end.

(** What holds of every state a schedule can reach once the first [_do] has
    created the queue and the worker; [w0] is the world that [_lazy_init]
    left. *)
Definition invariant (b : Flow.t) (es : list val) (w0 : Flow.world W) (s : sys W) : Prop :=
  _ConcurrentJobExecution.base (eng s) = b ∧
  _ConcurrentJobExecution._q (eng s) ≠ None ∧
  match outcome s with
  | Some r =>
      _ConcurrentJobExecution._worker_awaitable (eng s) = Some (Done (Ok tt)) ∧
      (r, wld s) =
      Flow._do_downstream beh b Termination (snd (_cleanup (handled es w0)))
  | None =>
      match _ConcurrentJobExecution._worker_awaitable (eng s) with
      | Some (Done (Ok _)) =>
          wld s = snd (_cleanup (handled es w0)) ∧
          pending s = Some (Termination, AwaitingWorker)
      | Some (Done (Raise _)) | Some (Putting _) | None => False
      | Some ws =>
          ∃ done todo : list val,
            es = done ++ todo ∧
            wld s = handled done w0 ∧
            map msg_job (map Ev todo ++ [Termination]) =
              inflight (Some ws) ++ _ConcurrentJobExecution.queue (eng s) ++
              blocked (pending s) ++ map msg_job (remaining s) ∧
            match pending s with
            | Some (m, BlockedOnPut j) =>
                j = msg_job m ∧ JTermination ∉ _ConcurrentJobExecution.queue (eng s)
            | Some (m, AwaitingWorker) =>
                m = Termination ∧ JTermination ∈ _ConcurrentJobExecution.queue (eng s)
            | None =>
                JTermination ∉ _ConcurrentJobExecution.queue (eng s)
            end
      end
  end.

End Run.

(** The caller and the worker take turns: a move of the caller, then the
    worker takes a job and the call of the job completes. *)
Definition round_robin (rounds : nat) : list action :=
  concat (replicate rounds [Produce; WorkerGet; WorkerComplete]).

End JobRun.

(** ** Runs of JoinWithTable *)

(** A stream of events through a JoinWithTable step, the caller and the
    worker moving as the schedule says. *)
Definition JoinWithTable_run {W} (beh : nat → msg → W → result val * W)
    (get_or_load_key : nat → val → val → result val) (self : JoinWithTable.t)
    (schedule : list JobRun.action) (es : list Event) (w : Flow.world W) : JobRun.sys W :=
  JobRun.run beh JoinWithTable._lazy_init
    (JoinWithTable._process_event get_or_load_key self)
    (JoinWithTable._handle_completed beh self)
    JoinWithTable._cleanup schedule
    (JobRun.start (JoinWithTable.engine self) (map VEvent es) w).

(** The table has the row [row e] for the key of the event, and the join
    function returns [joined e] on the element and the row. *)
Definition joins (get_or_load_key : nat → val → val → result val)
    (self : JoinWithTable.t) (row joined : Event → val) (e : Event) : Prop :=
  JoinWithTable._process_event get_or_load_key self (VEvent e) = Ok (row e) ∧
  JoinWithTable._join_function self
    (element_of (Flow._full_event (JoinWithTable.base self)) e) (row e) = Ok (joined e).

(** What the step hands on for an event: nothing when the join function
    returned None. *)
Definition joined_events (full_event : bool) (joined : Event → val) (es : list Event)
    : list val :=
  map (λ e, derived_event full_event e (joined e))
    (List.filter (λ e, negb (is_none (joined e))) es).

(** A table of cities by user, and a step that joins on the column "user"
    with the default join function, with room for one job. *)
Definition city_table (tbl : nat) (key attributes : val) : result val :=
  match key with
  | VStr "ann" => Ok (VDict [("city", VStr "Oslo")])
  | VStr "bob" => Ok (VDict [("city", VStr "Rome")])
  | _ => Ok (VDict [])
  end.

Definition city_joiner : JoinWithTable.t :=
  JoinWithTable.to
    (JoinWithTable.mk
       (_ConcurrentJobExecution.__init__ "JoinWithTable" 1 Flow.no_kwargs) 0%nat
       (Some (λ element, subscript element "user"))
       JoinWithTable.default_join_fn (VStr "*"))
    0%nat.

Definition user_event (user : string) : Event :=
  mkEvent (VDict [("user", VStr user)]) None None None.

Definition city_row (e : Event) : val :=
  match subscript (body e) "user" with
  | Ok key => match city_table 0%nat key (VStr "*") with Ok r => r | Raise _ => VNone end
  | Raise _ => VNone
  end.

Definition with_city (e : Event) : val :=
  match dict_update (body e) (city_row e) with Ok v => v | Raise _ => VNone end.

(** A schedule for two events and a queue with room for one job: the second
    [_do] finds the queue full and waits until the worker has taken the
    first job. *)
Definition eager_schedule : list JobRun.action :=
  [JobRun.Produce; JobRun.Produce; JobRun.WorkerGet; JobRun.Produce;
   JobRun.WorkerComplete; JobRun.WorkerGet; JobRun.Produce; JobRun.WorkerComplete;
   JobRun.Produce; JobRun.WorkerGet; JobRun.Produce].

Definition ann_in_oslo : val :=
  VEvent (mkEvent (VDict [("user", VStr "ann"); ("city", VStr "Oslo")]) None None None).

Definition bob_in_rome : val :=
  VEvent (mkEvent (VDict [("user", VStr "bob"); ("city", VStr "Rome")]) None None None).

(** The queue of the step holds no more jobs than [max_in_flight], where
    that is a bound. *)
Definition within_bound (mx : Z) (self : _ConcurrentJobExecution.t) : Prop :=
  _ConcurrentJobExecution._max_in_flight self = mx ∧
  Z.of_nat (length (_ConcurrentJobExecution.queue self)) ≤ mx.

(** ** Vocabulary and scenarios for the statements about Complete *)

(** What Complete settles a slot with: the body, or under [full_event] a
    copy of the event, which shares the body. *)
Definition settled_value (full_event : bool) (e : Event) (b : val) : val :=
  if full_event then with_body e b else b.

(** Steps below that leave the body of the event alone. *)
Definition unchanged {W} : W → val → val := λ _ b, b.

Definition complete_over_one : Complete.t :=
  Complete.mk (Flow.to (Flow.__init__ "Complete" Flow.no_kwargs) 0%nat).

(** A Batch step with batches of two and no timeout as the only outlet of
    Complete; the step below Batch, numbered 1, returns None. *)
Definition batch_of_two : _Batching.t :=
  _Batching.mk (Flow.to (Flow.__init__ "Batch" Flow.no_kwargs) 1%nat)
    (Some 2) 0 [] None None None.

Definition batch_below
    : nat → msg → _Batching.t * Flow.world unit →
      result val * (_Batching.t * Flow.world unit) :=
  λ _ m s, Batch._do sink m s.

(** An Extend step as the only outlet of Complete, with the step numbered 1
    below it.  Extend hands on the event it was handed, stored into: the
    body of that event is the body of the last event Extend handed on. *)
Definition extend_below (fn : val → result val)
    : nat → msg → Flow.world unit → result val * Flow.world unit :=
  λ _ m w,
    Extend._do sink
      (_UnaryFunctionFlow.mk (Flow.to (Flow.__init__ "Extend" Flow.no_kwargs) 1%nat) fn)
      m w.

Definition body_handed_on (w : Flow.world unit) (b : val) : val :=
  match last (Flow.trace w) with
  | Some (Called _ (Ev (VEvent e))) => body e
  | _ => b
  end.

Definition with_city_field (element : val) : result val :=
  Ok (VDict [("city", VStr "Oslo")]).

Definition awaited_user : Event :=
  mkEvent (VDict [("user", VStr "ann")]) None None (Some 7%nat).

Definition awaited_user_in_oslo : Event :=
  mkEvent (VDict [("user", VStr "ann"); ("city", VStr "Oslo")]) None None (Some 7%nat).

(** The calls that have been started and whose answer has not been handled:
    those of the jobs in the queue, the one the worker awaits, and the one
    of a [_do] that waits for room in the queue. *)
Definition started_not_handled {W} (s : JobRun.sys W) : nat :=
  (length (JobRun.inflight (_ConcurrentJobExecution._worker_awaitable (JobRun.eng s))) +
   length (_ConcurrentJobExecution.queue (JobRun.eng s)) +
   length (JobRun.blocked (JobRun.pending s)))%nat.

(** The worker has not finished. *)
Definition worker_running (self : _ConcurrentJobExecution.t) : Prop :=
  match _ConcurrentJobExecution._worker_awaitable self with
  | Some (Done _) => False
  | _ => True
  end.

(** A schedule after which a step with room for one job has three calls
    under way: the worker awaits the first, the second is in the queue, and
    the [_do] of the third waits for room. *)
Definition crowding_schedule : list JobRun.action :=
  [JobRun.Produce; JobRun.WorkerGet; JobRun.Produce; JobRun.Produce].

(** * Theorems *)

(** ** Reduce *)

Lemma Reduce_do_event (r : Reduce.t) (e : Event) :
  Reduce._do (Ev (VEvent e)) r =
  match Reduce._fn r (Reduce._result r) (element_of (Flow._full_event (Reduce.base r)) e) with
  | Ok res => (Ok VNone, Reduce.set_result r res)
  | Raise ex => (Raise ex, r)
  end.
Proof.
  unfold Reduce._do, element_of, mbind, M_bind, get, lift, put, mret, M_ret; simpl.
  destruct (Flow._full_event (Reduce.base r)); simpl;
    destruct (Reduce._fn r _ _); reflexivity.
Qed.

Lemma Reduce_do_termination (r : Reduce.t) :
  Reduce._do Termination r = (Ok (Reduce._result r), r).
Proof. reflexivity. Qed.

Lemma Reduce_feed_events (f : val → val → val) (es : list Event) :
  ∀ (r : Reduce.t) (last : val),
    Reduce._fn r = pure2 f →
    feed Reduce._do (map (λ e, Ev (VEvent e)) es ++ [Termination]) last r =
    let acc := fold_left f (map (element_of (Flow._full_event (Reduce.base r))) es)
                 (Reduce._result r) in
    (Ok acc, Reduce.set_result r acc).
Proof.
  induction es as [|e es IH]; intros r last Hfn.
  - destruct r; reflexivity.
  - cbn [map app feed]. unfold mbind at 1, M_bind at 1.
    rewrite Reduce_do_event, Hfn. unfold pure2 at 1.
    rewrite IH by exact Hfn. reflexivity.
Qed.

(** C1.  Reduce built from an initial value [v] and a function [f] applies
    [accumulator := f accumulator element] to each event in arrival order,
    the element being the body of the event or, with [full_event], the event
    itself; on the sentinel it returns the accumulator, which is the left
    fold of [f] over the elements starting from [v]. *)
Theorem Reduce_termination_result_is_fold
    (f : val → val → val) (v : val) (kw : Flow.kwargs) (es : list Event) :
  ∃ r0 : Reduce.t,
    Reduce.__init__ v (Callable (pure2 f)) kw = Ok r0 ∧
    Reduce._result r0 = v ∧
    (∀ (b : Flow.t) (acc : val) (e : Event),
        Reduce._do (Ev (VEvent e)) (Reduce.mk b (pure2 f) acc) =
        (Ok VNone, Reduce.mk b (pure2 f) (f acc (element_of (Flow._full_event b) e)))) ∧
    (∀ r : Reduce.t, Reduce._do Termination r = (Ok (Reduce._result r), r)) ∧
    fst (feed Reduce._do (map (λ e, Ev (VEvent e)) es ++ [Termination]) VNone r0) =
    Ok (fold_left f (map (element_of (Flow.kw_full_event kw)) es) v).
Proof.
  eexists; split; [reflexivity|]. split; [reflexivity|]. split; [|split].
  - intros b acc e. rewrite Reduce_do_event. reflexivity.
  - apply Reduce_do_termination.
  - rewrite (Reduce_feed_events f) by reflexivity. reflexivity.
Qed.

(** Scenario S1 in small: the sum of the bodies 1, 2, 3 from 0. *)
Example Reduce_sum_example :
  fst (feed Reduce._do
         [Ev (VEvent (mkEvent (VInt 1) None None None));
          Ev (VEvent (mkEvent (VInt 2) None None None));
          Ev (VEvent (mkEvent (VInt 3) None None None));
          Termination] VNone
         {| Reduce.base := Flow.__init__ "Reduce" Flow.no_kwargs;
            Reduce._fn := λ acc x,
              match acc, x with
              | VInt a, VInt b => Ok (VInt (a + b))
              | _, _ => Raise (TypeError "unsupported operand")
              end;
            Reduce._result := VInt 0 |}) = Ok (VInt 6).
Proof. reflexivity. Qed.

(** Scenario S1 with the inputs 0 to 9: the sum of [i + 1]. *)
Example map_then_reduce_example :
  map_then_reduce [0; 1; 2; 3; 4; 5; 6; 7; 8; 9] = Ok (VInt 55).
Proof. vm_compute. reflexivity. Qed.

(** ** Flow._do_downstream *)

Section DownstreamFacts.
Context {W : Type}.
Variable beh : nat → msg → W → result val * W.

Lemma call_do_ok (o : nat) (m : msg) (tr : list obs) (d d1 : W) (r : val) :
  beh o m d = (Ok r, d1) →
  Flow.call_do beh o m (Flow.mk_world tr d) = (Ok r, Flow.mk_world (tr ++ [Called o m]) d1).
Proof. intros H. unfold Flow.call_do; simpl. rewrite H. reflexivity. Qed.

Lemma fold_termination_chain (f : val → val → val) (outs : list nat) (d : W)
    (rs : list val) (d' : W) :
  outlet_chain beh Termination outs d rs d' →
  ∀ (acc : val) (tr : list obs),
    Flow.fold_termination beh (pure2 f) acc outs (Flow.mk_world tr d) =
    (Ok (fold_left f rs acc),
     Flow.mk_world (tr ++ map (λ o, Called o Termination) outs) d').
Proof.
  induction 1 as [d|o outs d r d1 rs d2 Hbeh _ IH]; intros acc tr.
  - simpl. rewrite app_nil_r. reflexivity.
  - cbn [Flow.fold_termination]. unfold mbind at 1, M_bind at 1.
    rewrite (call_do_ok _ _ _ _ _ _ Hbeh).
    unfold mbind at 1, M_bind at 1, lift, pure2 at 1.
    rewrite IH. cbn [map fold_left]. rewrite <- app_assoc. reflexivity.
Qed.

Lemma do_downstream_no_outlets (self : Flow.t) (event : msg) (w : Flow.world W) :
  Flow._outlets self = [] →
  Flow._do_downstream beh self event w = (Ok VNone, w).
Proof. intros H. unfold Flow._do_downstream. rewrite H. reflexivity. Qed.

End DownstreamFacts.

(** C2.  On the sentinel, [_do_downstream] calls the [_do] of the outlets
    one after the other in outlet order and returns the left fold of their
    results under [termination_result_fn]; without outlets it returns None;
    the default combiner returns its first argument unless that is None, and
    then its second. *)
Theorem do_downstream_termination_folds {W : Type}
    (beh : nat → msg → W → result val * W) (self : Flow.t) (f : val → val → val)
    (o0 : nat) (rest : list nat) (w : Flow.world W)
    (r0 : val) (rs : list val) (d' : W) :
  Flow._outlets self = o0 :: rest →
  Flow._termination_result_fn self = pure2 f →
  outlet_chain beh Termination (o0 :: rest) (Flow.down w) (r0 :: rs) d' →
  Flow._do_downstream beh self Termination w =
    (Ok (fold_left f rs r0),
     Flow.mk_world (Flow.trace w ++ map (λ o, Called o Termination) (o0 :: rest)) d')
  ∧ Flow._do_downstream beh (Flow.with_outlets self []) Termination w = (Ok VNone, w)
  ∧ (∀ cls : string,
        Flow._termination_result_fn (Flow.__init__ cls Flow.no_kwargs) =
        Flow.default_termination_result_fn)
  ∧ (∀ x y : val,
        Flow.default_termination_result_fn x y = Ok (if is_none x then y else x)).
Proof.
  intros Houts Hfn Hchain. split; [|split; [|split]].
  - unfold Flow._do_downstream. rewrite Houts, Hfn.
    inversion Hchain as [|o outs d r d1 rs1 d2 Hbeh Hrest]; subst.
    destruct w as [tr d]; simpl in *.
    unfold mbind at 1, M_bind at 1.
    rewrite (call_do_ok _ _ _ _ _ _ _ Hbeh).
    rewrite (fold_termination_chain beh f rest d1 rs d' Hrest).
    rewrite <- app_assoc. reflexivity.
  - reflexivity.
  - reflexivity.
  - intros [] y; reflexivity.
Qed.

(** *** Events through [_do_downstream] *)

Section DownstreamEvents.
Context {W : Type}.
Variable beh : nat → msg → W → result val * W.

Lemma await_all_ok {S} (rs : list val) (s : S) :
  Flow.await_all (map Ok rs) s = (Ok tt, s).
Proof. induction rs as [|r rs IH]; simpl; [reflexivity|exact IH]. Qed.

Lemma run_tasks_chain (m : msg) (outs : list nat) (d : W) (rs : list val) (d' : W) :
  outlet_chain beh m outs d rs d' →
  ∀ tr : list obs,
    Flow.run_tasks beh outs m (Flow.mk_world tr d) =
    (Ok (map Ok rs), Flow.mk_world (tr ++ map (λ o, Called o m) outs) d').
Proof.
  induction 1 as [d|o outs d r d1 rs d2 Hbeh _ IH]; intros tr.
  - simpl. rewrite app_nil_r. reflexivity.
  - cbn [Flow.run_tasks]. unfold mbind at 1, M_bind at 1, attempt.
    rewrite (call_do_ok _ _ _ _ _ _ _ Hbeh).
    unfold mbind at 1, M_bind at 1. rewrite IH.
    cbn [map]. rewrite <- app_assoc. reflexivity.
Qed.

(** When every outlet returns, a real event has reached all of them, in
    outlet order, by the time [_do_downstream] returns. *)
Lemma do_downstream_event_chain (self : Flow.t) (ev : val) (tr : list obs)
    (d : W) (rs : list val) (d' : W) :
  outlet_chain beh (Ev ev) (Flow._outlets self) d rs d' →
  Flow._do_downstream beh self (Ev ev) (Flow.mk_world tr d) =
  (Ok VNone, Flow.mk_world (tr ++ map (λ o, Called o (Ev ev)) (Flow._outlets self)) d').
Proof.
  unfold Flow._do_downstream. intros Hchain.
  inversion Hchain as [d0 Houts|o outs d0 r d1 rs1 d2 Hbeh Hrest Houts]; subst.
  - simpl. rewrite app_nil_r. reflexivity.
  - unfold mbind at 1, M_bind at 1. rewrite (call_do_ok _ _ _ _ _ _ _ Hbeh).
    unfold mbind at 1, M_bind at 1. rewrite (run_tasks_chain _ _ _ _ _ Hrest).
    unfold mbind at 1, M_bind at 1. rewrite await_all_ok.
    cbn [map]. rewrite <- app_assoc. reflexivity.
Qed.

End DownstreamEvents.

(** ** Complete *)

(** The settlement Complete makes for an event. *)
Lemma Complete_do_event {W : Type} (beh : nat → msg → W → result val * W)
    (body_now : W → val → val) (self : Complete.t) (e : Event) (w : Flow.world W) :
  Complete._do beh body_now self (Ev (VEvent e)) w =
  match Flow._do_downstream beh (Complete.base self) (Ev (VEvent e)) w with
  | (Ok termination_result, w1) =>
      match _awaitable_result e with
      | Some handle =>
          (Ok termination_result,
           Flow.mk_world
             (Flow.trace w1 ++
              [Settled handle
                 (settled_value (Flow._full_event (Complete.base self)) e
                    (body_now (Flow.down w1) (body e)))])
             (Flow.down w1))
      | None =>
          (Raise (AttributeError "'NoneType' object has no attribute '_set_result'"), w1)
      end
  | (Raise ex, w1) => (Raise ex, w1)
  end.
Proof.
  unfold Complete._do. unfold mbind at 1, M_bind at 1.
  destruct (Flow._do_downstream beh (Complete.base self) (Ev (VEvent e)) w)
    as [[r|ex] w1]; [|reflexivity].
  unfold Flow._get_safe_event_or_body, copy, settled_value, with_body, Complete.event_now.
  destruct (Flow._full_event (Complete.base self)); simpl;
    unfold mbind, M_bind, lift, get; simpl; destruct (_awaitable_result e); reflexivity.
Qed.

(** C5.  On a real event Complete first runs [_do_downstream] and settles
    the result slot of the event only once that has returned.  If the
    downstream raises, nothing is settled; if every outlet returns, the
    settlement is the last observation, after the call to each outlet.  What
    it settles the slot with is the body the event has by then, as the
    steps below have left it, or under [full_event] a copy of the event
    with that body.  The return of the [_do] of each outlet is all that has
    happened by then: a step below that holds the event back has not handed
    it on. *)
Theorem Complete_settles_after_outlets_return {W : Type}
    (beh : nat → msg → W → result val * W) (body_now : W → val → val)
    (self : Complete.t) (e : Event)
    (handle : nat) (tr : list obs) (d : W) (rs : list val) (d' : W) :
  _awaitable_result e = Some handle →
  outlet_chain beh (Ev (VEvent e)) (Flow._outlets (Complete.base self)) d rs d' →
  (∀ w : Flow.world W,
      Complete._do beh body_now self (Ev (VEvent e)) w =
      match Flow._do_downstream beh (Complete.base self) (Ev (VEvent e)) w with
      | (Ok termination_result, w1) =>
          (Ok termination_result,
           Flow.mk_world
             (Flow.trace w1 ++
              [Settled handle
                 (settled_value (Flow._full_event (Complete.base self)) e
                    (body_now (Flow.down w1) (body e)))])
             (Flow.down w1))
      | (Raise ex, w1) => (Raise ex, w1)
      end)
  ∧ Complete._do beh body_now self (Ev (VEvent e)) (Flow.mk_world tr d) =
    (Ok VNone,
     Flow.mk_world
       (tr ++ map (λ o, Called o (Ev (VEvent e))) (Flow._outlets (Complete.base self)) ++
        [Settled handle
           (settled_value (Flow._full_event (Complete.base self)) e
              (body_now d' (body e)))])
       d').
Proof.
  intros Hh Hchain. split.
  - intros w. rewrite Complete_do_event, Hh. reflexivity.
  - rewrite Complete_do_event, Hh,
      (do_downstream_event_chain beh _ _ _ _ _ _ Hchain). simpl.
    rewrite <- app_assoc. reflexivity.
Qed.

(** C5, as stated, fails.  Complete above a Batch step that emits
    batches of two: the slot of the event is settled when the [_do] of Batch
    has returned, and by then the event sits in the buffer of Batch and the
    step below Batch has not been called.  It is handed on only with the
    sentinel that follows. *)
Theorem Complete_settles_before_batch_emits :
  Complete._do batch_below unchanged complete_over_one
    (Ev (VEvent awaited_event)) (Flow.mk_world [] (batch_of_two, Flow.mk_world [] tt)) =
  (Ok VNone,
   Flow.mk_world
     [Called 0 (Ev (VEvent awaited_event)); Settled 7 (VInt 43)]
     (_Batching.mk (_Batching.base batch_of_two) (Some 2) 1 [VInt 43] None None None,
      Flow.mk_world [] tt))
  ∧ Flow.trace
      (snd (Flow.down
              (snd (feed (Complete._do batch_below unchanged complete_over_one)
                      [Ev (VEvent awaited_event); Termination] VNone
                      (Flow.mk_world [] (batch_of_two, Flow.mk_world [] tt)))))) =
    [Called 1 (Ev (Batch.batch_event [VInt 43] None)); Called 1 Termination].
Proof. split; reflexivity. Qed.

(** C9.  An event without a result slot makes Complete raise, and only
    once the event has gone downstream: the world Complete leaves is the
    one [_do_downstream] left, and when the downstream returned the
    exception is the AttributeError of the access through None. *)
Theorem Complete_raises_without_awaitable {W : Type}
    (beh : nat → msg → W → result val * W) (body_now : W → val → val)
    (self : Complete.t) (e : Event) (w : Flow.world W) :
  _awaitable_result e = None →
  is_ok (fst (Complete._do beh body_now self (Ev (VEvent e)) w)) = false
  ∧ snd (Complete._do beh body_now self (Ev (VEvent e)) w) =
    snd (Flow._do_downstream beh (Complete.base self) (Ev (VEvent e)) w)
  ∧ (is_ok (fst (Flow._do_downstream beh (Complete.base self) (Ev (VEvent e)) w)) = true →
     fst (Complete._do beh body_now self (Ev (VEvent e)) w) =
     Raise (AttributeError "'NoneType' object has no attribute '_set_result'")).
Proof.
  intros Hnone. rewrite Complete_do_event, Hnone.
  destruct (Flow._do_downstream beh (Complete.base self) (Ev (VEvent e)) w)
    as [[r|ex] w1]; simpl; repeat split; auto; discriminate.
Qed.

(** ** Choice *)

Lemma choose_first_match (choices : list (nat * (val → val))) (element : val) :
  Choice.choose (pure_choices choices) element = Ok (first_match choices element).
Proof.
  unfold first_match.
  induction choices as [|[o p] choices IH]; [reflexivity|].
  cbn [pure_choices map Choice.choose fst snd list_find]. unfold pure1 at 1.
  destruct (truthy (p element)) eqn:Hp.
  - rewrite decide_True by done. reflexivity.
  - rewrite decide_False by done.
    fold (pure_choices choices). rewrite IH.
    destruct (list_find _ choices) as [[i [o' p']]|]; reflexivity.
Qed.

Lemma first_match_spec (choices : list (nat * (val → val))) (element : val) (o : nat) :
  first_match choices element = Some o ↔
  ∃ (i : nat) (p : val → val),
    choices !! i = Some (o, p) ∧ truthy (p element) = true ∧
    ∀ (j : nat) (o' : nat) (p' : val → val),
      (j < i)%nat → choices !! j = Some (o', p') → truthy (p' element) = false.
Proof.
  unfold first_match. split.
  - destruct (list_find _ choices) as [[i [o' p]]|] eqn:Hfind; [|discriminate].
    simpl. intros [= ->]. apply list_find_Some in Hfind as (Hi & Hp & Hbefore).
    exists i, p. split; [exact Hi|]. split; [exact Hp|].
    intros j o' p' Hj Hlook. specialize (Hbefore j (o', p') Hlook Hj). simpl in Hbefore.
    destruct (truthy (p' element)); congruence.
  - intros (i & p & Hi & Hp & Hbefore).
    assert (Hfind : list_find (λ oc : nat * (val → val), truthy (snd oc element) = true)
                      choices = Some (i, (o, p))).
    { apply list_find_Some. split; [exact Hi|]. split; [exact Hp|].
      intros j [o' p'] Hlook Hj. simpl. rewrite (Hbefore j o' p' Hj Hlook). discriminate. }
    rewrite Hfind. reflexivity.
Qed.

Lemma first_match_none (choices : list (nat * (val → val))) (element : val) :
  first_match choices element = None ↔
  ∀ (j : nat) (o : nat) (p : val → val),
    choices !! j = Some (o, p) → truthy (p element) = false.
Proof.
  unfold first_match. rewrite fmap_None, list_find_None, Forall_lookup. split.
  - intros H j o p Hlook. specialize (H j (o, p) Hlook). simpl in H.
    destruct (truthy (p element)); congruence.
  - intros H j [o p] Hlook. simpl. rewrite (H j o p Hlook). discriminate.
Qed.

(** C6.  A real event entering Choice goes to the outlet paired with the
    first predicate that is truthy on the projected element, else to the
    default outlet when there is one, else nowhere: it is handed to at most
    one outlet.  The sentinel goes to every outlet, the default included. *)
Theorem Choice_routes_to_first_match {W : Type}
    (beh : nat → msg → W → result val * W)
    (choices : list (nat * (val → val))) (default : option nat) (kw : Flow.kwargs)
    (f : val → val → val) (e : Event) (w : Flow.world W) (rs : list val) (d' : W) :
  let self := Choice.__init__ (pure_choices choices) default kw in
  let element := if Flow.kw_full_event kw then VEvent e else body e in
  let target :=
    match first_match choices element with
    | Some outlet => Some outlet
    | None => default
    end in
  Flow.kw_termination_result_fn kw = pure2 f →
  outlet_chain beh Termination (map fst choices ++ option_outlet default)
    (Flow.down w) rs d' →
  Choice._do beh self (Ev (VEvent e)) w =
    match target with
    | Some outlet =>
        let '(r, d1) := beh outlet (Ev (VEvent e)) (Flow.down w) in
        (match r with Ok _ => Ok VNone | Raise ex => Raise ex end,
         Flow.mk_world (Flow.trace w ++ [Called outlet (Ev (VEvent e))]) d1)
    | None => (Ok VNone, w)
    end
  ∧ (∀ outlet : nat,
        first_match choices element = Some outlet ↔
        ∃ (i : nat) (p : val → val),
          choices !! i = Some (outlet, p) ∧ truthy (p element) = true ∧
          ∀ (j : nat) (o' : nat) (p' : val → val),
            (j < i)%nat → choices !! j = Some (o', p') → truthy (p' element) = false)
  ∧ Flow._outlets (Choice.base self) = map fst choices ++ option_outlet default
  ∧ snd (Choice._do beh self Termination w) =
    Flow.mk_world
      (Flow.trace w ++
       map (λ o, Called o Termination) (map fst choices ++ option_outlet default))
      d'.
Proof.
  intros self element target Hfn Hchain.
  assert (Houts : Flow._outlets (Choice.base self) =
                  map fst choices ++ option_outlet default).
  { subst self. unfold Choice.__init__, pure_choices; simpl.
    rewrite map_map; simpl. destruct default; simpl; [reflexivity|].
    rewrite app_nil_r. reflexivity. }
  split; [|split; [|split]].
  - unfold Choice._do. rewrite Houts.
    destruct (map fst choices ++ option_outlet default) as [|o0 outs] eqn:Hshape.
    + apply app_eq_nil in Hshape as [Hc Hd].
      destruct choices; [|discriminate]. destruct default; [discriminate|].
      subst target. unfold Flow._do_downstream. rewrite Houts. reflexivity.
    + assert (Hel : Flow._get_safe_event_or_body (Choice.base self) (VEvent e) = Ok element).
      { subst self element. unfold Flow._get_safe_event_or_body; simpl.
        destruct (Flow.kw_full_event kw); reflexivity. }
      rewrite Hel. unfold mbind at 1, M_bind at 1, lift at 1.
      replace (Choice._choice_array self) with (pure_choices choices) by reflexivity.
      rewrite choose_first_match. unfold mbind at 1, M_bind at 1, lift at 1.
      subst target. replace (Choice._default self) with default by reflexivity.
      destruct (first_match choices element) as [o|]; [|destruct default as [dflt|]].
      * unfold mbind, M_bind, Flow.call_do.
        destruct (beh o (Ev (VEvent e)) (Flow.down w)) as [[r|ex] d1]; reflexivity.
      * unfold mbind, M_bind, Flow.call_do.
        destruct (beh dflt (Ev (VEvent e)) (Flow.down w)) as [[r|ex] d1]; reflexivity.
      * reflexivity.
  - intros outlet. apply first_match_spec.
  - exact Houts.
  - assert (Hdo : Choice._do beh self Termination w =
                  Flow._do_downstream beh (Choice.base self) Termination w).
    { unfold Choice._do. destruct (Flow._outlets (Choice.base self)); reflexivity. }
    rewrite Hdo. unfold Flow._do_downstream. rewrite Houts.
    replace (Flow._termination_result_fn (Choice.base self)) with (pure2 f)
      by (symmetry; exact Hfn).
    destruct w as [tr d]; simpl in *.
    destruct Hchain as [d|o outs d r d1 rs d2 Hbeh Hrest].
    + simpl. rewrite app_nil_r. reflexivity.
    + unfold mbind at 1, M_bind at 1. rewrite (call_do_ok _ _ _ _ _ _ _ Hbeh).
      rewrite (fold_termination_chain beh f _ _ _ _ Hrest). simpl.
      rewrite <- app_assoc. reflexivity.
Qed.

(** ** MapClass *)

Ltac unfold_M :=
  unfold mbind, M_bind, mret, M_ret, on_self, on_world, lift, get, put, modify, raise.

Section MapClassFacts.
Context {U W : Type}.
Variable do : MapClass.do_method U.
Variable beh : nat → msg → W → result val * W.

(** What one event does to a MapClass step whose flag is down. *)
Lemma MapClass_do_event (b : Flow.t) (u : U) (w : Flow.world W) (e : Event) :
  MapClass._do do beh (Ev (VEvent e)) (MapClass.mk b false u, w) =
  let element := if Flow._full_event b then VEvent e else body e in
  match do element u with
  | (Raise ex, called, u1) => (Raise ex, (MapClass.mk b called u1, w))
  | (Ok fn_result, true, u1) => (Ok VNone, (MapClass.mk b false u1, w))
  | (Ok fn_result, false, u1) =>
      match Flow._user_fn_output_to_event b (VEvent e) fn_result with
      | Raise ex => (Raise ex, (MapClass.mk b false u1, w))
      | Ok mapped_event =>
          let '(r, w1) := Flow._do_downstream beh b (Ev mapped_event) w in
          (match r with Ok _ => Ok VNone | Raise ex => Raise ex end,
           (MapClass.mk b false u1, w1))
      end
  end.
Proof.
  unfold MapClass._do, MapClass._call, Flow._get_safe_event_or_body, copy, attr_body.
  unfold_M. simpl.
  destruct (Flow._full_event b); simpl;
    destruct (do _ u) as [[[fn_result|ex] [|]] u1]; simpl; try reflexivity;
    destruct (Flow._user_fn_output_to_event b (VEvent e) fn_result); simpl;
    try reflexivity;
    destruct (Flow._do_downstream beh b _ w) as [[r|ex] w1]; reflexivity.
Qed.

Lemma MapClass_do_termination (self : MapClass.t U) (w : Flow.world W) :
  MapClass._do do beh Termination (self, w) =
  let '(r, w1) := Flow._do_downstream beh (MapClass.base self) Termination w in
  (r, (self, w1)).
Proof. unfold MapClass._do. unfold_M. simpl. reflexivity. Qed.

(** Whatever the event, a [_do] that returns leaves the flag down. *)
Lemma MapClass_do_keeps_flag (m : msg) (b : Flow.t) (u : U) (w : Flow.world W)
    (r : val) (self' : MapClass.t U) (w' : Flow.world W) :
  MapClass._do do beh m (MapClass.mk b false u, w) = (Ok r, (self', w')) →
  MapClass._filter self' = false ∧ MapClass.base self' = b.
Proof.
  destruct m as [|ev].
  - rewrite MapClass_do_termination. simpl.
    destruct (Flow._do_downstream beh b Termination w) as [r1 w1].
    intros [= _ <- _]. split; reflexivity.
  - unfold MapClass._do, MapClass._call. unfold_M. simpl.
    destruct (Flow._get_safe_event_or_body b ev) as [element|ex]; [|discriminate].
    destruct (do element u) as [[[fn_result|ex] [|]] u1]; simpl; try discriminate.
    + intros [= _ <- _]. split; reflexivity.
    + destruct (Flow._user_fn_output_to_event b ev fn_result); [|discriminate].
      destruct (Flow._do_downstream beh b _ w) as [[r1|ex] w1]; [|discriminate].
      intros [= _ <- _]. split; reflexivity.
Qed.

Lemma MapClass_feed_keeps_flag (ms : list msg) :
  ∀ (b : Flow.t) (u : U) (w : Flow.world W) (last r : val)
    (self' : MapClass.t U) (w' : Flow.world W),
    feed (MapClass._do do beh) ms last (MapClass.mk b false u, w) = (Ok r, (self', w')) →
    MapClass._filter self' = false ∧ MapClass.base self' = b.
Proof.
  induction ms as [|m ms IH]; intros b u w last r self' w'.
  - simpl. intros [= _ <- _]. split; reflexivity.
  - cbn [feed]. unfold mbind at 1, M_bind at 1.
    destruct (MapClass._do do beh m (MapClass.mk b false u, w))
      as [[r1|ex] [self1 w1]] eqn:Hstep; [|discriminate].
    apply MapClass_do_keeps_flag in Hstep as [Hflag Hbase].
    destruct self1 as [b1 flag1 u1]; simpl in *; subst.
    apply IH.
Qed.

End MapClassFacts.


(** ** Batch *)

Section BatchFacts.
Context {W : Type}.
Variable beh : nat → msg → W → result val * W.
Hypothesis beh_total : never_raises beh.

Lemma total_chain (m : msg) (outs : list nat) :
  ∀ d : W, ∃ (rs : list val) (d' : W), outlet_chain beh m outs d rs d'.
Proof.
  induction outs as [|o outs IH]; intros d.
  - exists [], d. constructor.
  - pose proof (beh_total o m d) as Hok.
    destruct (beh o m d) as [[r|ex] d1] eqn:Hbeh; [|discriminate].
    destruct (IH d1) as (rs & d' & Hchain).
    exists (r :: rs), d'. econstructor; eassumption.
Qed.

Lemma do_downstream_event_total (self : Flow.t) (ev : val) (tr : list obs) (d : W) :
  ∃ d' : W,
    Flow._do_downstream beh self (Ev ev) (Flow.mk_world tr d) =
    (Ok VNone, Flow.mk_world (tr ++ map (λ o, Called o (Ev ev)) (Flow._outlets self)) d').
Proof.
  destruct (total_chain (Ev ev) (Flow._outlets self) d) as (rs & d' & Hchain).
  exists d'. eapply do_downstream_event_chain; eassumption.
Qed.

Lemma do_downstream_termination_total (self : Flow.t) (f : val → val → val)
    (tr : list obs) (d : W) :
  Flow._termination_result_fn self = pure2 f →
  ∃ (r : val) (d' : W),
    Flow._do_downstream beh self Termination (Flow.mk_world tr d) =
    (Ok r, Flow.mk_world (tr ++ map (λ o, Called o Termination) (Flow._outlets self)) d').
Proof.
  intros Hfn.
  destruct (total_chain Termination (Flow._outlets self) d) as (rs & d' & Hchain).
  unfold Flow._do_downstream. rewrite Hfn.
  destruct Hchain as [d|o outs d r d1 rs d2 Hbeh Hrest].
  - exists VNone, d. simpl. rewrite app_nil_r. reflexivity.
  - exists (fold_left f rs r), d2.
    unfold mbind at 1, M_bind at 1. rewrite (call_do_ok _ _ _ _ _ _ _ Hbeh).
    rewrite (fold_termination_chain beh f _ _ _ _ Hrest). simpl.
    rewrite <- app_assoc. reflexivity.
Qed.

Lemma Batch_do_event (b : Flow.t) (m : Z) (buf : list val) (bt : option Z)
    (tr : list obs) (d : W) (e : Event) :
  let buf1 := buf ++ [element_of (Flow._full_event b) e] in
  let bt1 := match buf with [] => time e | _ :: _ => bt end in
  ∃ d1 : W,
    Batch._do beh (Ev (VEvent e))
      (_Batching.mk b (Some m) (Z.of_nat (length buf)) buf bt None None,
       Flow.mk_world tr d) =
    if Z.of_nat (length buf1) =? m
    then (Ok VNone,
          (_Batching.mk b (Some m) 0 [] None None None,
           Flow.mk_world (tr ++ emissions (Flow._outlets b) [(buf1, bt1)]) d1))
    else (Ok VNone,
          (_Batching.mk b (Some m) (Z.of_nat (length buf1)) buf1 bt1 None None,
           Flow.mk_world tr d)).
Proof.
  intros buf1 bt1.
  destruct (do_downstream_event_total b (Batch.batch_event buf1 bt1) tr d) as [d1 Hdown].
  exists d1.
  assert (Hlen : Z.of_nat (length buf1) = Z.of_nat (length buf) + 1).
  { subst buf1. rewrite length_app. simpl. lia. }
  unfold Batch._do, _Batching._do, _Batching._emit_batch, Batch._emit.
  unfold Flow._get_safe_event_or_body, copy, attr_body, attr_time. unfold_M.
  rewrite Hlen. clear Hlen. subst buf1 bt1. unfold element_of in *.
  revert Hdown. unfold _Batching.count_reached.
  cbn -[Z.eqb Z.add Z.of_nat length].
  destruct buf as [|x buf]; destruct (Flow._full_event b);
    cbn -[Z.eqb Z.add Z.of_nat length]; intros Hdown;
    match goal with |- context [?a + 1 =? m] => destruct (a + 1 =? m) end;
    cbn -[Z.eqb Z.add Z.of_nat length];
    rewrite ?Hdown, ?app_nil_r; reflexivity.
Qed.

Lemma emissions_app (outs : list nat) (bs1 bs2 : list (list val * option Z)) :
  emissions outs (bs1 ++ bs2) = emissions outs bs1 ++ emissions outs bs2.
Proof. unfold emissions. rewrite map_app, concat_app. reflexivity. Qed.

(** The events of a run fill the batch; each time it holds [m] entries it
    is emitted and emptied. *)
Lemma Batch_feed_events (b : Flow.t) (m : Z) (es : list Event) :
  0 < m →
  ∀ (buf : list val) (bt : option Z) (tr : list obs) (d : W) (last : val),
    Z.of_nat (length buf) < m →
    ∃ (bs : list (list val * option Z)) (rest : list val) (bt' : option Z) (d' : W),
      feed (Batch._do beh) (map (λ e, Ev (VEvent e)) es) last
        (_Batching.mk b (Some m) (Z.of_nat (length buf)) buf bt None None,
         Flow.mk_world tr d) =
      (Ok (match es with [] => last | _ :: _ => VNone end),
       (_Batching.mk b (Some m) (Z.of_nat (length rest)) rest bt' None None,
        Flow.mk_world (tr ++ emissions (Flow._outlets b) bs) d'))
      ∧ Forall (λ batch, Z.of_nat (length (fst batch)) = m) bs
      ∧ Z.of_nat (length rest) < m
      ∧ buf ++ map (element_of (Flow._full_event b)) es = concat (map fst bs) ++ rest.
Proof.
  intros Hm. induction es as [|e es IH]; intros buf bt tr d last Hbuf.
  - exists [], buf, bt, d. simpl. rewrite !app_nil_r. auto.
  - cbn [map feed]. unfold mbind at 1, M_bind at 1.
    destruct (Batch_do_event b m buf bt tr d e) as [d1 Hstep]. rewrite Hstep. clear Hstep.
    assert (Hlen : Z.of_nat (length (buf ++ [element_of (Flow._full_event b) e])) =
                   Z.of_nat (length buf) + 1).
    { rewrite length_app. simpl. lia. }
    destruct (Z.of_nat (length (buf ++ [element_of (Flow._full_event b) e])) =? m) eqn:Hfull.
    + apply Z.eqb_eq in Hfull.
      destruct (IH [] None
                  (tr ++ emissions (Flow._outlets b)
                     [(buf ++ [element_of (Flow._full_event b) e],
                       match buf with [] => time e | _ :: _ => bt end)])
                  d1 VNone) as (bs & rest & bt' & d' & Hfeed & Hall & Hrest & Hcat).
      { simpl. lia. }
      exists ((buf ++ [element_of (Flow._full_event b) e],
               match buf with [] => time e | _ :: _ => bt end) :: bs), rest, bt', d'.
      split; [|split; [|split]].
      * change (Z.of_nat (length (@nil val))) with 0 in Hfeed. rewrite Hfeed.
        rewrite <- app_assoc, <- emissions_app. simpl. destruct es; reflexivity.
      * constructor; [exact Hfull|exact Hall].
      * exact Hrest.
      * simpl in *. rewrite <- !app_assoc, <- Hcat. reflexivity.
    + apply Z.eqb_neq in Hfull.
      destruct (IH (buf ++ [element_of (Flow._full_event b) e])
                  (match buf with [] => time e | _ :: _ => bt end) tr d VNone)
        as (bs & rest & bt' & d' & Hfeed & Hall & Hrest & Hcat).
      { lia. }
      exists bs, rest, bt', d'. split; [|split; [|split]].
      * rewrite Hfeed. destruct es; reflexivity.
      * exact Hall.
      * exact Hrest.
      * rewrite <- Hcat, <- app_assoc. reflexivity.
Qed.

End BatchFacts.

Lemma Batch_do_termination {W : Type} (beh : nat → msg → W → result val * W)
    (b : Flow.t) (f : val → val → val) (m : Z) (rest : list val) (bt : option Z)
    (tr : list obs) (d : W) :
  never_raises beh →
  Flow._termination_result_fn b = pure2 f →
  ∃ (r : val) (bt' : option Z) (d' : W),
    Batch._do beh Termination
      (_Batching.mk b (Some m) (Z.of_nat (length rest)) rest bt None None,
       Flow.mk_world tr d) =
    (Ok r,
     (_Batching.mk b (Some m) 0 [] bt' None None,
      Flow.mk_world
        (tr ++
         emissions (Flow._outlets b)
           (match rest with [] => [] | _ :: _ => [(rest, bt)] end) ++
         map (λ o, Called o Termination) (Flow._outlets b))
        d')).
Proof.
  intros Htotal Hfn.
  unfold Batch._do, _Batching._do, _Batching._emit_batch, Batch._emit, Batch._terminate.
  unfold_M. cbn -[Z.of_nat length].
  destruct rest as [|x rest].
  - destruct (do_downstream_termination_total beh Htotal b f tr d Hfn) as (r & d' & Hdown).
    exists r, bt, d'. cbn. rewrite Hdown. reflexivity.
  - destruct (do_downstream_event_total beh Htotal b
                (Batch.batch_event (x :: rest) bt) tr d) as [d1 Hemit].
    destruct (do_downstream_termination_total beh Htotal b f
                (tr ++ map (λ o, Called o (Ev (Batch.batch_event (x :: rest) bt)))
                         (Flow._outlets b)) d1 Hfn) as (r & d' & Hdown).
    exists r, None, d'. cbn -[Z.of_nat length]. rewrite Hemit.
    cbn -[Z.of_nat length]. rewrite Hdown.
    unfold emissions. cbn [map concat fst snd]. rewrite app_nil_r, <- app_assoc.
    reflexivity.
Qed.

(** C4.  A Batch step with [max_events = m > 0] and no timeout emits
    batches of exactly [m] entries while events arrive, each as soon as it is
    full, so that fewer than [m] entries are ever held back; the emitted
    batches followed by the entries held back are the projections of the
    events in input order; on the sentinel the entries held back, if any,
    are emitted as a last batch before the sentinel is forwarded.  The
    events 1 to 10 with [m = 4] give the batches [1,2,3,4], [5,6,7,8] and
    [9,10], then the sentinel. *)
Theorem Batch_emits_every_event_once :
  (∀ (W : Type) (beh : nat → msg → W → result val * W) (kw : Flow.kwargs)
     (outlets : list nat) (m : Z) (f : val → val → val) (es : list Event)
     (tr : list obs) (d : W),
      0 < m →
      never_raises beh →
      Flow.kw_termination_result_fn kw = pure2 f →
      let b := Flow.with_outlets (Flow.__init__ "Batch" kw) outlets in
      Batch.__init__ (Some m) None kw =
        Ok (_Batching.mk (Flow.__init__ "Batch" kw) (Some m) 0 [] None None None)
      ∧ ∃ (bs : list (list val * option Z)) (rest : list val) (bt bt' : option Z)
          (r : val) (d1 d2 : W),
          feed (Batch._do beh) (map (λ e, Ev (VEvent e)) es) VNone
            (_Batching.mk b (Some m) 0 [] None None None, Flow.mk_world tr d) =
          (Ok VNone,
           (_Batching.mk b (Some m) (Z.of_nat (length rest)) rest bt None None,
            Flow.mk_world (tr ++ emissions outlets bs) d1))
          ∧ Forall (λ batch, Z.of_nat (length (fst batch)) = m) bs
          ∧ Z.of_nat (length rest) < m
          ∧ concat (map fst bs) ++ rest = map (element_of (Flow.kw_full_event kw)) es
          ∧ Batch._do beh Termination
              (_Batching.mk b (Some m) (Z.of_nat (length rest)) rest bt None None,
               Flow.mk_world (tr ++ emissions outlets bs) d1) =
            (Ok r,
             (_Batching.mk b (Some m) 0 [] bt' None None,
              Flow.mk_world
                ((tr ++ emissions outlets bs) ++
                 emissions outlets (match rest with [] => [] | _ :: _ => [(rest, bt)] end) ++
                 map (λ o, Called o Termination) outlets)
                d2)))
  ∧ snd (feed (Batch._do sink)
           (map (λ n, Ev (VEvent (int_event n))) [1; 2; 3; 4; 5; 6; 7; 8; 9; 10] ++
            [Termination])
           VNone
           (_Batching.mk (Flow.with_outlets (Flow.__init__ "Batch" Flow.no_kwargs) [0%nat])
              (Some 4) 0 [] None None None,
            Flow.mk_world [] tt)) =
    (_Batching.mk (Flow.with_outlets (Flow.__init__ "Batch" Flow.no_kwargs) [0%nat])
       (Some 4) 0 [] None None None,
     Flow.mk_world
       [Called 0 (Ev (Batch.batch_event [VInt 1; VInt 2; VInt 3; VInt 4] None));
        Called 0 (Ev (Batch.batch_event [VInt 5; VInt 6; VInt 7; VInt 8] None));
        Called 0 (Ev (Batch.batch_event [VInt 9; VInt 10] None));
        Called 0 Termination]
       tt).
Proof.
  split; [|vm_compute; reflexivity].
  intros W beh kw outlets m f es tr d Hm Htotal Hfn b.
  split; [reflexivity|].
  destruct (Batch_feed_events beh Htotal b m es Hm [] None tr d VNone)
    as (bs & rest & bt & d1 & Hfeed & Hall & Hrest & Hcat); [simpl; lia|].
  change (Z.of_nat (length (@nil val))) with 0 in Hfeed.
  change (Flow._outlets b) with outlets in Hfeed.
  destruct (Batch_do_termination beh b f m rest bt
              (tr ++ emissions outlets bs) d1 Htotal Hfn)
    as (r & bt' & d2 & Hterm).
  change (Flow._outlets b) with outlets in Hterm.
  exists bs, rest, bt, bt', r, d1, d2.
  split; [|split; [|split; [|split]]].
  - rewrite Hfeed. destruct es; reflexivity.
  - exact Hall.
  - exact Hrest.
  - symmetry. exact Hcat.
  - exact Hterm.
Qed.

(** ** build_flow *)

Lemma build_flow_cons (first : item) (rest : list item) :
  build_flow (first :: rest) = (_ ← build_loop first rest; mret first).
Proof.
  unfold build_flow. cbn [build_flow_of]. f_equal.
  revert first. induction rest as [|next rest IH]; intros first; [reflexivity|].
  destruct next as [s|sub].
  - change (build_loop first (Step s :: rest))
      with (_ ← to first (Step s); build_loop (Step s) rest).
    rewrite <- IH. reflexivity.
  - change (build_loop first (Nested sub :: rest))
      with (_ ← lookup_to first; head ← build_flow sub; _ ← to first head;
            build_loop first rest).
    rewrite <- IH. reflexivity.
Qed.

Example build_flow_docstring_example :
  ∃ h, build_flow docstring_flow no_edges = (Ok (Step 0), h)
       ∧ outlets_of h 0 = [Step 1; Step 3]
       ∧ outlets_of h 1 = [Step 2]
       ∧ outlets_of h 2 = []
       ∧ outlets_of h 3 = [].
Proof. eexists. split; [vm_compute; reflexivity|]. repeat split. Qed.

Lemma bind_ok {S A B} (m : M S A) (k : A → M S B) (s s' : S) (b : B) :
  (x ← m; k x) s = (Ok b, s') ↔ ∃ (a : A) (s1 : S), m s = (Ok a, s1) ∧ k a s1 = (Ok b, s').
Proof.
  unfold mbind, M_bind. destruct (m s) as [[a|ex] s1]; split.
  - intros H. exists a, s1. auto.
  - intros (a' & s1' & [= -> ->] & H). exact H.
  - discriminate.
  - intros (a' & s1' & [=] & _).
Qed.

Lemma to_attach (cur outlet : item) (h h' : heap) (x : item) :
  to cur outlet h = (Ok x, h') ↔ x = outlet ∧ attach cur outlet h = Some h'.
Proof.
  destruct cur as [s|l]; unfold to, attach, lookup_to; unfold_M; simpl.
  - destruct (is_reduce h s); simpl; split.
    + discriminate.
    + intros [_ [=]].
    + intros [= <- <-]. auto.
    + intros [-> [= <-]]. reflexivity.
  - split; [discriminate|intros [_ [=]]].
Qed.

Lemma attach_lookup_to (cur outlet : item) (h h' : heap) :
  attach cur outlet h = Some h' → ∀ h0, lookup_to cur h0 = (Ok tt, h0).
Proof. destruct cur; [reflexivity|discriminate]. Qed.

Lemma build_loop_walks (rest : list item) :
  Forall builds_as_walks rest →
  ∀ (cur : item) (h h' : heap),
    build_loop cur rest h = (Ok tt, h') ↔ walks cur rest h h'.
Proof.
  induction 1 as [|next rest Hnext _ IH]; intros cur h h'.
  - simpl. split.
    + intros [= <-]. constructor.
    + inversion 1; reflexivity.
  - destruct next as [s|sub].
    + change (build_loop cur (Step s :: rest))
        with (_ ← to cur (Step s); build_loop (Step s) rest).
      rewrite bind_ok. split.
      * intros (x & h1 & Hto & Hloop). apply to_attach in Hto as [_ Hatt].
        apply IH in Hloop. econstructor; eassumption.
      * inversion 1 as [| |cur0 s0 rest0 h0 h1 h2 Hatt Hwalk]; subst.
        exists (Step s), h1. split; [apply to_attach; auto|apply IH; exact Hwalk].
    + change (build_loop cur (Nested sub :: rest))
        with (_ ← lookup_to cur; head ← build_flow sub; _ ← to cur head;
              build_loop cur rest).
      simpl in Hnext. split.
      * intros Hrun.
        apply bind_ok in Hrun as ([] & h0 & Hlook & Hrun).
        apply bind_ok in Hrun as (head & h1 & Hbuild & Hrun).
        apply bind_ok in Hrun as (x & h2 & Hto & Hloop).
        assert (h0 = h) as -> by (destruct cur; cbv in Hlook; congruence).
        apply Hnext in Hbuild as (first & sub' & -> & -> & Hwalk).
        apply to_attach in Hto as [_ Hatt]. apply IH in Hloop.
        econstructor; eassumption.
      * inversion 1 as [|cur0 head sub' rest0 h0 h1 h2 h3 Hsub Hatt Hwalk|]; subst.
        apply bind_ok. exists tt, h. split; [eapply attach_lookup_to; eassumption|].
        apply bind_ok. exists head, h1. split.
        { apply Hnext. exists head, sub'. auto. }
        apply bind_ok. exists head, h2. split; [apply to_attach; auto|].
        apply IH. exact Hwalk.
Qed.

Lemma build_flow_walks (steps : list item) : builds_as_walks (Nested steps).
Proof.
  apply (item_nested_ind builds_as_walks); [exact (λ _, I)|].
  clear steps. intros steps Hall h h' r. simpl.
  destruct steps as [|first rest].
  - split; [discriminate|]. intros (first & rest & [=] & _).
  - rewrite build_flow_cons, bind_ok. apply Forall_cons in Hall as [_ Hrest]. split.
    + intros ([] & h1 & Hloop & [= <- <-]).
      exists first, rest. split; [reflexivity|]. split; [reflexivity|].
      apply build_loop_walks; assumption.
    + intros (first' & rest' & [= <- <-] & -> & Hwalk).
      exists tt, h'. split; [apply build_loop_walks; assumption|reflexivity].
Qed.

Lemma can_build_cons (reduce : nat → bool) (s : nat) (rest : list item) :
  can_build reduce (Nested (Step s :: rest)) = can_walk reduce s rest.
Proof.
  cbn [can_build]. revert s.
  induction rest as [|next rest IH]; intros s; [reflexivity|].
  destruct next as [s'|sub]; cbn [can_walk]; rewrite <- IH; reflexivity.
Qed.

Lemma to_step_ok (s : nat) (outlet : item) (h : heap) :
  is_reduce h s = false →
  to (Step s) outlet h = (Ok outlet, append_outlet s outlet h).
Proof. intros Hs. unfold to, lookup_to. unfold_M. simpl. rewrite Hs. reflexivity. Qed.

Lemma build_loop_through (reduce : nat → bool) (rest : list item) :
  Forall (builds_through reduce) rest →
  ∀ (cur : nat) (h : heap),
    is_reduce h = reduce →
    can_walk reduce cur rest →
    ∃ h' : heap, build_loop (Step cur) rest h = (Ok tt, h') ∧ is_reduce h' = reduce.
Proof.
  induction 1 as [|next rest Hnext _ IH]; intros cur h Hh Hcan.
  - exists h. split; [reflexivity|exact Hh].
  - destruct next as [s|sub].
    + destruct Hcan as [Hcur Hcan].
      change (build_loop (Step cur) (Step s :: rest))
        with (_ ← to (Step cur) (Step s); build_loop (Step s) rest).
      destruct (IH s (append_outlet cur (Step s) h) Hh Hcan) as (h' & Hloop & Hh').
      exists h'. split; [|exact Hh'].
      apply bind_ok. exists (Step s), (append_outlet cur (Step s) h).
      split; [apply to_step_ok; rewrite Hh; exact Hcur|exact Hloop].
    + destruct Hcan as (Hsub & Hcur & Hcan).
      change (build_loop (Step cur) (Nested sub :: rest))
        with (_ ← lookup_to (Step cur); head ← build_flow sub; _ ← to (Step cur) head;
              build_loop (Step cur) rest).
      destruct (Hnext Hsub h Hh) as (first & h1 & _ & Hbuild & Hh1).
      destruct (IH cur (append_outlet cur first h1) Hh1 Hcan) as (h' & Hloop & Hh').
      exists h'. split; [|exact Hh'].
      apply bind_ok. exists tt, h. split; [reflexivity|].
      apply bind_ok. exists first, h1. split; [exact Hbuild|].
      apply bind_ok. exists first, (append_outlet cur first h1).
      split; [apply to_step_ok; rewrite Hh1; exact Hcur|exact Hloop].
Qed.

Lemma build_flow_through (reduce : nat → bool) (steps : list item) :
  builds_through reduce (Nested steps).
Proof.
  apply (item_nested_ind (builds_through reduce)); [exact (λ _, I)|].
  clear steps. intros steps Hall Hcan h Hh.
  destruct steps as [|[s|sub] rest]; try contradiction.
  rewrite can_build_cons in Hcan. apply Forall_cons in Hall as [_ Hrest].
  destruct (build_loop_through reduce rest Hrest s h Hh Hcan) as (h' & Hloop & Hh').
  exists (Step s), h'. split; [reflexivity|]. split; [|exact Hh'].
  rewrite build_flow_cons. apply bind_ok. exists tt, h'. split; [exact Hloop|reflexivity].
Qed.

Lemma outlets_of_append_eq (s : nat) (o : item) (h : heap) :
  outlets_of (append_outlet s o h) s = outlets_of h s ++ [o].
Proof.
  unfold outlets_of at 1, append_outlet. cbn [outlets].
  rewrite lookup_insert_eq. reflexivity.
Qed.

Lemma outlets_of_append_ne (s s' : nat) (o : item) (h : heap) :
  s ≠ s' → outlets_of (append_outlet s o h) s' = outlets_of h s'.
Proof.
  intros Hne. unfold outlets_of, append_outlet. cbn [outlets].
  rewrite lookup_insert_ne by exact Hne. reflexivity.
Qed.

(** C7.  On a non-empty list [build_flow] returns the head of the list,
    having walked the remaining elements with [cur_step] starting at the
    head: a nested list is built recursively and its head attached to
    [cur_step], which does not advance; a step is attached to [cur_step] and
    becomes the new [cur_step].  It does return whenever every list starts
    with a step and no Reduce step is given an outlet.  [[a, [b1, b2], c]] gives the edges a→b1,
    b1→b2 and a→c, and returns a. *)
Theorem build_flow_walks_the_list (steps : list item) (h h' : heap) (r : item) :
  (build_flow steps h = (Ok r, h') ↔
   ∃ (first : item) (rest : list item),
     steps = first :: rest ∧ r = first ∧ walks first rest h h')
  ∧ (can_build (is_reduce h) (Nested steps) →
     ∃ (first : item) (h1 : heap),
       head steps = Some first ∧ build_flow steps h = (Ok first, h1))
  ∧ (∀ a b1 b2 c : nat,
        a ≠ b1 →
        ∃ h1 : heap,
          build_flow [Step a; Nested [Step b1; Step b2]; Step c] no_edges = (Ok (Step a), h1)
          ∧ outlets_of h1 a = [Step b1; Step c]
          ∧ outlets_of h1 b1 = [Step b2]
          ∧ ∀ s : nat, s ≠ a → s ≠ b1 → outlets_of h1 s = []).
Proof.
  split; [apply (build_flow_walks steps)|]. split.
  { intros Hcan.
    destruct (build_flow_through (is_reduce h) steps Hcan h eq_refl)
      as (first & h1 & Hhead & Hbuild & _).
    exists first, h1. split; assumption. }
  intros a b1 b2 c Hne.
  exists (append_outlet a (Step c)
            (append_outlet a (Step b1) (append_outlet b1 (Step b2) no_edges))).
  split; [reflexivity|]. split; [|split].
  - rewrite !outlets_of_append_eq, outlets_of_append_ne by congruence. reflexivity.
  - rewrite !outlets_of_append_ne, outlets_of_append_eq by congruence. reflexivity.
  - intros s Hsa Hsb. rewrite !outlets_of_append_ne by congruence. reflexivity.
Qed.

(** ** The worker-based engines after a failure of the worker *)

Example failed_run_state : failed_run = Some failed_state.
Proof. vm_compute. reflexivity. Qed.

Example failed_run_by_key_state : failed_run_by_key = Some failed_state_by_key.
Proof. vm_compute. reflexivity. Qed.

(** C3, as stated, fails: in both engines, with three events submitted and
    the call of the first failing, the worker ends with that exception
    while the job of the third event is still in the queue, and the next
    [_do] raises the exception of the worker, which is no FlowError. *)
Lemma worker_failure_leaves_queue_and_reraises :
  failed_run = Some failed_state
  ∧ _ConcurrentJobExecution._worker_awaitable (fst failed_state) =
    Some (Done (Raise (UserError 1)))
  ∧ _ConcurrentJobExecution.queue (fst failed_state) ≠ []
  ∧ fst (_ConcurrentJobExecution._do sink init_nothing call_failing_on_one
           (Ev (VEvent (int_event 4))) failed_state) = Finished (Raise (UserError 1))
  ∧ (∀ message : string,
        fst (_ConcurrentJobExecution._do sink init_nothing call_failing_on_one
               (Ev (VEvent (int_event 4))) failed_state) ≠
        Finished (Raise (FlowError message)))
  ∧ failed_run_by_key = Some failed_state_by_key
  ∧ _ConcurrentByKeyJobExecution._worker_awaitable (fst failed_state_by_key) =
    Some (Done (Raise (UserError 1)))
  ∧ _ConcurrentByKeyJobExecution.queue (fst failed_state_by_key) ≠ []
  ∧ fst (_ConcurrentByKeyJobExecution._do sink init_nothing batch_call_failing_on_one
           (Ev (keyed_event "d" 4)) failed_state_by_key) = Finished (Raise (UserError 1))
  ∧ (∀ message : string,
        fst (_ConcurrentByKeyJobExecution._do sink init_nothing batch_call_failing_on_one
               (Ev (keyed_event "d" 4)) failed_state_by_key) ≠
        Finished (Raise (FlowError message))).
Proof.
  repeat split; try (vm_compute; reflexivity); try discriminate;
    intros message; vm_compute; discriminate.
Qed.

Section EngineFacts.
Context {W : Type}.
Variable beh : nat → msg → W → result val * W.
Variable _lazy_init : M (Flow.world W) unit.
Variable _process_event : val → result val.
Variable _process_events : list val → result val.
Variable _handle_completed : val → val → M (Flow.world W) unit.
Variable _cleanup : M (Flow.world W) unit.

Lemma worker_finally_runs_cleanup (outcome : result unit)
    (self : _ConcurrentJobExecution.t) (w : Flow.world W) :
  _ConcurrentJobExecution.worker_finally _cleanup outcome (self, w) =
  (_ConcurrentJobExecution.set_worker
     (Done (match fst (_cleanup w) with Ok _ => outcome | Raise ex => Raise ex end)) self,
   snd (_cleanup w)).
Proof.
  unfold _ConcurrentJobExecution.worker_finally. destruct (_cleanup w); reflexivity.
Qed.

Lemma worker_except_drops_one (ex : exn) (self : _ConcurrentJobExecution.t)
    (w : Flow.world W) :
  let s' := _ConcurrentJobExecution.worker_except _cleanup ex (self, w) in
  _ConcurrentJobExecution.queue (fst s') = tail (_ConcurrentJobExecution.queue self)
  ∧ snd s' = snd (_cleanup w)
  ∧ _ConcurrentJobExecution._worker_awaitable (fst s') =
    Some (Done (match fst (_cleanup w) with Ok _ => Raise ex | Raise ex' => Raise ex' end)).
Proof.
  unfold _ConcurrentJobExecution.worker_except.
  destruct (_ConcurrentJobExecution.queue self) as [|j rest] eqn:Hq;
    rewrite worker_finally_runs_cleanup; simpl; repeat split; auto.
Qed.

Lemma worker_exits_through_cleanup (s s' : _ConcurrentJobExecution.t * Flow.world W)
    (r : result unit) :
  _ConcurrentJobExecution.worker_get _cleanup s = Some s' ∨
  _ConcurrentJobExecution.worker_complete _handle_completed _cleanup s = Some s' →
  _ConcurrentJobExecution._worker_awaitable (fst s') = Some (Done r) →
  ∃ w0 : Flow.world W, snd s' = snd (_cleanup w0).
Proof.
  destruct s as [self w].
  unfold _ConcurrentJobExecution.worker_get, _ConcurrentJobExecution.worker_complete,
    _ConcurrentJobExecution.worker_except.
  intros [Hstep|Hstep] Hdone; cbv zeta in Hstep.
  - destruct (_ConcurrentJobExecution._worker_awaitable self) as [[| | |]|]; try discriminate.
    destruct (_ConcurrentJobExecution.queue self) as [|[|event task] rest]; try discriminate.
    + injection Hstep as <-. exists w. destruct (_cleanup w); reflexivity.
    + injection Hstep as <-. discriminate.
  - destruct (_ConcurrentJobExecution._worker_awaitable self) as [[|event task| |]|];
      try discriminate.
    destruct task as [completed|ex].
    + destruct (_handle_completed event completed w) as [[[]|ex] w1].
      * injection Hstep as <-. discriminate.
      * injection Hstep as <-. exists w1. destruct (_cleanup w1); reflexivity.
    + injection Hstep as <-. exists w. destruct (_cleanup w); reflexivity.
Qed.

End EngineFacts.

Section ByKeyEngineFacts.
Context {W : Type}.
Variable beh : nat → msg → W → result val * W.
Variable _lazy_init : M (Flow.world W) unit.
Variable _process_event : list val → result val.
Variable _handle_completed : val → val → M (Flow.world W) unit.
Variable _cleanup : M (Flow.world W) unit.

Lemma by_key_worker_except_drops_one (ex : exn) (self : _ConcurrentByKeyJobExecution.t)
    (w : Flow.world W) :
  let s' := _ConcurrentByKeyJobExecution.worker_except _cleanup ex (self, w) in
  _ConcurrentByKeyJobExecution.queue (fst s') =
    tail (_ConcurrentByKeyJobExecution.queue self)
  ∧ snd s' = snd (_cleanup w)
  ∧ _ConcurrentByKeyJobExecution._worker_awaitable (fst s') =
    Some (Done (match fst (_cleanup w) with Ok _ => Raise ex | Raise ex' => Raise ex' end)).
Proof.
  unfold _ConcurrentByKeyJobExecution.worker_except,
    _ConcurrentByKeyJobExecution.worker_finally.
  destruct (_ConcurrentByKeyJobExecution.queue self) as [|j rest] eqn:Hq;
    destruct (_cleanup w) as [[[]|ex'] w1]; simpl; repeat split; auto.
Qed.

Lemma by_key_end_iteration_cleanup
    (r : result _ConcurrentByKeyJobExecution.next *
         (_ConcurrentByKeyJobExecution.t * Flow.world W))
    (o : result unit) :
  _ConcurrentByKeyJobExecution._worker_awaitable
    (fst (_ConcurrentByKeyJobExecution.end_iteration _cleanup r)) = Some (Done o) →
  ∃ w0 : Flow.world W,
    snd (_ConcurrentByKeyJobExecution.end_iteration _cleanup r) = snd (_cleanup w0).
Proof.
  destruct r as [[[| |j]|ex] [self w]]; simpl;
    unfold _ConcurrentByKeyJobExecution.worker_finally; try discriminate;
    intros _; exists w; destruct (_cleanup w); reflexivity.
Qed.

Lemma by_key_worker_exits_through_cleanup
    (s s' : _ConcurrentByKeyJobExecution.t * Flow.world W) (r : result unit) :
  _ConcurrentByKeyJobExecution.worker_get _process_event _handle_completed _cleanup s
    = Some s' ∨
  _ConcurrentByKeyJobExecution.worker_complete _process_event _handle_completed _cleanup s
    = Some s' ∨
  _ConcurrentByKeyJobExecution.worker_resume_put s = Some s' →
  _ConcurrentByKeyJobExecution._worker_awaitable (fst s') = Some (Done r) →
  ∃ w0 : Flow.world W, snd s' = snd (_cleanup w0).
Proof.
  destruct s as [self w].
  unfold _ConcurrentByKeyJobExecution.worker_get,
    _ConcurrentByKeyJobExecution.worker_complete,
    _ConcurrentByKeyJobExecution.worker_resume_put.
  intros [Hstep|[Hstep|Hstep]] Hdone; cbv zeta in Hstep.
  - destruct (_ConcurrentByKeyJobExecution._worker_awaitable self) as [[| | |]|];
      try discriminate.
    destruct (_ConcurrentByKeyJobExecution.queue self) as [|[|event task] rest];
      try discriminate.
    + injection Hstep as <-. eapply by_key_end_iteration_cleanup. exact Hdone.
    + injection Hstep as <-. discriminate.
  - destruct (_ConcurrentByKeyJobExecution._worker_awaitable self) as [[|event task| |]|];
      try discriminate.
    destruct task as [completed|ex].
    + injection Hstep as <-. eapply by_key_end_iteration_cleanup. exact Hdone.
    + injection Hstep as <-. exists w.
      unfold _ConcurrentByKeyJobExecution.worker_except,
        _ConcurrentByKeyJobExecution.worker_finally.
      destruct (_ConcurrentByKeyJobExecution.queue self); destruct (_cleanup w); reflexivity.
  - destruct (_ConcurrentByKeyJobExecution._worker_awaitable self) as [[| |j|]|];
      try discriminate.
    destruct (queue_full _ _); [discriminate|].
    injection Hstep as <-. discriminate.
Qed.

End ByKeyEngineFacts.

(** The reason for the single [get] of the [except] clause: a [_do] that is
    blocked in [put] on a full queue is released by it, and then sees the
    exception of the worker. *)
Lemma blocked_put_released_by_failure {W : Type}
    (beh : nat → msg → W → result val * W)
    (_cleanup : M (Flow.world W) unit)
    (self : _ConcurrentJobExecution.t) (w w' : Flow.world W)
    (ex : exn) (event : val) (task : result val) :
  queue_full (_ConcurrentJobExecution._max_in_flight self)
    (_ConcurrentJobExecution.queue self) = true →
  Z.of_nat (length (_ConcurrentJobExecution.queue self)) =
    _ConcurrentJobExecution._max_in_flight self →
  _cleanup w = (Ok tt, w') →
  fst (_ConcurrentJobExecution._do_resume beh (BlockedOnPut (JEvent event task)) (self, w)) =
    Suspended (BlockedOnPut (JEvent event task))
  ∧ fst (_ConcurrentJobExecution._do_resume beh (BlockedOnPut (JEvent event task))
           (_ConcurrentJobExecution.worker_except _cleanup ex (self, w))) =
    Finished (Raise ex).
Proof.
  intros Hfull Hlen Hclean.
  unfold _ConcurrentJobExecution._do_resume, _ConcurrentJobExecution.put_then_continue.
  rewrite Hfull. split; [reflexivity|].
  unfold _ConcurrentJobExecution.worker_except, _ConcurrentJobExecution.worker_finally.
  unfold queue_full in Hfull. apply andb_true_iff in Hfull as [Hpos _].
  destruct (_ConcurrentJobExecution.queue self) as [|j rest] eqn:Hq.
  - simpl in Hlen. apply Z.ltb_lt in Hpos. lia.
  - rewrite Hclean. cbn -[queue_full Z.of_nat].
    assert (Hroom : queue_full (_ConcurrentJobExecution._max_in_flight self) rest = false).
    { unfold queue_full. apply andb_false_iff. right. apply Z.leb_gt.
      rewrite <- Hlen. simpl length. lia. }
    rewrite Hroom. reflexivity.
Qed.

(** C3, amended.  In both engines, once the worker has ended with an
    exception the next [_do] raises that exception again, and the FlowError
    "worker has already terminated" is what [_do] raises when the worker
    had ended without one.  A failing call takes the worker into its
    [except] clause, which removes at most one job from the queue, the
    first of those pending, before the exception propagates.  Whenever the
    worker ends, the cleanup hook has run. *)
Theorem worker_failure_reraised_after_one_get {W : Type}
    (beh : nat → msg → W → result val * W)
    (_lazy_init : M (Flow.world W) unit)
    (_process_event : val → result val)
    (_process_events : list val → result val)
    (_handle_completed : val → val → M (Flow.world W) unit)
    (_cleanup : M (Flow.world W) unit) :
  (∀ b n q ex event w,
      _ConcurrentJobExecution._do beh _lazy_init _process_event event
        (_ConcurrentJobExecution.mk b n (Some q) (Some (Done (Raise ex))), w) =
      (Finished (Raise ex),
       (_ConcurrentJobExecution.mk b n (Some q) (Some (Done (Raise ex))), w)))
  ∧ (∀ b n q event w,
      _ConcurrentJobExecution._do beh _lazy_init _process_event event
        (_ConcurrentJobExecution.mk b n (Some q) (Some (Done (Ok tt))), w) =
      (Finished (Raise (FlowError "ConcurrentJobExecution worker has already terminated")),
       (_ConcurrentJobExecution.mk b n (Some q) (Some (Done (Ok tt))), w)))
  ∧ (∀ b n q event ex w,
      _ConcurrentJobExecution.worker_complete _handle_completed _cleanup
        (_ConcurrentJobExecution.mk b n (Some q) (Some (Handling event (Raise ex))), w) =
      Some (_ConcurrentJobExecution.worker_except _cleanup ex
              (_ConcurrentJobExecution.mk b n (Some q) (Some (Handling event (Raise ex))), w)))
  ∧ (∀ ex self w,
      let s' := _ConcurrentJobExecution.worker_except _cleanup ex (self, w) in
      _ConcurrentJobExecution.queue (fst s') = tail (_ConcurrentJobExecution.queue self)
      ∧ snd s' = snd (_cleanup w)
      ∧ _ConcurrentJobExecution._worker_awaitable (fst s') =
        Some (Done (match fst (_cleanup w) with
                    | Ok _ => Raise ex
                    | Raise ex' => Raise ex'
                    end)))
  ∧ (∀ s s' r,
      _ConcurrentJobExecution.worker_get _cleanup s = Some s' ∨
      _ConcurrentJobExecution.worker_complete _handle_completed _cleanup s = Some s' →
      _ConcurrentJobExecution._worker_awaitable (fst s') = Some (Done r) →
      ∃ w0, snd s' = snd (_cleanup w0))
  ∧ (∀ b n q d ex event w,
      _ConcurrentByKeyJobExecution._do beh _lazy_init _process_events event
        (_ConcurrentByKeyJobExecution.mk b n (Some q) (Some (Done (Raise ex))) d, w) =
      (Finished (Raise ex),
       (_ConcurrentByKeyJobExecution.mk b n (Some q) (Some (Done (Raise ex))) d, w)))
  ∧ (∀ b n q d event w,
      _ConcurrentByKeyJobExecution._do beh _lazy_init _process_events event
        (_ConcurrentByKeyJobExecution.mk b n (Some q) (Some (Done (Ok tt))) d, w) =
      (Finished
         (Raise (FlowError "ConcurrentByKeyJobExecution worker has already terminated")),
       (_ConcurrentByKeyJobExecution.mk b n (Some q) (Some (Done (Ok tt))) d, w)))
  ∧ (∀ b n q d event ex w,
      _ConcurrentByKeyJobExecution.worker_complete _process_events _handle_completed
        _cleanup
        (_ConcurrentByKeyJobExecution.mk b n (Some q) (Some (Handling event (Raise ex))) d, w) =
      Some (_ConcurrentByKeyJobExecution.worker_except _cleanup ex
              (_ConcurrentByKeyJobExecution.mk b n (Some q)
                 (Some (Handling event (Raise ex))) d, w)))
  ∧ (∀ ex self w,
      let s' := _ConcurrentByKeyJobExecution.worker_except _cleanup ex (self, w) in
      _ConcurrentByKeyJobExecution.queue (fst s') =
        tail (_ConcurrentByKeyJobExecution.queue self)
      ∧ snd s' = snd (_cleanup w)
      ∧ _ConcurrentByKeyJobExecution._worker_awaitable (fst s') =
        Some (Done (match fst (_cleanup w) with
                    | Ok _ => Raise ex
                    | Raise ex' => Raise ex'
                    end)))
  ∧ (∀ s s' r,
      _ConcurrentByKeyJobExecution.worker_get _process_events _handle_completed _cleanup s
        = Some s' ∨
      _ConcurrentByKeyJobExecution.worker_complete _process_events _handle_completed
        _cleanup s = Some s' ∨
      _ConcurrentByKeyJobExecution.worker_resume_put s = Some s' →
      _ConcurrentByKeyJobExecution._worker_awaitable (fst s') = Some (Done r) →
      ∃ w0, snd s' = snd (_cleanup w0)).
Proof.
  repeat apply conj.
  - reflexivity.
  - reflexivity.
  - reflexivity.
  - intros ex self w. apply worker_except_drops_one.
  - intros s s' r. apply worker_exits_through_cleanup.
  - reflexivity.
  - reflexivity.
  - reflexivity.
  - intros ex self w. apply by_key_worker_except_drops_one.
  - intros s s' r. apply by_key_worker_exits_through_cleanup.
Qed.

(** ** Errors at construction *)

(** C8.  Each of these is refused when the flow is put together, with no
    step object made and no event processed: a [fn] that is not callable,
    by Map, Filter, FlatMap, Extend, MapWithState and Reduce (TypeError); a
    batch timeout of zero or less (ValueError); an empty list given to
    [build_flow] (ValueError); a table named by a string when the step has
    no context (TypeError); an outlet attached to a Reduce step
    (ValueError). *)
Theorem construction_errors :
  (∀ (v : val) (kw : Flow.kwargs),
      Map.__init__ (Object v) kw =
        Raise (TypeError ("Expected a callable, got " ++ type_name v))
      ∧ Filter.__init__ (Object v) kw =
        Raise (TypeError ("Expected a callable, got " ++ type_name v))
      ∧ FlatMap.__init__ (Object v) kw =
        Raise (TypeError ("Expected a callable, got " ++ type_name v))
      ∧ Extend.__init__ (Object v) kw =
        Raise (TypeError ("Expected a callable, got " ++ type_name v)))
  ∧ (∀ (initial_state v : val) (group_by_key : bool) (kw : Flow.kwargs),
      MapWithState.__init__ initial_state (Object v) group_by_key kw =
        Raise (TypeError ("Expected a callable, got " ++ type_name v)))
  ∧ (∀ (initial_value v : val) (kw : Flow.kwargs),
      Reduce.__init__ initial_value (Object v) kw =
        Raise (TypeError ("Expected a callable, got " ++ type_name v)))
  ∧ (∀ (class_name : string) (max_events : option Z) (timeout_secs : Q)
       (kw : Flow.kwargs),
      (timeout_secs <= 0)%Q →
      _Batching.__init__ class_name max_events (Some timeout_secs) kw =
        Raise (ValueError "Batch timeout cannot be 0 or negative"))
  ∧ (∀ h : heap,
      build_flow [] h = (Raise (ValueError "Cannot build an empty flow"), h))
  ∧ (∀ (table_name : string) (key_extractor : JoinWithTable.key_extractor_arg)
       (attributes : option val) (join_function : option (val → val → result val))
       (max_in_flight : Z) (kw : Flow.kwargs),
      Flow.kw_context kw = None →
      JoinWithTable.__init__ (JoinWithTable.TableName table_name) key_extractor
        attributes join_function max_in_flight kw =
        Raise (TypeError "Table can not be string if no context was provided to the step"))
  ∧ (∀ (self : Reduce.t) (outlet : nat),
      Reduce.to self outlet =
        Raise (ValueError "Reduce is a terminal step. It cannot be piped further."))
  ∧ (∀ (h : heap) (s : nat) (outlet : item),
      is_reduce h s = true →
      to (Step s) outlet h =
        (Raise (ValueError "Reduce is a terminal step. It cannot be piped further."), h)).
Proof.
  repeat apply conj; try reflexivity.
  - intros v kw. repeat split.
  - intros class_name max_events timeout_secs kw Hle.
    unfold _Batching.__init__. apply Qle_bool_iff in Hle. rewrite Hle. reflexivity.
  - intros table_name key_extractor attributes join_function max_in_flight kw Hctx.
    unfold JoinWithTable.__init__. simpl. rewrite Hctx. reflexivity.
  - intros h s outlet Hreduce. unfold to, lookup_to. unfold_M. simpl.
    rewrite Hreduce. reflexivity.
Qed.

(** ** The theorems at concrete flows *)

Lemma do_downstream_termination_folds_witness :
  outlet_chain answering_seven Termination [0; 1]%nat tt [VNone; VInt 7] tt
  ∧ Flow._do_downstream answering_seven fan_out Termination (Flow.mk_world [] tt) =
    (Ok (VInt 7), Flow.mk_world [Called 0 Termination; Called 1 Termination] tt).
Proof.
  assert (Hchain : outlet_chain answering_seven Termination [0; 1]%nat tt
                     [VNone; VInt 7] tt).
  { apply (outlet_chain_cons answering_seven Termination 0%nat [1%nat] tt VNone tt [VInt 7] tt eq_refl).
    apply (outlet_chain_cons answering_seven Termination 1%nat [] tt (VInt 7) tt [] tt eq_refl).
    apply outlet_chain_nil. }
  split; [exact Hchain|].
  exact (proj1 (do_downstream_termination_folds answering_seven fan_out first_non_none
                  0%nat [1%nat] (Flow.mk_world [] tt) VNone [VInt 7] tt
                  eq_refl eq_refl Hchain)).
Defined.

Lemma Batch_emits_every_event_once_witness :
  0 < 4
  ∧ never_raises sink
  ∧ ∃ (bs : list (list val * option Z)) (rest : list val),
      Forall (λ batch, Z.of_nat (length (fst batch)) = 4) bs
      ∧ Z.of_nat (length rest) < 4
      ∧ concat (map fst bs) ++ rest =
        [VInt 1; VInt 2; VInt 3; VInt 4; VInt 5; VInt 6; VInt 7; VInt 8; VInt 9; VInt 10].
Proof.
  assert (Hm : 0 < 4) by reflexivity.
  assert (Htotal : never_raises sink) by (intros o m d; reflexivity).
  split; [exact Hm|]. split; [exact Htotal|].
  destruct (proj1 Batch_emits_every_event_once unit sink Flow.no_kwargs [0%nat] 4
              first_non_none (map int_event [1; 2; 3; 4; 5; 6; 7; 8; 9; 10]) [] tt
              Hm Htotal eq_refl)
    as (_ & bs & rest & bt & bt' & r & d1 & d2 & _ & Hall & Hrest & Hcat & _).
  exists bs, rest. split; [exact Hall|]. split; [exact Hrest|exact Hcat].
Defined.

Lemma Complete_settles_after_outlets_return_witness :
  _awaitable_result awaited_user = Some 7%nat
  ∧ outlet_chain (extend_below with_city_field) (Ev (VEvent awaited_user)) [0%nat]
      (Flow.mk_world [] tt) [VNone]
      (Flow.mk_world [Called 1 (Ev (VEvent awaited_user_in_oslo))] tt)
  ∧ Complete._do (extend_below with_city_field) body_handed_on complete_over_one
      (Ev (VEvent awaited_user)) (Flow.mk_world [] (Flow.mk_world [] tt)) =
    (Ok VNone,
     Flow.mk_world
       [Called 0 (Ev (VEvent awaited_user));
        Settled 7 (VDict [("user", VStr "ann"); ("city", VStr "Oslo")])]
       (Flow.mk_world [Called 1 (Ev (VEvent awaited_user_in_oslo))] tt)).
Proof.
  assert (Hchain : outlet_chain (extend_below with_city_field) (Ev (VEvent awaited_user))
                     [0%nat] (Flow.mk_world [] tt) [VNone]
                     (Flow.mk_world [Called 1 (Ev (VEvent awaited_user_in_oslo))] tt)).
  { apply (outlet_chain_cons (extend_below with_city_field) (Ev (VEvent awaited_user))
             0%nat [] (Flow.mk_world [] tt) VNone
             (Flow.mk_world [Called 1 (Ev (VEvent awaited_user_in_oslo))] tt) []
             (Flow.mk_world [Called 1 (Ev (VEvent awaited_user_in_oslo))] tt) eq_refl).
    apply outlet_chain_nil. }
  split; [reflexivity|]. split; [exact Hchain|].
  exact (proj2 (Complete_settles_after_outlets_return (extend_below with_city_field)
                  body_handed_on complete_over_one awaited_user 7%nat []
                  (Flow.mk_world [] tt) [VNone]
                  (Flow.mk_world [Called 1 (Ev (VEvent awaited_user_in_oslo))] tt)
                  eq_refl Hchain)).
Defined.

Lemma Complete_raises_without_awaitable_witness :
  _awaitable_result (int_event 42) = None
  ∧ fst (Complete._do sink unchanged
           (Complete.mk (Flow.to (Flow.__init__ "Complete" Flow.no_kwargs) 0%nat))
           (Ev (VEvent (int_event 42))) (Flow.mk_world [] tt)) =
    Raise (AttributeError "'NoneType' object has no attribute '_set_result'")
  ∧ snd (Complete._do sink unchanged
           (Complete.mk (Flow.to (Flow.__init__ "Complete" Flow.no_kwargs) 0%nat))
           (Ev (VEvent (int_event 42))) (Flow.mk_world [] tt)) =
    Flow.mk_world [Called 0 (Ev (VEvent (int_event 42)))] tt.
Proof.
  destruct (Complete_raises_without_awaitable sink unchanged
              (Complete.mk (Flow.to (Flow.__init__ "Complete" Flow.no_kwargs) 0%nat))
              (int_event 42) (Flow.mk_world [] tt) eq_refl) as (_ & Hworld & Hexn).
  split; [reflexivity|]. split; [exact (Hexn eq_refl)|exact Hworld].
Defined.

Lemma Choice_routes_to_first_match_witness :
  Flow.kw_termination_result_fn Flow.no_kwargs = pure2 first_non_none
  ∧ outlet_chain sink Termination [0; 1; 2; 3]%nat tt [VNone; VNone; VNone; VNone] tt
  ∧ Choice._do sink
      (Choice.__init__
         (pure_choices [(0%nat, equals 1); (1%nat, equals 2); (2%nat, equals 2)])
         (Some 3%nat) Flow.no_kwargs)
      (Ev (VEvent (int_event 2))) (Flow.mk_world [] tt) =
    (Ok VNone, Flow.mk_world [Called 1 (Ev (VEvent (int_event 2)))] tt)
  ∧ Choice._do sink
      (Choice.__init__
         (pure_choices [(0%nat, equals 1); (1%nat, equals 2); (2%nat, equals 2)])
         (Some 3%nat) Flow.no_kwargs)
      (Ev (VEvent (int_event 5))) (Flow.mk_world [] tt) =
    (Ok VNone, Flow.mk_world [Called 3 (Ev (VEvent (int_event 5)))] tt).
Proof.
  assert (Hchain : outlet_chain sink Termination [0; 1; 2; 3]%nat tt
                     [VNone; VNone; VNone; VNone] tt).
  { apply (outlet_chain_cons sink Termination 0%nat _ tt VNone tt _ tt eq_refl).
    apply (outlet_chain_cons sink Termination 1%nat _ tt VNone tt _ tt eq_refl).
    apply (outlet_chain_cons sink Termination 2%nat _ tt VNone tt _ tt eq_refl).
    apply (outlet_chain_cons sink Termination 3%nat _ tt VNone tt _ tt eq_refl).
    apply outlet_chain_nil. }
  split; [reflexivity|]. split; [exact Hchain|]. split.
  - exact (proj1 (Choice_routes_to_first_match sink
                    [(0%nat, equals 1); (1%nat, equals 2); (2%nat, equals 2)]
                    (Some 3%nat) Flow.no_kwargs first_non_none (int_event 2)
                    (Flow.mk_world [] tt) _ tt eq_refl Hchain)).
  - exact (proj1 (Choice_routes_to_first_match sink
                    [(0%nat, equals 1); (1%nat, equals 2); (2%nat, equals 2)]
                    (Some 3%nat) Flow.no_kwargs first_non_none (int_event 5)
                    (Flow.mk_world [] tt) _ tt eq_refl Hchain)).
Defined.

Lemma build_flow_walks_the_list_witness :
  0%nat ≠ 1%nat
  ∧ ∃ h1 : heap,
      build_flow docstring_flow no_edges = (Ok (Step 0), h1)
      ∧ outlets_of h1 0 = [Step 1; Step 3]
      ∧ outlets_of h1 1 = [Step 2].
Proof.
  assert (Hne : 0%nat ≠ 1%nat) by discriminate.
  split; [exact Hne|].
  destruct (proj2 (proj2 (build_flow_walks_the_list [] no_edges no_edges (Step 0)))
              0%nat 1%nat 2%nat 3%nat Hne) as (h1 & Hbuild & Ha & Hb & _).
  exists h1. split; [exact Hbuild|]. split; [exact Ha|exact Hb].
Defined.

Lemma construction_errors_witness :
  (0 <= 0)%Q
  ∧ _Batching.__init__ "Batch" (Some 4) (Some 0%Q) Flow.no_kwargs =
    Raise (ValueError "Batch timeout cannot be 0 or negative")
  ∧ Flow.kw_context Flow.no_kwargs = None
  ∧ JoinWithTable.__init__ (JoinWithTable.TableName "users")
      (JoinWithTable.KeyColumn "id") None None 8 Flow.no_kwargs =
    Raise (TypeError "Table can not be string if no context was provided to the step")
  ∧ is_reduce (mk_heap (λ s, Nat.eqb s 2) ∅) 2 = true
  ∧ to (Step 2) (Step 3) (mk_heap (λ s, Nat.eqb s 2) ∅) =
    (Raise (ValueError "Reduce is a terminal step. It cannot be piped further."),
     mk_heap (λ s, Nat.eqb s 2) ∅).
Proof.
  assert (Hle : (0 <= 0)%Q) by apply Qle_refl.
  destruct construction_errors
    as (_ & _ & _ & Htimeout & _ & Htable & _ & Hto).
  split; [exact Hle|].
  split; [exact (Htimeout "Batch" (Some 4) 0%Q Flow.no_kwargs Hle)|].
  split; [reflexivity|].
  split; [exact (Htable "users" (JoinWithTable.KeyColumn "id") None None 8
                   Flow.no_kwargs eq_refl)|].
  split; [reflexivity|].
  exact (Hto (mk_heap (λ s, Nat.eqb s 2) ∅) 2%nat (Step 3) eq_refl).
Defined.


Lemma worker_failure_reraised_after_one_get_witness :
  _ConcurrentJobExecution._do sink init_nothing call_failing_on_one
    (Ev (VEvent (int_event 4))) failed_state =
  (Finished (Raise (UserError 1)), failed_state)
  ∧ _ConcurrentJobExecution.queue
      (fst (_ConcurrentJobExecution.worker_except cleanup_releasing (UserError 1)
              failed_state)) = [].
Proof.
  destruct (worker_failure_reraised_after_one_get sink init_nothing call_failing_on_one
              batch_call_failing_on_one handle_nothing cleanup_releasing)
    as (Hraise & _ & _ & Hdrop & _).
  split.
  - exact (Hraise (Flow.__init__ "JoinWithTable" Flow.no_kwargs) 8
             [JEvent (VEvent (int_event 3)) (Ok VNone)] (UserError 1)
             (Ev (VEvent (int_event 4))) (Flow.mk_world [Released] tt)).
  - exact (proj1 (Hdrop (UserError 1) (fst failed_state) (snd failed_state))).
Defined.

(** Scenario S5 on the by-key engine: the first event of key a is handled
    alone, the event of key b next, and the second event of key a, which
    waited behind the first, last; every key is then forgotten and the
    queue is empty. *)
Example by_key_engine_coalesces :
  coalescing_run =
  (_ConcurrentByKeyJobExecution.mk (Flow.__init__ "ByKey" Flow.no_kwargs) 8
     (Some []) (Some Waiting) [],
   Flow.mk_world
     [Called 0 (Ev (VEvent (mkEvent (VInt 1) (Some "a") None None)));
      Called 0 (Ev (VEvent (mkEvent (VInt 1) (Some "b") None None)));
      Called 0 (Ev (VEvent (mkEvent (VInt 1) (Some "a") None None)))]
     tt).
Proof. vm_compute. reflexivity. Qed.

(** * Further properties of the code *)

(** ** Real events through [_do_downstream] *)

Section DownstreamEventFacts.
Context {W : Type}.
Variable beh : nat → msg → W → result val * W.

Lemma run_tasks_shape (m : msg) (outs : list nat) :
  ∀ (tr : list obs) (d : W),
    ∃ (rs : list (result val)) (d' : W),
      Flow.run_tasks beh outs m (Flow.mk_world tr d) =
        (Ok rs, Flow.mk_world (tr ++ map (λ o, Called o m) outs) d')
      ∧ ((∀ r, r ∈ rs → is_ok r = true) →
         ∃ vs, rs = map Ok vs ∧ outlet_chain beh m outs d vs d').
Proof.
  induction outs as [|o outs IH]; intros tr d.
  - exists [], d. simpl. rewrite app_nil_r. split; [reflexivity|].
    intros _. exists []. split; [reflexivity|constructor].
  - cbn [Flow.run_tasks]. unfold mbind at 1, M_bind at 1, attempt, Flow.call_do.
    cbn [Flow.down Flow.trace].
    destruct (beh o m d) as [r d1] eqn:Hbeh.
    destruct (IH (tr ++ [Called o m]) d1) as (rs & d' & Hrun & Hok).
    exists (r :: rs), d'. unfold mbind at 1, M_bind at 1. rewrite Hrun.
    cbn [map]. rewrite <- app_assoc. split; [reflexivity|].
    intros Hall. destruct Hok as (vs & -> & Hchain).
    { intros r' Hr'. apply Hall. right. exact Hr'. }
    specialize (Hall r (list_elem_of_here _ _)).
    destruct r as [v|ex]; [|discriminate].
    exists (v :: vs). split; [reflexivity|]. econstructor; eassumption.
Qed.

Lemma await_all_ok_inv {S} (rs : list (result val)) (s s' : S) :
  Flow.await_all rs s = (Ok tt, s') → ∀ r, r ∈ rs → is_ok r = true.
Proof.
  induction rs as [|r rs IH]; intros Hawait r' Hr'.
  - inversion Hr'.
  - cbn [Flow.await_all] in Hawait. unfold mbind, M_bind, lift in Hawait.
    destruct r as [v|ex]; [|discriminate].
    apply elem_of_cons in Hr' as [->|Hr']; [reflexivity|].
    eapply IH; eassumption.
Qed.

Lemma await_all_state {S} (rs : list (result val)) (s : S) :
  snd (Flow.await_all rs s) = s.
Proof.
  induction rs as [|r rs IH]; [reflexivity|].
  cbn [Flow.await_all]. unfold mbind, M_bind, lift. destruct r; [apply IH|reflexivity].
Qed.

End DownstreamEventFacts.

(** X1.  [_do_downstream] returns from a real event, with None, exactly
    when the [_do] of every outlet returned; each outlet has then been
    called once, in outlet order, and the results of the outlets are
    dropped. *)
Theorem do_downstream_event_returns_iff {W : Type}
    (beh : nat → msg → W → result val * W) (self : Flow.t) (ev : val)
    (tr : list obs) (d : W) (r : val) (w' : Flow.world W) :
  Flow._do_downstream beh self (Ev ev) (Flow.mk_world tr d) = (Ok r, w') ↔
  r = VNone ∧
  ∃ (rs : list val) (d' : W),
    outlet_chain beh (Ev ev) (Flow._outlets self) d rs d' ∧
    w' = Flow.mk_world (tr ++ map (λ o, Called o (Ev ev)) (Flow._outlets self)) d'.
Proof.
  split.
  - unfold Flow._do_downstream.
    destruct (Flow._outlets self) as [|o0 rest] eqn:Houts.
    + intros [= <- <-]. split; [reflexivity|]. exists [], d.
      split; [constructor|]. simpl. rewrite app_nil_r. reflexivity.
    + unfold mbind at 1, M_bind at 1, Flow.call_do. cbn [Flow.down Flow.trace].
      destruct (beh o0 (Ev ev) d) as [[v0|ex] d1] eqn:Hbeh; [|discriminate].
      destruct (run_tasks_shape beh (Ev ev) rest (tr ++ [Called o0 (Ev ev)]) d1)
        as (rs & d' & Hrun & Hok).
      unfold mbind at 1, M_bind at 1. rewrite Hrun.
      unfold mbind at 1, M_bind at 1.
      destruct (Flow.await_all rs _) as [[[]|ex] w1] eqn:Hawait; [|discriminate].
      intros [= <- <-].
      pose proof (await_all_state rs
                    (Flow.mk_world ((tr ++ [Called o0 (Ev ev)]) ++
                                    map (λ o, Called o (Ev ev)) rest) d')) as Hstate.
      rewrite Hawait in Hstate. simpl in Hstate. subst w1.
      destruct Hok as (vs & _ & Hchain); [eapply await_all_ok_inv; eassumption|].
      split; [reflexivity|]. exists (v0 :: vs), d'.
      split; [econstructor; eassumption|].
      cbn [map]. rewrite <- app_assoc. reflexivity.
  - intros (-> & rs & d' & Hchain & ->).
    apply do_downstream_event_chain with (rs := rs). exact Hchain.
Qed.

(** ** Map, Filter and FlatMap over a run *)

Section ForwardingFacts.
Context {W : Type}.
Variable beh : nat → msg → W → result val * W.
Hypothesis beh_total : never_raises beh.

Lemma forwarded_app (outs : list nat) (evs1 evs2 : list val) :
  forwarded outs (evs1 ++ evs2) = forwarded outs evs1 ++ forwarded outs evs2.
Proof. unfold forwarded. rewrite map_app, concat_app. reflexivity. Qed.

Lemma forward_each_total (b : Flow.t) (events : list val) :
  ∀ (tr : list obs) (d : W),
    ∃ d' : W,
      forward_each beh b events (Flow.mk_world tr d) =
      (Ok tt, Flow.mk_world (tr ++ forwarded (Flow._outlets b) events) d').
Proof.
  induction events as [|ev events IH]; intros tr d.
  - exists d. simpl. unfold forwarded. simpl. rewrite app_nil_r. reflexivity.
  - destruct (do_downstream_event_total beh beh_total b ev tr d) as [d1 Hdown].
    destruct (IH (tr ++ map (λ o, Called o (Ev ev)) (Flow._outlets b)) d1) as [d' Hrest].
    exists d'. cbn [forward_each]. unfold mbind at 1, M_bind at 1.
    rewrite Hdown, Hrest. unfold forwarded. cbn [map concat].
    rewrite <- app_assoc. reflexivity.
Qed.

(** A step that hands on, for every event, the events [derive] gives for
    it, and passes the sentinel on, hands on over a run the events derived
    from its inputs, in input order, and the sentinel after them. *)
Lemma feed_forwarding (do : msg → M (Flow.world W) val) (b : Flow.t)
    (g : val → val → val) (derive : Event → list val) :
  Flow._termination_result_fn b = pure2 g →
  (∀ e w, do (Ev (VEvent e)) w = (_ ← forward_each beh b (derive e); mret VNone) w) →
  (∀ w, do Termination w = Flow._do_downstream beh b Termination w) →
  ∀ (es : list Event) (tr : list obs) (d : W) (last : val),
    ∃ (r : val) (d' : W),
      feed do (map (λ e, Ev (VEvent e)) es ++ [Termination]) last (Flow.mk_world tr d) =
      (Ok r,
       Flow.mk_world
         (tr ++ forwarded (Flow._outlets b) (concat (map derive es)) ++
          map (λ o, Called o Termination) (Flow._outlets b))
         d').
Proof.
  intros Hfn Hev Hterm. induction es as [|e es IH]; intros tr d last.
  - destruct (do_downstream_termination_total beh beh_total b g tr d Hfn)
      as (r & d' & Hdown).
    exists r, d'. cbn [map app feed concat]. unfold mbind at 1, M_bind at 1.
    rewrite Hterm, Hdown. reflexivity.
  - destruct (forward_each_total b (derive e) tr d) as [d1 Hfwd].
    destruct (IH (tr ++ forwarded (Flow._outlets b) (derive e)) d1 VNone)
      as (r & d' & Hrest).
    exists r, d'. cbn [map app feed concat]. unfold mbind at 1, M_bind at 1.
    rewrite Hev. unfold mbind at 1, M_bind at 1. rewrite Hfwd.
    unfold mret at 1, M_ret at 1. rewrite Hrest.
    rewrite forwarded_app, <- !app_assoc. reflexivity.
Qed.

End ForwardingFacts.

Lemma Map_do_forwards {W : Type} (beh : nat → msg → W → result val * W)
    (b : Flow.t) (f : val → val) (e : Event) (w : Flow.world W) :
  Map._do beh (_UnaryFunctionFlow.mk b (pure1 f)) (Ev (VEvent e)) w =
  (_ ← forward_each beh b
         [derived_event (Flow._full_event b) e (f (element_of (Flow._full_event b) e))];
   mret VNone) w.
Proof.
  unfold Map._do, _UnaryFunctionFlow._do, Map._do_internal,
    Flow._get_safe_event_or_body, Flow._user_fn_output_to_event,
    derived_event, element_of, with_body, copy, pure1.
  cbn [forward_each _UnaryFunctionFlow.base _UnaryFunctionFlow._fn].
  unfold_M. destruct (Flow._full_event b); simpl;
    destruct (Flow._do_downstream beh b _ w) as [[r|ex] w1]; reflexivity.
Qed.

Lemma Filter_do_forwards {W : Type} (beh : nat → msg → W → result val * W)
    (b : Flow.t) (p : val → val) (e : Event) (w : Flow.world W) :
  Filter._do beh (_UnaryFunctionFlow.mk b (pure1 p)) (Ev (VEvent e)) w =
  (_ ← forward_each beh b
         (if truthy (p (element_of (Flow._full_event b) e)) then [VEvent e] else []);
   mret VNone) w.
Proof.
  unfold Filter._do, _UnaryFunctionFlow._do, Filter._do_internal,
    Flow._get_safe_event_or_body, element_of, copy, pure1.
  cbn [_UnaryFunctionFlow.base _UnaryFunctionFlow._fn].
  unfold_M. destruct (Flow._full_event b); simpl;
    destruct (truthy (p _)); simpl; try reflexivity;
    destruct (Flow._do_downstream beh b _ w) as [[r|ex] w1]; reflexivity.
Qed.

Lemma FlatMap_forward_elements {W : Type} (beh : nat → msg → W → result val * W)
    (b : Flow.t) (fn : val → result val) (e : Event) (elements : list val) :
  ∀ w : Flow.world W,
    FlatMap.forward_elements beh (_UnaryFunctionFlow.mk b fn) (VEvent e) elements w =
    forward_each beh b (map (derived_event (Flow._full_event b) e) elements) w.
Proof.
  induction elements as [|x elements IH]; intros w; [reflexivity|].
  cbn [FlatMap.forward_elements forward_each map _UnaryFunctionFlow.base].
  unfold Flow._user_fn_output_to_event, derived_event, with_body, copy.
  unfold_M. destruct (Flow._full_event b); simpl;
    destruct (Flow._do_downstream beh b _ w) as [[r|ex] w1]; try reflexivity;
    apply IH.
Qed.

Lemma FlatMap_do_forwards {W : Type} (beh : nat → msg → W → result val * W)
    (b : Flow.t) (f : val → list val) (e : Event) (w : Flow.world W) :
  FlatMap._do beh (_UnaryFunctionFlow.mk b (pure_list f)) (Ev (VEvent e)) w =
  (_ ← forward_each beh b
         (map (derived_event (Flow._full_event b) e)
            (f (element_of (Flow._full_event b) e)));
   mret VNone) w.
Proof.
  unfold FlatMap._do, _UnaryFunctionFlow._do, FlatMap._do_internal,
    Flow._get_safe_event_or_body, element_of, copy, pure_list.
  cbn [_UnaryFunctionFlow.base _UnaryFunctionFlow._fn].
  assert (Hel : (if Flow._full_event b then Ok (VEvent e) else attr_body (VEvent e)) =
                Ok (if Flow._full_event b then VEvent e else body e)).
  { destruct (Flow._full_event b); reflexivity. }
  rewrite Hel. unfold_M. cbn [iterate]. rewrite FlatMap_forward_elements. reflexivity.
Qed.

Lemma concat_map_singleton {A B} (f : A → B) (l : list A) :
  concat (map (λ x, [f x]) l) = map f l.
Proof. induction l as [|x l IH]; [reflexivity|]. simpl. rewrite IH. reflexivity. Qed.

Lemma concat_map_filter {A B} (p : A → bool) (f : A → B) (l : list A) :
  concat (map (λ x, if p x then [f x] else []) l) = map f (List.filter p l).
Proof.
  induction l as [|x l IH]; [reflexivity|]. simpl.
  destruct (p x); simpl; rewrite IH; reflexivity.
Qed.

Lemma sink_never_raises : never_raises sink.
Proof. intros o m d. reflexivity. Qed.

(** X2.  Over a run, Map hands on one event per input, in input order, and
    the sentinel after them.  The event handed on is the input with the
    result of the function as its body and with the key, the time and the
    result slot of the input; under [full_event] it is the result of the
    function itself. *)
Theorem Map_forwards_one_event_per_input {W : Type}
    (beh : nat → msg → W → result val * W) (b : Flow.t) (f : val → val)
    (g : val → val → val) (es : list Event) (tr : list obs) (d : W) :
  never_raises beh →
  Flow._termination_result_fn b = pure2 g →
  ∃ (r : val) (d' : W),
    feed (Map._do beh (_UnaryFunctionFlow.mk b (pure1 f)))
      (map (λ e, Ev (VEvent e)) es ++ [Termination]) VNone (Flow.mk_world tr d) =
    (Ok r,
     Flow.mk_world
       (tr ++
        forwarded (Flow._outlets b)
          (map (λ e, derived_event (Flow._full_event b) e
                       (f (element_of (Flow._full_event b) e))) es) ++
        map (λ o, Called o Termination) (Flow._outlets b))
       d').
Proof.
  intros Htotal Hfn.
  destruct (feed_forwarding beh Htotal (Map._do beh (_UnaryFunctionFlow.mk b (pure1 f)))
              b g
              (λ e, [derived_event (Flow._full_event b) e
                       (f (element_of (Flow._full_event b) e))])
              Hfn (Map_do_forwards beh b f) (λ w, eq_refl) es tr d VNone)
    as (r & d' & Hfeed).
  exists r, d'. rewrite Hfeed, concat_map_singleton. reflexivity.
Qed.

Lemma Map_forwards_one_event_per_input_witness :
  never_raises sink
  ∧ snd (feed (Map._do sink (_UnaryFunctionFlow.mk (two_outlets "Map") (pure1 plus_one)))
           [Ev (VEvent awaited_event); Termination] VNone (Flow.mk_world [] tt)) =
    Flow.mk_world
      [Called 0 (Ev (VEvent (mkEvent (VInt 44) None None (Some 7%nat))));
       Called 1 (Ev (VEvent (mkEvent (VInt 44) None None (Some 7%nat))));
       Called 0 Termination; Called 1 Termination] tt.
Proof.
  split; [exact sink_never_raises|].
  destruct (Map_forwards_one_event_per_input sink (two_outlets "Map") plus_one
              first_non_none [awaited_event] [] tt sink_never_raises eq_refl)
    as (r & d' & Hfeed).
  destruct d'. exact (f_equal snd Hfeed).
Defined.

(** X3.  Over a run, Filter hands on exactly the inputs on whose element
    the function is truthy, unchanged and in input order, and the sentinel
    after them. *)
Theorem Filter_forwards_the_accepted_inputs {W : Type}
    (beh : nat → msg → W → result val * W) (b : Flow.t) (p : val → val)
    (g : val → val → val) (es : list Event) (tr : list obs) (d : W) :
  never_raises beh →
  Flow._termination_result_fn b = pure2 g →
  ∃ (r : val) (d' : W),
    feed (Filter._do beh (_UnaryFunctionFlow.mk b (pure1 p)))
      (map (λ e, Ev (VEvent e)) es ++ [Termination]) VNone (Flow.mk_world tr d) =
    (Ok r,
     Flow.mk_world
       (tr ++
        forwarded (Flow._outlets b)
          (map VEvent
             (List.filter (λ e, truthy (p (element_of (Flow._full_event b) e))) es)) ++
        map (λ o, Called o Termination) (Flow._outlets b))
       d').
Proof.
  intros Htotal Hfn.
  destruct (feed_forwarding beh Htotal (Filter._do beh (_UnaryFunctionFlow.mk b (pure1 p)))
              b g
              (λ e, if truthy (p (element_of (Flow._full_event b) e))
                    then [VEvent e] else [])
              Hfn (Filter_do_forwards beh b p) (λ w, eq_refl) es tr d VNone)
    as (r & d' & Hfeed).
  exists r, d'. rewrite Hfeed.
  rewrite (concat_map_filter (λ e, truthy (p (element_of (Flow._full_event b) e))) VEvent).
  reflexivity.
Qed.

Lemma Filter_forwards_the_accepted_inputs_witness :
  never_raises sink
  ∧ snd (feed (Filter._do sink (_UnaryFunctionFlow.mk (two_outlets "Filter")
                                  (pure1 (equals 2))))
           [Ev (VEvent (int_event 1)); Ev (VEvent (int_event 2)); Termination] VNone
           (Flow.mk_world [] tt)) =
    Flow.mk_world
      [Called 0 (Ev (VEvent (int_event 2))); Called 1 (Ev (VEvent (int_event 2)));
       Called 0 Termination; Called 1 Termination] tt.
Proof.
  split; [exact sink_never_raises|].
  destruct (Filter_forwards_the_accepted_inputs sink (two_outlets "Filter") (equals 2)
              first_non_none [int_event 1; int_event 2] [] tt sink_never_raises eq_refl)
    as (r & d' & Hfeed).
  destruct d'. exact (f_equal snd Hfeed).
Defined.

(** X4.  Over a run, FlatMap hands on, for each input in input order, one
    event per element of the list its function returns, in the order of the
    list, each with the key, the time and the result slot of the input; an
    empty list hands on nothing.  A result that cannot be iterated over
    raises TypeError before anything is handed on. *)
Theorem FlatMap_forwards_one_event_per_element {W : Type}
    (beh : nat → msg → W → result val * W) (b : Flow.t) (f : val → list val)
    (g : val → val → val) (es : list Event) (tr : list obs) (d : W) :
  never_raises beh →
  Flow._termination_result_fn b = pure2 g →
  (∃ (r : val) (d' : W),
      feed (FlatMap._do beh (_UnaryFunctionFlow.mk b (pure_list f)))
        (map (λ e, Ev (VEvent e)) es ++ [Termination]) VNone (Flow.mk_world tr d) =
      (Ok r,
       Flow.mk_world
         (tr ++
          forwarded (Flow._outlets b)
            (concat (map (λ e, map (derived_event (Flow._full_event b) e)
                                 (f (element_of (Flow._full_event b) e))) es)) ++
          map (λ o, Called o Termination) (Flow._outlets b))
         d'))
  ∧ (∀ (fn : val → result val) (e : Event) (v : val) (ex : exn) (w : Flow.world W),
        fn (element_of (Flow._full_event b) e) = Ok v →
        iterate v = Raise ex →
        FlatMap._do beh (_UnaryFunctionFlow.mk b fn) (Ev (VEvent e)) w = (Raise ex, w)).
Proof.
  intros Htotal Hfn. split.
  - exact (feed_forwarding beh Htotal
             (FlatMap._do beh (_UnaryFunctionFlow.mk b (pure_list f))) b g
             (λ e, map (derived_event (Flow._full_event b) e)
                     (f (element_of (Flow._full_event b) e)))
             Hfn (FlatMap_do_forwards beh b f) (λ w, eq_refl) es tr d VNone).
  - intros fn e v ex w Hv Hiter.
    unfold FlatMap._do, _UnaryFunctionFlow._do, FlatMap._do_internal,
      Flow._get_safe_event_or_body, copy.
    cbn [_UnaryFunctionFlow.base _UnaryFunctionFlow._fn].
    unfold element_of in Hv. unfold_M.
    destruct (Flow._full_event b); simpl; rewrite Hv, Hiter; reflexivity.
Qed.

Lemma FlatMap_forwards_one_event_per_element_witness :
  never_raises sink
  ∧ snd (feed (FlatMap._do sink (_UnaryFunctionFlow.mk
                                   (Flow.to (Flow.__init__ "FlatMap" Flow.no_kwargs) 0%nat)
                                   (pure_list twice)))
           [Ev (VEvent (int_event 1)); Ev (VEvent (int_event 2)); Termination] VNone
           (Flow.mk_world [] tt)) =
    Flow.mk_world
      [Called 0 (Ev (VEvent (int_event 1))); Called 0 (Ev (VEvent (int_event 1)));
       Called 0 (Ev (VEvent (int_event 2))); Called 0 (Ev (VEvent (int_event 2)));
       Called 0 Termination] tt.
Proof.
  split; [exact sink_never_raises|].
  destruct (proj1 (FlatMap_forwards_one_event_per_element sink
                     (Flow.to (Flow.__init__ "FlatMap" Flow.no_kwargs) 0%nat) twice
                     first_non_none [int_event 1; int_event 2] [] tt
                     sink_never_raises eq_refl))
    as (r & d' & Hfeed).
  destruct d'. exact (f_equal snd Hfeed).
Defined.

(** ** Choice with conditions that may raise *)

Lemma choose_skips_declining (element : val)
    (pre rest : list (nat * (val → result val))) :
  Forall (declines element) pre →
  Choice.choose (pre ++ rest) element = Choice.choose rest element.
Proof.
  induction 1 as [|[o p] pre (c & Hc & Hfalsy) _ IH]; [reflexivity|].
  simpl in *. rewrite Hc, Hfalsy. exact IH.
Qed.

Lemma Choice_outlets_nonempty (pre post : list (nat * (val → result val)))
    (o : nat) (p : val → result val) (default : option nat) (kw : Flow.kwargs) :
  ∃ o0 outs,
    Flow._outlets (Choice.base (Choice.__init__ (pre ++ (o, p) :: post) default kw)) =
    o0 :: outs.
Proof.
  unfold Choice.__init__. cbn [Choice.base Flow.with_outlets Flow._outlets].
  destruct pre as [|[o' p'] pre]; destruct default; simpl; eauto.
Qed.

(** X5.  Choice evaluates its conditions in list order and stops at the
    first that holds: the event goes to the outlet of that condition
    whatever the later conditions would do, even raise.  A condition that
    raises before any has held makes [_do] raise with no outlet called. *)
Theorem Choice_stops_at_first_match {W : Type}
    (beh : nat → msg → W → result val * W)
    (pre post : list (nat * (val → result val))) (o : nat) (p : val → result val)
    (default : option nat) (kw : Flow.kwargs) (e : Event) (w : Flow.world W) :
  let self := Choice.__init__ (pre ++ (o, p) :: post) default kw in
  let element := element_of (Flow.kw_full_event kw) e in
  Forall (declines element) pre →
  (∀ c : val,
      p element = Ok c → truthy c = true →
      Choice._do beh self (Ev (VEvent e)) w =
      let '(r, d1) := beh o (Ev (VEvent e)) (Flow.down w) in
      (match r with Ok _ => Ok VNone | Raise ex => Raise ex end,
       Flow.mk_world (Flow.trace w ++ [Called o (Ev (VEvent e))]) d1))
  ∧ (∀ ex : exn,
      p element = Raise ex →
      Choice._do beh self (Ev (VEvent e)) w = (Raise ex, w)).
Proof.
  intros self element Hpre.
  destruct (Choice_outlets_nonempty pre post o p default kw) as (o0 & outs & Houts).
  fold self in Houts.
  assert (Hel : Flow._get_safe_event_or_body (Choice.base self) (VEvent e) = Ok element).
  { subst self element. unfold Flow._get_safe_event_or_body, element_of; simpl.
    destruct (Flow.kw_full_event kw); reflexivity. }
  assert (Hdo : Choice._do beh self (Ev (VEvent e)) w =
                (chosen_outlet ← lift (Choice.choose ((o, p) :: post) element);
                 match chosen_outlet with
                 | Some outlet => _ ← Flow.call_do beh outlet (Ev (VEvent e)); mret VNone
                 | None =>
                     match default with
                     | Some dflt => _ ← Flow.call_do beh dflt (Ev (VEvent e)); mret VNone
                     | None => mret VNone
                     end
                 end) w).
  { unfold Choice._do. rewrite Houts, Hel.
    unfold mbind at 1, M_bind at 1, lift at 1.
    replace (Choice._choice_array self) with (pre ++ (o, p) :: post) by reflexivity.
    rewrite (choose_skips_declining element pre _ Hpre). reflexivity. }
  rewrite Hdo. cbn [Choice.choose]. split.
  - intros c Hc Htruthy. rewrite Hc, Htruthy. unfold_M. unfold Flow.call_do.
    destruct (beh o (Ev (VEvent e)) (Flow.down w)) as [[r|ex] d1]; reflexivity.
  - intros ex Hex. rewrite Hex. reflexivity.
Qed.

Lemma Choice_stops_at_first_match_witness :
  Forall (declines (VInt 2)) [(0%nat, never_holds)]
  ∧ Choice._do sink
      (Choice.__init__ [(0%nat, never_holds); (1%nat, always_holds);
                        (2%nat, raising_condition)] None Flow.no_kwargs)
      (Ev (VEvent (int_event 2))) (Flow.mk_world [] tt) =
    (Ok VNone, Flow.mk_world [Called 1 (Ev (VEvent (int_event 2)))] tt)
  ∧ Choice._do sink
      (Choice.__init__ [(0%nat, never_holds); (2%nat, raising_condition);
                        (1%nat, always_holds)] None Flow.no_kwargs)
      (Ev (VEvent (int_event 2))) (Flow.mk_world [] tt) =
    (Raise (UserError 2), Flow.mk_world [] tt).
Proof.
  assert (Hpre : Forall (declines (VInt 2)) [(0%nat, never_holds)]).
  { apply List.Forall_cons; [|apply List.Forall_nil].
    exists (VBool false). split; reflexivity. }
  split; [exact Hpre|]. split.
  - exact (proj1 (Choice_stops_at_first_match sink [(0%nat, never_holds)]
                    [(2%nat, raising_condition)] 1%nat always_holds None Flow.no_kwargs
                    (int_event 2) (Flow.mk_world [] tt) Hpre)
             (VBool true) eq_refl eq_refl).
  - exact (proj2 (Choice_stops_at_first_match sink [(0%nat, never_holds)]
                    [(1%nat, always_holds)] 2%nat raising_condition None Flow.no_kwargs
                    (int_event 2) (Flow.mk_world [] tt) Hpre)
             (UserError 2) eq_refl).
Defined.

(** ** Context *)



(** ** Dicts *)

Lemma dict_lookup_store_eq (k : string) (v : val) (d : list (string * val)) :
  dict_lookup k (dict_store k v d) = Ok v.
Proof.
  induction d as [|[k' v'] d IH]; simpl.
  - rewrite String.eqb_refl. reflexivity.
  - destruct (String.eqb k' k) eqn:Hk; simpl; rewrite Hk; [reflexivity|exact IH].
Qed.

Lemma dict_lookup_store_ne (k k' : string) (v : val) (d : list (string * val)) :
  k ≠ k' → dict_lookup k' (dict_store k v d) = dict_lookup k' d.
Proof.
  intros Hne. induction d as [|[k0 v0] d IH]; simpl.
  - destruct (String.eqb k k') eqn:Hk; [apply String.eqb_eq in Hk; contradiction|reflexivity].
  - destruct (String.eqb k0 k) eqn:Hk0; simpl.
    + apply String.eqb_eq in Hk0. subst k0.
      destruct (String.eqb k k') eqn:Hk; [apply String.eqb_eq in Hk; contradiction|].
      reflexivity.
    + destruct (String.eqb k0 k'); [reflexivity|exact IH].
Qed.

Lemma store_all_other (k : string) (items : list (string * val)) :
  ∀ d : list (string * val),
    k ∉ map fst items → dict_lookup k (store_all items d) = dict_lookup k d.
Proof.
  unfold store_all. induction items as [|[k0 v0] items IH]; intros d Hk; [reflexivity|].
  cbn [fold_left fst snd]. cbn [map fst] in Hk. apply not_elem_of_cons in Hk as [Hne Hk].
  rewrite IH by exact Hk. apply dict_lookup_store_ne. congruence.
Qed.

Lemma store_all_item (k : string) (v : val) (items : list (string * val)) :
  ∀ d : list (string * val),
    NoDup (map fst items) → (k, v) ∈ items → dict_lookup k (store_all items d) = Ok v.
Proof.
  unfold store_all. induction items as [|[k0 v0] items IH]; intros d Hnodup Hin.
  - inversion Hin.
  - cbn [fold_left fst snd]. cbn [map fst] in Hnodup.
    apply NoDup_cons in Hnodup as [Hfresh Hnodup].
    apply elem_of_cons in Hin as [[= -> ->]|Hin].
    + fold (store_all items (dict_store k0 v0 d)).
      rewrite store_all_other by exact Hfresh. apply dict_lookup_store_eq.
    + apply IH; assumption.
Qed.

(** ** Extend *)

Lemma Extend_store_items (e : Event) (items : list (string * val)) :
  ∀ d : list (string * val),
    body e = VDict d →
    Extend.store_items (VEvent e) items = Ok (with_body e (VDict (store_all items d))).
Proof.
  revert e. induction items as [|[k v] items IH]; intros e d Hbody.
  - simpl. unfold with_body. rewrite <- Hbody. destruct e; reflexivity.
  - cbn [Extend.store_items]. unfold mbind, result_bind. cbn [attr_body].
    rewrite Hbody. cbn [set_item set_body].
    rewrite (IH (mkEvent (VDict (dict_store k v d)) (key e) (time e) (_awaitable_result e))
               (dict_store k v d) eq_refl).
    reflexivity.
Qed.



(** ** MapWithState *)

Section MapWithStateFacts.
Context {W : Type}.
Variable beh : nat → msg → W → result val * W.

Lemma MapWithState_do_event (b : Flow.t) (f : val → val → val * val) (st : val)
    (e : Event) (w : Flow.world W) :
  MapWithState._do beh (Ev (VEvent e))
    (MapWithState.mk b st (pure_stateful f) false, w) =
  let out := f (element_of (Flow._full_event b) e) st in
  let '(r, w1) :=
    Flow._do_downstream beh b (Ev (derived_event (Flow._full_event b) e (fst out))) w in
  (match r with Ok _ => Ok VNone | Raise ex => Raise ex end,
   (MapWithState.mk b (snd out) (pure_stateful f) false, w1)).
Proof.
  unfold MapWithState._do, MapWithState._call, MapWithState._do_internal,
    Flow._get_safe_event_or_body, Flow._user_fn_output_to_event, derived_event,
    element_of, with_body, copy, pure_stateful.
  unfold_M. unfold MapWithState.set_state. simpl.
  destruct (Flow._full_event b) eqn:Hfe; simpl; rewrite ?Hfe; simpl;
    destruct (Flow._do_downstream beh b _ w) as [[r|ex] w1]; reflexivity.
Qed.

Lemma MapWithState_feed (b : Flow.t) (f : val → val → val * val) (g : val → val → val)
    (es : list Event) :
  never_raises beh →
  Flow._termination_result_fn b = pure2 g →
  ∀ (st : val) (tr : list obs) (d : W) (last : val),
    ∃ (r : val) (d' : W),
      feed (MapWithState._do beh) (map (λ e, Ev (VEvent e)) es ++ [Termination]) last
        (MapWithState.mk b st (pure_stateful f) false, Flow.mk_world tr d) =
      (Ok r,
       (MapWithState.mk b (final_state (Flow._full_event b) f st es) (pure_stateful f) false,
        Flow.mk_world
          (tr ++ forwarded (Flow._outlets b) (threaded (Flow._full_event b) f st es) ++
           map (λ o, Called o Termination) (Flow._outlets b))
          d')).
Proof.
  intros Htotal Hfn. induction es as [|e es IH]; intros st tr d last.
  - destruct (do_downstream_termination_total beh Htotal b g tr d Hfn) as (r & d' & Hdown).
    exists r, d'. cbn [map app feed]. unfold mbind at 1, M_bind at 1.
    unfold MapWithState._do. unfold_M. cbn [MapWithState.base]. rewrite Hdown. reflexivity.
  - destruct (do_downstream_event_total beh Htotal b
                (derived_event (Flow._full_event b) e
                   (fst (f (element_of (Flow._full_event b) e) st))) tr d) as [d1 Hdown].
    destruct (IH (snd (f (element_of (Flow._full_event b) e) st))
                (tr ++ map (λ o, Called o (Ev (derived_event (Flow._full_event b) e
                       (fst (f (element_of (Flow._full_event b) e) st)))))
                         (Flow._outlets b)) d1 VNone) as (r & d' & Hrest).
    exists r, d'. cbn [map app feed]. unfold mbind at 1, M_bind at 1.
    rewrite MapWithState_do_event. cbv zeta. rewrite Hdown, Hrest.
    cbn [threaded final_state fold_left]. unfold forwarded. cbn [map concat].
    rewrite <- !app_assoc. reflexivity.
Qed.

End MapWithStateFacts.

(** X8.  MapWithState without grouping threads its state through the run:
    each input is mapped with the state the inputs before it left, the event
    handed on carries the first component of what the function returned (as
    its body, or as the event under [full_event]), and the state after the
    run is the fold of the second components.  One event is handed on per
    input, in input order, and the sentinel after them. *)
Theorem MapWithState_threads_its_state {W : Type}
    (beh : nat → msg → W → result val * W) (b : Flow.t) (f : val → val → val * val)
    (g : val → val → val) (st : val) (es : list Event) (tr : list obs) (d : W) :
  never_raises beh →
  Flow._termination_result_fn b = pure2 g →
  ∃ (r : val) (d' : W),
    feed (MapWithState._do beh) (map (λ e, Ev (VEvent e)) es ++ [Termination]) VNone
      (MapWithState.mk b st (pure_stateful f) false, Flow.mk_world tr d) =
    (Ok r,
     (MapWithState.mk b (final_state (Flow._full_event b) f st es) (pure_stateful f) false,
      Flow.mk_world
        (tr ++ forwarded (Flow._outlets b) (threaded (Flow._full_event b) f st es) ++
         map (λ o, Called o Termination) (Flow._outlets b))
        d')).
Proof.
  intros Htotal Hfn. exact (MapWithState_feed beh b f g es Htotal Hfn st tr d VNone).
Qed.

Lemma MapWithState_threads_its_state_witness :
  never_raises sink
  ∧ snd (feed (MapWithState._do sink)
           [Ev (VEvent (int_event 1)); Ev (VEvent (int_event 2));
            Ev (VEvent (int_event 3)); Termination] VNone
           (MapWithState.mk (Flow.to (Flow.__init__ "MapWithState" Flow.no_kwargs) 0%nat)
              (VInt 0) (pure_stateful running_sum) false,
            Flow.mk_world [] tt)) =
    (MapWithState.mk (Flow.to (Flow.__init__ "MapWithState" Flow.no_kwargs) 0%nat)
       (VInt 6) (pure_stateful running_sum) false,
     Flow.mk_world
       [Called 0 (Ev (VEvent (int_event 1))); Called 0 (Ev (VEvent (int_event 3)));
        Called 0 (Ev (VEvent (int_event 6))); Called 0 Termination] tt).
Proof.
  split; [exact sink_never_raises|].
  destruct (MapWithState_threads_its_state sink
              (Flow.to (Flow.__init__ "MapWithState" Flow.no_kwargs) 0%nat) running_sum
              first_non_none (VInt 0) [int_event 1; int_event 2; int_event 3] [] tt
              sink_never_raises eq_refl) as (r & d' & Hfeed).
  destruct d'. exact (f_equal snd Hfeed).
Defined.

(** X9.  MapWithState grouped by key, with a dict keyed by strings as
    state, hands the function the entry of the event's key and writes what
    the function returns back to that entry alone: the other keys of the
    state read as before.  An event whose key is a string with no entry in
    the dict raises KeyError; the state stays as it was and nothing is
    handed on. *)
Theorem MapWithState_by_key_touches_one_entry {W : Type}
    (beh : nat → msg → W → result val * W) (b : Flow.t) (f : val → val → val * val)
    (sd : list (string * val)) (e : Event) (k : string) (key_data : val)
    (w : Flow.world W) :
  key e = Some k →
  dict_lookup k sd = Ok key_data →
  let out := f (element_of (Flow._full_event b) e) key_data in
  MapWithState._do beh (Ev (VEvent e))
    (MapWithState.mk b (VDict sd) (pure_stateful f) true, w) =
    (let '(r, w1) :=
       Flow._do_downstream beh b (Ev (derived_event (Flow._full_event b) e (fst out))) w in
     (match r with Ok _ => Ok VNone | Raise ex => Raise ex end,
      (MapWithState.mk b (VDict (dict_store k (snd out) sd)) (pure_stateful f) true, w1)))
  ∧ dict_lookup k (dict_store k (snd out) sd) = Ok (snd out)
  ∧ (∀ k', k ≠ k' → dict_lookup k' (dict_store k (snd out) sd) = dict_lookup k' sd)
  ∧ (∀ (e' : Event) (k' : string) (ex : exn),
        key e' = Some k' →
        dict_lookup k' sd = Raise ex →
        MapWithState._do beh (Ev (VEvent e'))
          (MapWithState.mk b (VDict sd) (pure_stateful f) true, w) =
        (Raise (KeyError k'), (MapWithState.mk b (VDict sd) (pure_stateful f) true, w))).
Proof.
  intros Hkey Hlookup out.
  assert (Hel : ∀ e0 : Event,
            Flow._get_safe_event_or_body b (VEvent e0) =
            Ok (element_of (Flow._full_event b) e0)).
  { intros e0. unfold Flow._get_safe_event_or_body, element_of, copy.
    destruct (Flow._full_event b); reflexivity. }
  split; [|split; [|split]].
  - unfold MapWithState._do, MapWithState._call, MapWithState._do_internal,
      Flow._user_fn_output_to_event, derived_event, with_body, copy, pure_stateful.
    unfold_M. cbn [MapWithState.base MapWithState._group_by_key MapWithState._fn
                   MapWithState._state attr_key].
    assert (Hentry : MapWithState.state_entry (VDict sd) (key e) =
                     Ok (key_data, λ v, VDict (dict_store k v sd))).
    { rewrite Hkey. unfold MapWithState.state_entry. rewrite Hlookup. reflexivity. }
    rewrite Hel, Hentry.
    cbn [MapWithState.set_state MapWithState.base fst snd
         MapWithState._fn MapWithState._group_by_key].
    subst out. destruct (Flow._full_event b) eqn:Hfe; simpl; rewrite ?Hfe; simpl;
      destruct (Flow._do_downstream beh b _ w) as [[r|ex] w1]; reflexivity.
  - apply dict_lookup_store_eq.
  - intros k' Hne. apply dict_lookup_store_ne. exact Hne.
  - intros e' k' ex Hkey' Hmissing.
    assert (Hex : ex = KeyError k').
    { clear -Hmissing. induction sd as [|[k0 v0] sd IH]; simpl in Hmissing.
      - congruence.
      - destruct (String.eqb k0 k'); [discriminate|auto]. }
    subst ex.
    unfold MapWithState._do, MapWithState._call. unfold_M.
    cbn [MapWithState.base MapWithState._group_by_key MapWithState._state attr_key].
    rewrite Hel, Hkey'. unfold MapWithState.state_entry. rewrite Hmissing. reflexivity.
Qed.

Lemma MapWithState_by_key_touches_one_entry_witness :
  key (dict_event [] (Some "a"%string)) = Some "a"%string
  ∧ dict_lookup "a" [("a"%string, VInt 0); ("b"%string, VInt 7)] = Ok (VInt 0)
  ∧ snd (MapWithState._do sink (Ev (VEvent (mkEvent (VInt 5) (Some "a"%string) None None)))
           (MapWithState.mk (Flow.to (Flow.__init__ "MapWithState" Flow.no_kwargs) 0%nat)
              (VDict [("a"%string, VInt 0); ("b"%string, VInt 7)])
              (pure_stateful running_sum) true,
            Flow.mk_world [] tt)) =
    (MapWithState.mk (Flow.to (Flow.__init__ "MapWithState" Flow.no_kwargs) 0%nat)
       (VDict [("a"%string, VInt 5); ("b"%string, VInt 7)])
       (pure_stateful running_sum) true,
     Flow.mk_world [Called 0 (Ev (VEvent (mkEvent (VInt 5) (Some "a"%string) None None)))] tt).
Proof.
  split; [reflexivity|]. split; [reflexivity|].
  exact (f_equal snd
           (proj1 (MapWithState_by_key_touches_one_entry sink
                     (Flow.to (Flow.__init__ "MapWithState" Flow.no_kwargs) 0%nat)
                     running_sum [("a"%string, VInt 0); ("b"%string, VInt 7)]
                     (mkEvent (VInt 5) (Some "a"%string) None None) "a" (VInt 0)
                     (Flow.mk_world [] tt) eq_refl eq_refl))).
Defined.

(** ** build_flow on flat lists, and what it leaves of the edges *)

Lemma build_loop_flat (xs : list nat) :
  ∀ (cur : item) (h : heap),
    build_loop cur (map Step xs) h = (_ ← pipe cur (map Step xs); mret tt) h.
Proof.
  induction xs as [|x xs IH]; intros cur h; [reflexivity|].
  cbn [map build_loop pipe]. unfold mbind, M_bind.
  destruct (to cur (Step x) h) as [[next|ex] h1] eqn:Hto; [|reflexivity].
  assert (next = Step x) as ->.
  { apply to_attach in Hto as [-> _]. reflexivity. }
  rewrite IH. reflexivity.
Qed.

Lemma last_cons_default {A} (x d : A) (xs : list A) :
  List.last (x :: xs) d = List.last xs x.
Proof.
  revert x d. induction xs as [|y xs IH]; intros x d; [reflexivity|].
  change (List.last (x :: y :: xs) d) with (List.last (y :: xs) d).
  rewrite (IH y d), (IH y x). reflexivity.
Qed.

Lemma pipe_distinct (xs : list nat) :
  ∀ (cur : nat) (h : heap),
    (∀ s, is_reduce h s = false) →
    NoDup (cur :: xs) →
    (∀ s, s ∈ cur :: xs → outlets_of h s = []) →
    ∃ h' : heap,
      pipe (Step cur) (map Step xs) h = (Ok (Step (List.last xs cur)), h')
      ∧ (∀ i s s', (cur :: xs) !! i = Some s → (cur :: xs) !! S i = Some s' →
                   outlets_of h' s = [Step s'])
      ∧ outlets_of h' (List.last xs cur) = []
      ∧ (∀ s, s ∉ cur :: xs → outlets_of h' s = outlets_of h s).
Proof.
  induction xs as [|x xs IH]; intros cur h Hred Hnodup Hempty.
  - exists h. split; [reflexivity|]. split; [|split].
    + intros i s s' _ Hnext. destruct i; discriminate.
    + apply Hempty. left.
    + reflexivity.
  - apply NoDup_cons in Hnodup as [Hcur Hnodup].
    assert (Hne : cur ≠ x) by (intros ->; apply Hcur; left).
    destruct (IH x (append_outlet cur (Step x) h)) as (h' & Hpipe & Hedges & Hlast & Hother).
    { intros s. apply Hred. }
    { exact Hnodup. }
    { intros s Hs. rewrite outlets_of_append_ne.
      - apply Hempty. right. exact Hs.
      - intros ->. apply Hcur. exact Hs. }
    exists h'. rewrite last_cons_default. split; [|split; [|split]].
    + cbn [map pipe]. unfold mbind at 1, M_bind at 1.
      rewrite to_step_ok by apply Hred. exact Hpipe.
    + intros i s s' Hs Hs'. destruct i as [|i].
      * cbn in Hs, Hs'. injection Hs as <-. injection Hs' as <-.
        rewrite Hother by exact Hcur.
        rewrite outlets_of_append_eq, Hempty by left. reflexivity.
      * apply (Hedges i); assumption.
    + exact Hlast.
    + intros s Hs. apply not_elem_of_cons in Hs as [Hs1 Hs2].
      rewrite Hother by exact Hs2. apply outlets_of_append_ne. congruence.
Qed.

(** X10.  On a flat list of steps [build_flow] is the chain
    [step1.to(step2).to(step3)...] of the docstring, errors included, and
    returns the first step.  When the steps are distinct, none is a Reduce
    step and none has an outlet yet, each step ends up with its successor in
    the list as its only outlet and the last step with none, and no other
    step is touched. *)
Theorem build_flow_flat_list_is_a_chain (first : nat) (rest : list nat) (h : heap) :
  build_flow (map Step (first :: rest)) h =
    (_ ← pipe (Step first) (map Step rest); mret (Step first)) h
  ∧ ((∀ s, is_reduce h s = false) →
     NoDup (first :: rest) →
     (∀ s, s ∈ first :: rest → outlets_of h s = []) →
     ∃ h' : heap,
       build_flow (map Step (first :: rest)) h = (Ok (Step first), h')
       ∧ (∀ i s s', (first :: rest) !! i = Some s → (first :: rest) !! S i = Some s' →
                    outlets_of h' s = [Step s'])
       ∧ outlets_of h' (List.last rest first) = []
       ∧ (∀ s, s ∉ first :: rest → outlets_of h' s = outlets_of h s)).
Proof.
  assert (Heq : build_flow (map Step (first :: rest)) h =
                (_ ← pipe (Step first) (map Step rest); mret (Step first)) h).
  { cbn [map]. rewrite build_flow_cons. unfold mbind at 1 2, M_bind at 1 2.
    rewrite build_loop_flat. unfold mbind at 1, M_bind at 1.
    destruct (pipe (Step first) (map Step rest) h) as [[x|ex] h1]; reflexivity. }
  split; [exact Heq|].
  intros Hred Hnodup Hempty.
  destruct (pipe_distinct rest first h Hred Hnodup Hempty)
    as (h' & Hpipe & Hedges & Hlast & Hother).
  exists h'. split; [|split; [|split]]; try assumption.
  rewrite Heq. unfold mbind, M_bind. rewrite Hpipe. reflexivity.
Qed.

Lemma build_flow_flat_list_is_a_chain_witness :
  NoDup [0; 1; 2]%nat
  ∧ ∃ h' : heap,
      build_flow [Step 0; Step 1; Step 2] no_edges = (Ok (Step 0), h')
      ∧ outlets_of h' 0 = [Step 1]
      ∧ outlets_of h' 1 = [Step 2]
      ∧ outlets_of h' 2 = [].
Proof.
  assert (Hnodup : NoDup [0; 1; 2]%nat).
  { apply NoDup_cons. split.
    - intros Hin. apply elem_of_cons in Hin as [Hin|Hin]; [discriminate|].
      apply list_elem_of_singleton in Hin. discriminate.
    - apply NoDup_cons. split; [|apply NoDup_singleton].
      intros Hin. apply list_elem_of_singleton in Hin. discriminate. }
  split; [exact Hnodup|].
  destruct (proj2 (build_flow_flat_list_is_a_chain 0%nat [1; 2]%nat no_edges)
              (λ _, eq_refl) Hnodup (λ _ _, eq_refl))
    as (h' & Hbuild & Hedges & Hlast & _).
  exists h'. split; [exact Hbuild|]. split; [|split].
  - exact (Hedges 0%nat 0%nat 1%nat eq_refl eq_refl).
  - exact (Hedges 1%nat 1%nat 2%nat eq_refl eq_refl).
  - exact Hlast.
Defined.

Lemma extends_edges_refl (h : heap) : extends_edges h h.
Proof. split; [reflexivity|]. intros s. reflexivity. Qed.

Lemma extends_edges_trans (h1 h2 h3 : heap) :
  extends_edges h1 h2 → extends_edges h2 h3 → extends_edges h1 h3.
Proof.
  intros [Hr12 Hp12] [Hr23 Hp23]. split; [congruence|].
  intros s. etransitivity; [apply Hp12|apply Hp23].
Qed.

Lemma only_extends_bind {A B} (m : M heap A) (k : A → M heap B) :
  only_extends m → (∀ a, only_extends (k a)) → only_extends (m ≫= k).
Proof.
  intros Hm Hk h. unfold mbind, M_bind. specialize (Hm h).
  destruct (m h) as [[a|ex] h1]; simpl in *; [|exact Hm].
  eapply extends_edges_trans; [exact Hm|apply Hk].
Qed.

Lemma only_extends_ret {A} (a : A) : only_extends (mret a : M heap A).
Proof. intros h. apply extends_edges_refl. Qed.

Lemma only_extends_lookup_to (cur : item) : only_extends (lookup_to cur).
Proof. intros h. destruct cur; apply extends_edges_refl. Qed.

Lemma extends_edges_append (s : nat) (outlet : item) (h : heap) :
  extends_edges h (append_outlet s outlet h).
Proof.
  split; [reflexivity|]. intros s'. destruct (decide (s = s')) as [->|Hne].
  - rewrite outlets_of_append_eq. apply prefix_app_r. reflexivity.
  - rewrite outlets_of_append_ne by exact Hne. reflexivity.
Qed.

Lemma only_extends_to (cur outlet : item) : only_extends (to cur outlet).
Proof.
  intros h. destruct cur as [s|l]; unfold to, lookup_to; unfold_M; simpl.
  - destruct (is_reduce h s); simpl;
      [apply extends_edges_refl|apply extends_edges_append].
  - apply extends_edges_refl.
Qed.

Lemma build_loop_only_extends (rest : list item) :
  Forall builds_by_extending rest → ∀ cur : item, only_extends (build_loop cur rest).
Proof.
  induction 1 as [|next rest Hnext _ IH]; intros cur.
  - apply only_extends_ret.
  - destruct next as [s|sub].
    + change (build_loop cur (Step s :: rest))
        with (_ ← to cur (Step s); build_loop (Step s) rest).
      apply only_extends_bind; [apply only_extends_to|intros _; apply IH].
    + change (build_loop cur (Nested sub :: rest))
        with (_ ← lookup_to cur; head ← build_flow sub; _ ← to cur head;
              build_loop cur rest).
      apply only_extends_bind; [apply only_extends_lookup_to|intros _].
      apply only_extends_bind; [exact Hnext|intros head].
      apply only_extends_bind; [apply only_extends_to|intros _; apply IH].
Qed.

Lemma build_flow_only_extends (steps : list item) : builds_by_extending (Nested steps).
Proof.
  apply (item_nested_ind builds_by_extending); [exact (λ _, I)|].
  clear steps. intros steps Hall. simpl. destruct steps as [|first rest].
  - intros h. apply extends_edges_refl.
  - intros h. rewrite build_flow_cons. apply Forall_cons in Hall as [_ Hrest].
    revert h. apply only_extends_bind; [|intros _; apply only_extends_ret].
    apply build_loop_only_extends. exact Hrest.
Qed.

(** X11.  [build_flow] only ever appends outlets: whatever list it is
    given, and whether it returns or raises half way, every step keeps the
    outlets it had, in their order, with the new ones after them.  A build
    that fails leaves the edges it had made. *)
Theorem build_flow_only_appends_outlets (steps : list item) (h : heap) (s : nat) :
  ∃ added : list item,
    outlets_of (snd (build_flow steps h)) s = outlets_of h s ++ added.
Proof.
  destruct (build_flow_only_extends steps h) as [_ Hprefix].
  destruct (Hprefix s) as [added Hadded]. exists added. exact Hadded.
Qed.

(** A build that fails half way: the second step is a Reduce step, so
    attaching the third raises, after the first edge was made. *)
Example build_flow_partial_failure :
  ∃ h, build_flow [Step 0; Step 1; Step 2] (mk_heap (λ s, Nat.eqb s 1) ∅) =
         (Raise (ValueError "Reduce is a terminal step. It cannot be piped further."), h)
       ∧ outlets_of h 0 = [Step 1].
Proof. eexists. split; [vm_compute; reflexivity|]. reflexivity. Qed.

(** ** _ConcurrentJobExecution under any schedule *)

Section JobRunFacts.
Context {W : Type}.
Variable beh : nat → msg → W → result val * W.
Variable _lazy_init : M (Flow.world W) unit.
Variable _process_event : val → result val.
Variable _handle_completed : val → val → M (Flow.world W) unit.
Variable _cleanup : M (Flow.world W) unit.
Variable b : Flow.t.
Variable es : list val.
Variable w0 : Flow.world W.
Hypothesis events_complete :
  Forall (JobRun.completes _process_event _handle_completed) es.
Hypothesis cleanup_total : ∀ w, fst (_cleanup w) = Ok tt.

Lemma handled_snoc (done : list val) (event : val) (w : Flow.world W) :
  JobRun.handled _process_event _handle_completed (done ++ [event]) w =
  JobRun.handle_one _process_event _handle_completed
    (JobRun.handled _process_event _handle_completed done w) event.
Proof. unfold JobRun.handled. rewrite fold_left_app. reflexivity. Qed.

Lemma jobs_head_event (todo : list val) (event : val) (task : result val) (rest : list job) :
  map (JobRun.msg_job _process_event) (map Ev todo ++ [Termination]) =
    JEvent event task :: rest →
  ∃ todo', todo = event :: todo' ∧ task = _process_event event ∧
           rest = map (JobRun.msg_job _process_event) (map Ev todo' ++ [Termination]).
Proof.
  destruct todo as [|e todo']; simpl; intros H; [discriminate|].
  injection H as <- <- <-. eauto.
Qed.

Lemma jobs_head_termination (todo : list val) (rest : list job) :
  map (JobRun.msg_job _process_event) (map Ev todo ++ [Termination]) =
    JTermination :: rest →
  todo = [] ∧ rest = [].
Proof.
  destruct todo as [|e todo']; simpl; intros H; [|discriminate].
  injection H as <-. auto.
Qed.

Lemma worker_get_invariant (s : JobRun.sys W) :
  JobRun.invariant beh _process_event _handle_completed _cleanup b es w0 s →
  JobRun.invariant beh _process_event _handle_completed _cleanup b es w0
    (JobRun.act beh _lazy_init _process_event _handle_completed _cleanup JobRun.WorkerGet s).
Proof.
  destruct s as [[bs mx q ws] w rem pend out].
  unfold JobRun.invariant, JobRun.act, JobRun.with_engine,
    _ConcurrentJobExecution.worker_get, _ConcurrentJobExecution.queue; simpl.
  intros (Hb & Hq & H).
  destruct ws as [[| event task | j | r]|]; try (repeat split; assumption).
  (* the worker is suspended in get *)
  destruct q as [[|j rest]|]; simpl; try (repeat split; assumption).
  destruct out as [r|]; [destruct H; discriminate|].
  destruct H as (done & todo & Hes & Hw & Hjobs & Hpend).
  simpl in Hjobs.
  destruct j as [|event task]; simpl.
  - apply jobs_head_termination in Hjobs as [-> Hnil].
    apply app_eq_nil in Hnil as [-> Hnil]. apply app_eq_nil in Hnil as [Hbl Hrem].
    rewrite app_nil_r in Hes; subst done.
    unfold _ConcurrentJobExecution.worker_finally, _ConcurrentJobExecution.set_worker,
      _ConcurrentJobExecution.set_q; simpl.
    pose proof (cleanup_total w) as Hc.
    destruct (_cleanup w) as [[[]|ex] w1] eqn:Hcl; simpl in Hc; [|discriminate].
    simpl. split; [assumption|]. split; [discriminate|].
    split; [rewrite <- Hw, Hcl; reflexivity|].
    destruct pend as [[m [j|]]|]; simpl in *.
    + discriminate.
    + destruct Hpend as [-> _]. reflexivity.
    + exfalso. apply Hpend, list_elem_of_here.
  - apply jobs_head_event in Hjobs as (todo' & -> & -> & Hrest).
    split; [assumption|]. split; [discriminate|].
    exists done, (event :: todo'). split; [assumption|]. split; [assumption|].
    split; [simpl; f_equal; symmetry; exact Hrest|].
    destruct pend as [[m [j|]]|]; simpl in *.
    + destruct Hpend as [Hj Hn]. split; [assumption|].
      intros Hin. apply Hn. now apply list_elem_of_further.
    + destruct Hpend as [Hm Hin]. split; [assumption|].
      apply elem_of_cons in Hin as [Hin|Hin]; [discriminate | assumption].
    + intros Hin. apply Hpend. now apply list_elem_of_further.
Qed.

Lemma worker_complete_invariant (s : JobRun.sys W) :
  JobRun.invariant beh _process_event _handle_completed _cleanup b es w0 s →
  JobRun.invariant beh _process_event _handle_completed _cleanup b es w0
    (JobRun.act beh _lazy_init _process_event _handle_completed _cleanup
       JobRun.WorkerComplete s).
Proof.
  destruct s as [[bs mx q ws] w rem pend out].
  unfold JobRun.invariant, JobRun.act, JobRun.with_engine,
    _ConcurrentJobExecution.worker_complete, _ConcurrentJobExecution.queue; simpl.
  intros (Hb & Hq & H).
  destruct ws as [[| event task | j | r]|]; try (repeat split; assumption).
  destruct out as [r|]; [destruct H; discriminate|].
  destruct H as (done & todo & Hes & Hw & Hjobs & Hpend).
  simpl in Hjobs.
  apply jobs_head_event in Hjobs as (todo' & -> & -> & Hrest).
  assert (Hev : JobRun.completes _process_event _handle_completed event).
  { rewrite Forall_forall in events_complete. apply events_complete.
    rewrite Hes. apply elem_of_app; right. apply list_elem_of_here. }
  destruct Hev as (completed & Hcall & Hhandle).
  rewrite Hcall.
  pose proof (Hhandle w) as Ht.
  destruct (_handle_completed event completed w) as [[[]|ex] w1] eqn:Hh;
    simpl in Ht; [|discriminate].
  simpl. split; [assumption|]. split; [assumption|].
  exists (done ++ [event]), todo'.
  split; [rewrite <- app_assoc; exact Hes|].
  split; [rewrite handled_snoc, <- Hw; unfold JobRun.handle_one;
          rewrite Hcall, Hh; reflexivity|].
  split; [symmetry; exact Hrest|].
  exact Hpend.
Qed.

Lemma put_invariant (mx : Z) (q : list job) (ws : worker_state) (m : msg)
    (rest : list msg) (done todo : list val) :
  match ws with Waiting | Handling _ _ => True | _ => False end →
  es = done ++ todo →
  map (JobRun.msg_job _process_event) (map Ev todo ++ [Termination]) =
    JobRun.inflight (Some ws) ++ q ++ [JobRun.msg_job _process_event m] ++
    map (JobRun.msg_job _process_event) rest →
  JTermination ∉ q →
  JobRun.invariant beh _process_event _handle_completed _cleanup b es w0
    (JobRun.settle m
       (_ConcurrentJobExecution.put_then_continue beh (JobRun.msg_job _process_event m)
          (_ConcurrentJobExecution.mk b mx (Some q) (Some ws),
           JobRun.handled _process_event _handle_completed done w0))
       rest).
Proof.
  intros Hws Hes Hjobs Hq.
  unfold _ConcurrentJobExecution.put_then_continue, _ConcurrentJobExecution.queue; simpl.
  destruct (queue_full mx q).
  - unfold JobRun.invariant; simpl.
    split; [reflexivity|]. split; [discriminate|].
    destruct ws; try contradiction;
      (exists done, todo; repeat split; [assumption | exact Hjobs | assumption]).
  - destruct m as [|event]; simpl.
    + destruct ws; try contradiction; simpl;
        (split; [reflexivity|]; split; [discriminate|];
         exists done, todo; split; [assumption|]; split; [reflexivity|];
         split;
         [ unfold _ConcurrentJobExecution.queue; simpl; rewrite Hjobs;
           simpl; rewrite <- ?app_assoc; reflexivity
         | split; [reflexivity|];
           unfold _ConcurrentJobExecution.queue; simpl;
           apply elem_of_app; right; apply list_elem_of_here ]).
    + destruct ws; try contradiction; simpl;
        (split; [reflexivity|]; split; [discriminate|];
         exists done, todo; split; [assumption|]; split; [reflexivity|];
         split;
         [ unfold _ConcurrentJobExecution.queue; simpl; rewrite Hjobs;
           simpl; rewrite <- ?app_assoc; reflexivity
         | unfold _ConcurrentJobExecution.queue; simpl;
           intros Hin; apply elem_of_app in Hin as [Hin|Hin];
           [ exact (Hq Hin)
           | apply list_elem_of_singleton in Hin; discriminate ] ]).
Qed.

Lemma produce_invariant (s : JobRun.sys W) :
  JobRun.invariant beh _process_event _handle_completed _cleanup b es w0 s →
  JobRun.invariant beh _process_event _handle_completed _cleanup b es w0
    (JobRun.act beh _lazy_init _process_event _handle_completed _cleanup JobRun.Produce s).
Proof.
  destruct s as [[bs mx q ws] w rem pend out].
  intros Hinv. pose proof Hinv as (Hb & Hq & H). simpl in Hb, Hq, H. subst bs.
  unfold JobRun.act, JobRun.produce; simpl.
  destruct out as [r|]; [exact Hinv|].
  destruct q as [q|]; [|contradiction].
  unfold _ConcurrentJobExecution.queue in H; simpl in H.
  destruct ws as [[| event task | j | [[]|ex]]|]; try contradiction.
  - (* the worker waits in get *)
    destruct H as (done & todo & Hes & Hw & Hjobs & Hpend). subst w.
    destruct pend as [[m [j|]]|]; simpl in Hjobs, Hpend.
    + destruct Hpend as [-> Hn].
      apply (put_invariant mx q Waiting m rem done todo); auto.
    + exact Hinv.
    + destruct rem as [|m rest]; [exact Hinv|].
      unfold _ConcurrentJobExecution._do; simpl.
      destruct m as [|event];
        [ apply (put_invariant mx q Waiting Termination rest done todo)
        | apply (put_invariant mx q Waiting (Ev event) rest done todo) ]; auto.
  - (* the worker awaits a call *)
    destruct H as (done & todo & Hes & Hw & Hjobs & Hpend). subst w.
    destruct pend as [[m [j|]]|]; simpl in Hjobs, Hpend.
    + destruct Hpend as [-> Hn].
      apply (put_invariant mx q (Handling event task) m rem done todo); auto.
    + exact Hinv.
    + destruct rem as [|m rest]; [exact Hinv|].
      unfold _ConcurrentJobExecution._do; simpl.
      destruct m as [|event'];
        [ apply (put_invariant mx q (Handling event task) Termination rest done todo)
        | apply (put_invariant mx q (Handling event task) (Ev event') rest done todo) ];
        auto.
  - (* the worker has finished *)
    destruct H as [Hw ->]. simpl.
    destruct (Flow._do_downstream beh b Termination w) as [r w1] eqn:Hd.
    simpl. unfold JobRun.invariant; simpl.
    split; [reflexivity|]. split; [discriminate|]. split; [reflexivity|].
    rewrite <- Hw, Hd. reflexivity.
Qed.

Lemma act_invariant (a : JobRun.action) (s : JobRun.sys W) :
  JobRun.invariant beh _process_event _handle_completed _cleanup b es w0 s →
  JobRun.invariant beh _process_event _handle_completed _cleanup b es w0
    (JobRun.act beh _lazy_init _process_event _handle_completed _cleanup a s).
Proof.
  destruct a;
    [apply produce_invariant | apply worker_get_invariant | apply worker_complete_invariant].
Qed.

(** Before the first [_do] the worker does not exist, and the first [_do]
    creates it and submits the first message. *)
Lemma act_start (a : JobRun.action) (self : _ConcurrentJobExecution.t)
    (w : Flow.world W) :
  JobRun.unstarted self →
  _ConcurrentJobExecution.base self = b →
  _lazy_init w = (Ok tt, w0) →
  let s' := JobRun.act beh _lazy_init _process_event _handle_completed _cleanup a
              (JobRun.start self es w) in
  s' = JobRun.start self es w ∨
  JobRun.invariant beh _process_event _handle_completed _cleanup b es w0 s'.
Proof.
  destruct self as [bs mx q ws]. intros [Hq Hws] Hb Hinit. simpl in Hq, Hws, Hb.
  subst q ws bs. destruct a; simpl.
  - right. unfold JobRun.produce, JobRun.start; simpl.
    destruct (map Ev es ++ [Termination]) as [|m rest] eqn:Hmsgs;
      [destruct es; discriminate|].
    assert (Hjobs : map (JobRun.msg_job _process_event) (map Ev es ++ [Termination]) =
                    JobRun.inflight (Some Waiting) ++ [] ++
                    [JobRun.msg_job _process_event m] ++
                    map (JobRun.msg_job _process_event) rest).
    { rewrite Hmsgs. reflexivity. }
    unfold _ConcurrentJobExecution._do; simpl; rewrite Hinit; simpl.
    destruct m as [|event];
      [ apply (put_invariant mx [] Waiting Termination rest [] es)
      | apply (put_invariant mx [] Waiting (Ev event) rest [] es) ];
      first [exact I | reflexivity | exact Hjobs | apply not_elem_of_nil].
  - left. reflexivity.
  - left. reflexivity.
Qed.

Lemma run_invariant (schedule : list JobRun.action) (s : JobRun.sys W) :
  JobRun.invariant beh _process_event _handle_completed _cleanup b es w0 s →
  JobRun.invariant beh _process_event _handle_completed _cleanup b es w0
    (JobRun.run beh _lazy_init _process_event _handle_completed _cleanup schedule s).
Proof.
  revert s; induction schedule as [|a schedule IH]; intros s Hinv; simpl.
  - exact Hinv.
  - apply IH, act_invariant, Hinv.
Qed.

Lemma run_start (schedule : list JobRun.action) (self : _ConcurrentJobExecution.t)
    (w : Flow.world W) :
  JobRun.unstarted self →
  _ConcurrentJobExecution.base self = b →
  _lazy_init w = (Ok tt, w0) →
  let s' := JobRun.run beh _lazy_init _process_event _handle_completed _cleanup schedule
              (JobRun.start self es w) in
  s' = JobRun.start self es w ∨
  JobRun.invariant beh _process_event _handle_completed _cleanup b es w0 s'.
Proof.
  intros Hun Hb Hinit.
  induction schedule as [|a schedule IH]; simpl; [left; reflexivity|].
  destruct (act_start a self w Hun Hb Hinit) as [Hsame|Hinv].
  - rewrite Hsame. exact IH.
  - right. apply run_invariant, Hinv.
Qed.

End JobRunFacts.

Lemma queue_full_nil (maxsize : Z) : queue_full maxsize [] = false.
Proof.
  unfold queue_full. simpl.
  destruct (0 <? maxsize) eqn:Hpos; [|reflexivity].
  apply Z.ltb_lt in Hpos. simpl. apply Z.leb_gt. lia.
Qed.

Section RoundRobin.
Context {W : Type}.
Variable beh : nat → msg → W → result val * W.
Variable _lazy_init : M (Flow.world W) unit.
Variable _process_event : val → result val.
Variable _handle_completed : val → val → M (Flow.world W) unit.
Variable _cleanup : M (Flow.world W) unit.
Hypothesis cleanup_total : ∀ w, fst (_cleanup w) = Ok tt.

(** A round on a step whose queue is empty and whose worker waits: the
    event is submitted, taken and handled. *)
Lemma round_of_event (b : Flow.t) (mx : Z) (event : val) (rest : list msg)
    (w : Flow.world W) :
  JobRun.completes _process_event _handle_completed event →
  JobRun.run beh _lazy_init _process_event _handle_completed _cleanup
    [JobRun.Produce; JobRun.WorkerGet; JobRun.WorkerComplete]
    (JobRun.mk (_ConcurrentJobExecution.mk b mx (Some []) (Some Waiting)) w
       (Ev event :: rest) None None) =
  JobRun.mk (_ConcurrentJobExecution.mk b mx (Some []) (Some Waiting))
    (JobRun.handle_one _process_event _handle_completed w event) rest None None.
Proof.
  intros (completed & Hcall & Hhandle).
  simpl. unfold JobRun.produce, JobRun.settle; simpl.
  unfold _ConcurrentJobExecution.put_then_continue, _ConcurrentJobExecution.queue; simpl.
  rewrite queue_full_nil. simpl.
  unfold _ConcurrentJobExecution.queue; simpl.
  unfold JobRun.handle_one. rewrite Hcall.
  pose proof (Hhandle w) as Ht.
  destruct (_handle_completed event completed w) as [[[]|ex] w1]; simpl in Ht;
    [|discriminate].
  reflexivity.
Qed.

Lemma round_robin_started (b : Flow.t) (mx : Z) (es : list val) :
  Forall (JobRun.completes _process_event _handle_completed) es →
  ∀ w : Flow.world W,
    is_Some (JobRun.outcome
               (JobRun.run beh _lazy_init _process_event _handle_completed _cleanup
                  (JobRun.round_robin (length es + 2))
                  (JobRun.mk (_ConcurrentJobExecution.mk b mx (Some []) (Some Waiting)) w
                     (map Ev es ++ [Termination]) None None))).
Proof.
  induction 1 as [|event es Hev Hes IH]; intros w.
  - simpl. unfold JobRun.produce, JobRun.settle; simpl.
    unfold _ConcurrentJobExecution.put_then_continue, _ConcurrentJobExecution.queue; simpl.
    rewrite queue_full_nil. simpl.
    unfold _ConcurrentJobExecution.queue; simpl.
    pose proof (cleanup_total w) as Hc.
    destruct (_cleanup w) as [[[]|ex] w1]; simpl in Hc; [|discriminate].
    simpl.
    destruct (Flow._do_downstream beh b Termination w1) as [r w2]. simpl. eauto.
  - change (length (event :: es) + 2)%nat with (S (length es + 2)).
    unfold JobRun.round_robin. cbn [replicate concat].
    unfold JobRun.run. rewrite fold_left_app.
    change (fold_left _ [JobRun.Produce; JobRun.WorkerGet; JobRun.WorkerComplete] ?s)
      with (JobRun.run beh _lazy_init _process_event _handle_completed _cleanup
              [JobRun.Produce; JobRun.WorkerGet; JobRun.WorkerComplete] s).
    cbn [map app]. rewrite (round_of_event b mx event _ w Hev). apply IH.
Qed.

(** The first [_do] creates the queue and the worker, and goes on as on a
    step that has them. *)
Lemma do_unstarted (self : _ConcurrentJobExecution.t) (m : msg) (w w0 : Flow.world W) :
  JobRun.unstarted self →
  _lazy_init w = (Ok tt, w0) →
  _ConcurrentJobExecution._do beh _lazy_init _process_event m (self, w) =
  _ConcurrentJobExecution._do beh _lazy_init _process_event m
    (_ConcurrentJobExecution.mk (_ConcurrentJobExecution.base self)
       (_ConcurrentJobExecution._max_in_flight self) (Some []) (Some Waiting), w0).
Proof.
  destruct self as [bs mx q ws]. intros [Hq Hws] Hinit. simpl in Hq, Hws. subst q ws.
  unfold _ConcurrentJobExecution._do; simpl. rewrite Hinit. reflexivity.
Qed.

Lemma round_robin_returns (self : _ConcurrentJobExecution.t) (es : list val)
    (w w0 : Flow.world W) :
  JobRun.unstarted self →
  _lazy_init w = (Ok tt, w0) →
  Forall (JobRun.completes _process_event _handle_completed) es →
  is_Some (JobRun.outcome
             (JobRun.run beh _lazy_init _process_event _handle_completed _cleanup
                (JobRun.round_robin (length es + 2)) (JobRun.start self es w))).
Proof.
  intros Hun Hinit Hes.
  set (self' := _ConcurrentJobExecution.mk (_ConcurrentJobExecution.base self)
                  (_ConcurrentJobExecution._max_in_flight self) (Some []) (Some Waiting)).
  assert (Hfirst : ∀ sched,
    JobRun.run beh _lazy_init _process_event _handle_completed _cleanup
      (JobRun.Produce :: sched) (JobRun.start self es w) =
    JobRun.run beh _lazy_init _process_event _handle_completed _cleanup
      (JobRun.Produce :: sched)
      (JobRun.mk self' w0 (map Ev es ++ [Termination]) None None)).
  { intros sched. unfold JobRun.run, JobRun.start. cbn [fold_left]. f_equal.
    unfold JobRun.act, JobRun.produce. cbn [JobRun.outcome JobRun.pending
      JobRun.remaining JobRun.eng JobRun.wld].
    destruct (map Ev es ++ [Termination]) as [|m rest] eqn:Hmsgs;
      [destruct es; discriminate|].
    rewrite (do_unstarted self m w w0 Hun Hinit). reflexivity. }
  replace (length es + 2)%nat with (S (length es + 1)) by lia.
  unfold JobRun.round_robin. cbn [replicate concat app].
  rewrite Hfirst.
  pose proof (round_robin_started (_ConcurrentJobExecution.base self)
                (_ConcurrentJobExecution._max_in_flight self) es Hes w0) as Hrun.
  replace (length es + 2)%nat with (S (length es + 1)) in Hrun by lia.
  exact Hrun.
Qed.

End RoundRobin.

(** X12.  Whatever the order in which the caller and the worker of a
    _ConcurrentJobExecution step move, the worker handles the events in the
    order of their submission, each once: at any moment [_handle_completed]
    has run for a prefix of the stream and for nothing else.  Once the [_do]
    of the sentinel has returned, it has run for every event, [_cleanup] has
    run after the last of them, and the sentinel has gone downstream after
    that; the [_do] returns what the downstream returned. *)
Theorem job_execution_handles_in_submission_order {W : Type}
    (beh : nat → msg → W → result val * W)
    (_lazy_init : M (Flow.world W) unit) (_process_event : val → result val)
    (_handle_completed : val → val → M (Flow.world W) unit)
    (_cleanup : M (Flow.world W) unit)
    (self : _ConcurrentJobExecution.t) (es : list val) (w w0 : Flow.world W)
    (schedule : list JobRun.action) :
  JobRun.unstarted self →
  _lazy_init w = (Ok tt, w0) →
  Forall (JobRun.completes _process_event _handle_completed) es →
  (∀ w1, fst (_cleanup w1) = Ok tt) →
  let s := JobRun.run beh _lazy_init _process_event _handle_completed _cleanup schedule
             (JobRun.start self es w) in
  match JobRun.outcome s with
  | Some r =>
      (r, JobRun.wld s) =
      Flow._do_downstream beh (_ConcurrentJobExecution.base self) Termination
        (snd (_cleanup (JobRun.handled _process_event _handle_completed es w0)))
  | None =>
      JobRun.wld s = w ∨
      ∃ done todo : list val,
        es = done ++ todo ∧
        (JobRun.wld s = JobRun.handled _process_event _handle_completed done w0 ∨
         todo = [] ∧
         JobRun.wld s =
         snd (_cleanup (JobRun.handled _process_event _handle_completed es w0)))
  end.
Proof.
  intros Hun Hinit Hes Hcl s.
  destruct (run_start beh _lazy_init _process_event _handle_completed _cleanup
              (_ConcurrentJobExecution.base self) es w0 Hes Hcl schedule self w
              Hun eq_refl Hinit) as [Hsame|(_ & _ & Hinv)]; fold s in Hsame || fold s in Hinv.
  - rewrite Hsame. simpl. left. reflexivity.
  - destruct (JobRun.outcome s) as [r|]; [exact (proj2 Hinv)|].
    right.
    destruct (_ConcurrentJobExecution._worker_awaitable (JobRun.eng s))
      as [[| event task | j | [[]|ex]]|]; try contradiction.
    + destruct Hinv as (done & todo & Hsplit & Hw & _). exists done, todo. auto.
    + destruct Hinv as (done & todo & Hsplit & Hw & _). exists done, todo. auto.
    + destruct Hinv as [Hw _]. exists es, []. rewrite app_nil_r. auto.
Qed.

(** X13.  With the caller and the worker taking turns, the [_do] of the
    sentinel returns within as many rounds as there are events, plus two,
    whatever the bound on the queue: the stream goes through without a
    deadlock, every event handled, then the cleanup, then the sentinel. *)
Theorem job_execution_round_robin_returns {W : Type}
    (beh : nat → msg → W → result val * W)
    (_lazy_init : M (Flow.world W) unit) (_process_event : val → result val)
    (_handle_completed : val → val → M (Flow.world W) unit)
    (_cleanup : M (Flow.world W) unit)
    (self : _ConcurrentJobExecution.t) (es : list val) (w w0 : Flow.world W) :
  JobRun.unstarted self →
  _lazy_init w = (Ok tt, w0) →
  Forall (JobRun.completes _process_event _handle_completed) es →
  (∀ w1, fst (_cleanup w1) = Ok tt) →
  let s := JobRun.run beh _lazy_init _process_event _handle_completed _cleanup
             (JobRun.round_robin (length es + 2)) (JobRun.start self es w) in
  ∃ r : result val,
    JobRun.outcome s = Some r ∧
    (r, JobRun.wld s) =
    Flow._do_downstream beh (_ConcurrentJobExecution.base self) Termination
      (snd (_cleanup (JobRun.handled _process_event _handle_completed es w0))).
Proof.
  intros Hun Hinit Hes Hcl s.
  destruct (round_robin_returns beh _lazy_init _process_event _handle_completed _cleanup
              Hcl self es w w0 Hun Hinit Hes) as [r Hr].
  fold s in Hr. exists r. split; [exact Hr|].
  destruct (run_start beh _lazy_init _process_event _handle_completed _cleanup
              (_ConcurrentJobExecution.base self) es w0 Hes Hcl
              (JobRun.round_robin (length es + 2)) self w Hun eq_refl Hinit)
    as [Hsame|(_ & _ & Hinv)]; fold s in Hsame || fold s in Hinv.
  - rewrite Hsame in Hr. discriminate.
  - rewrite Hr in Hinv. exact (proj2 Hinv).
Qed.

(** ** JoinWithTable over a run *)

Section JoinWithTableFacts.
Context {W : Type}.
Variable beh : nat → msg → W → result val * W.
Hypothesis beh_total : never_raises beh.
Variable get_or_load_key : nat → val → val → result val.
Variable self : JoinWithTable.t.
Variables row joined : Event → val.

Lemma JoinWithTable_handle_completed (e : Event) (tr : list obs) (d : W) :
  joins get_or_load_key self row joined e →
  ∃ d' : W,
    JoinWithTable._handle_completed beh self (VEvent e) (row e) (Flow.mk_world tr d) =
    (Ok tt,
     Flow.mk_world
       (tr ++ forwarded (Flow._outlets (JoinWithTable.base self))
                (joined_events (Flow._full_event (JoinWithTable.base self)) joined [e]))
       d').
Proof.
  intros [_ Hjoin].
  unfold JoinWithTable._handle_completed, Flow._get_safe_event_or_body,
    Flow._user_fn_output_to_event, copy, joined_events.
  unfold element_of in Hjoin.
  assert (Hel : (if Flow._full_event (JoinWithTable.base self)
                 then Ok (VEvent e) else attr_body (VEvent e)) =
                Ok (if Flow._full_event (JoinWithTable.base self)
                    then VEvent e else body e)).
  { destruct (Flow._full_event (JoinWithTable.base self)); reflexivity. }
  rewrite Hel. unfold_M. rewrite Hjoin. cbn [List.filter].
  assert (Hnew : (if Flow._full_event (JoinWithTable.base self)
                  then Ok (joined e) else set_body (VEvent e) (joined e)) =
                 Ok (derived_event (Flow._full_event (JoinWithTable.base self)) e
                       (joined e))).
  { unfold derived_event, with_body.
    destruct (Flow._full_event (JoinWithTable.base self)); reflexivity. }
  destruct (do_downstream_event_total beh beh_total (JoinWithTable.base self)
              (derived_event (Flow._full_event (JoinWithTable.base self)) e (joined e))
              tr d) as [d1 Hdown].
  destruct (joined e) eqn:Hj; cbn [is_none negb map]; rewrite ?Hj;
    try (rewrite Hnew, Hdown; exists d1; unfold forwarded; cbn [map concat];
         rewrite app_nil_r; reflexivity).
  exists d. unfold forwarded. cbn [map concat]. rewrite app_nil_r. reflexivity.
Qed.

Lemma joins_completes (e : Event) :
  joins get_or_load_key self row joined e →
  JobRun.completes (JoinWithTable._process_event get_or_load_key self)
    (JoinWithTable._handle_completed beh self) (VEvent e).
Proof.
  intros Hj. exists (row e). split; [exact (proj1 Hj)|].
  intros [tr d]. destruct (JoinWithTable_handle_completed e tr d Hj) as [d' ->].
  reflexivity.
Qed.

Lemma joined_events_app (fe : bool) (es1 es2 : list Event) :
  joined_events fe joined (es1 ++ es2) =
  joined_events fe joined es1 ++ joined_events fe joined es2.
Proof. unfold joined_events. rewrite List.filter_app, map_app. reflexivity. Qed.

Lemma JoinWithTable_handled (es : list Event) :
  Forall (joins get_or_load_key self row joined) es →
  ∀ (tr : list obs) (d : W),
    ∃ d' : W,
      JobRun.handled (JoinWithTable._process_event get_or_load_key self)
        (JoinWithTable._handle_completed beh self) (map VEvent es) (Flow.mk_world tr d) =
      Flow.mk_world
        (tr ++ forwarded (Flow._outlets (JoinWithTable.base self))
                 (joined_events (Flow._full_event (JoinWithTable.base self)) joined es))
        d'.
Proof.
  induction 1 as [|e es He Hes IH]; intros tr d.
  - exists d. unfold forwarded. simpl. rewrite app_nil_r. reflexivity.
  - destruct (JoinWithTable_handle_completed e tr d He) as [d1 Hone].
    destruct (IH (tr ++ forwarded (Flow._outlets (JoinWithTable.base self))
                      (joined_events (Flow._full_event (JoinWithTable.base self))
                         joined [e])) d1) as [d' Hrest].
    exists d'. unfold JobRun.handled in *. cbn [map fold_left].
    unfold JobRun.handle_one at 2. rewrite (proj1 He), Hone. cbn [snd].
    rewrite Hrest.
    change (e :: es) with ([e] ++ es).
    rewrite joined_events_app, forwarded_app, <- app_assoc. reflexivity.
Qed.

End JoinWithTableFacts.

(** X14.  JoinWithTable hands on the joined events in the order in which the
    events came in, whatever the order in which the caller and the worker
    move, and the sentinel after the last of them.  An event for which the
    join function returns None is dropped; every other event is handed on
    with the result of the join function as its body, or as that result
    itself under [full_event]. *)
Theorem JoinWithTable_hands_on_joined_events_in_order {W : Type}
    (beh : nat → msg → W → result val * W)
    (get_or_load_key : nat → val → val → result val) (self : JoinWithTable.t)
    (row joined : Event → val) (g : val → val → val) (es : list Event)
    (tr : list obs) (d : W) (schedule : list JobRun.action) (r : result val) :
  never_raises beh →
  JobRun.unstarted (JoinWithTable.engine self) →
  Flow._termination_result_fn (JoinWithTable.base self) = pure2 g →
  Forall (joins get_or_load_key self row joined) es →
  let s := JoinWithTable_run beh get_or_load_key self schedule es (Flow.mk_world tr d) in
  JobRun.outcome s = Some r →
  is_ok r = true ∧
  Flow.trace (JobRun.wld s) =
  tr ++
  forwarded (Flow._outlets (JoinWithTable.base self))
    (joined_events (Flow._full_event (JoinWithTable.base self)) joined es) ++
  map (λ o, Called o Termination) (Flow._outlets (JoinWithTable.base self)).
Proof.
  intros Htotal Hun Hfn Hes s Hout.
  assert (Hcomplete : Forall (JobRun.completes
                                (JoinWithTable._process_event get_or_load_key self)
                                (JoinWithTable._handle_completed beh self))
                        (map VEvent es)).
  { apply Forall_map. eapply Forall_impl; [exact Hes|].
    intros e He.
    exact (joins_completes beh Htotal get_or_load_key self row joined e He). }
  destruct (run_start beh JoinWithTable._lazy_init
              (JoinWithTable._process_event get_or_load_key self)
              (JoinWithTable._handle_completed beh self) JoinWithTable._cleanup
              (JoinWithTable.base self) (map VEvent es) (Flow.mk_world tr d)
              Hcomplete (λ _, eq_refl) schedule (JoinWithTable.engine self)
              (Flow.mk_world tr d) Hun eq_refl eq_refl)
    as [Hsame|(_ & _ & Hinv)];
    unfold JoinWithTable_run in s; fold s in Hsame || fold s in Hinv.
  - rewrite Hsame in Hout. discriminate.
  - rewrite Hout in Hinv. destruct Hinv as [_ Hdown].
    destruct (JoinWithTable_handled beh Htotal get_or_load_key self row joined es Hes tr d)
      as [d1 Hhandled].
    unfold JoinWithTable._cleanup at 1 in Hdown. unfold mret, M_ret in Hdown.
    cbn [snd] in Hdown. rewrite Hhandled in Hdown.
    destruct (do_downstream_termination_total beh Htotal (JoinWithTable.base self) g
                (tr ++ forwarded (Flow._outlets (JoinWithTable.base self))
                         (joined_events (Flow._full_event (JoinWithTable.base self))
                            joined es)) d1 Hfn) as (v & d' & Hterm).
    rewrite Hterm in Hdown. injection Hdown as -> ->.
    split; [reflexivity|]. simpl. rewrite <- app_assoc. reflexivity.
Qed.

Lemma city_joiner_joins :
  Forall (joins city_table city_joiner city_row with_city)
    [user_event "ann"; user_event "bob"].
Proof. repeat constructor. Qed.

Lemma city_joiner_completes :
  Forall (JobRun.completes (JoinWithTable._process_event city_table city_joiner)
            (JoinWithTable._handle_completed sink city_joiner))
    [VEvent (user_event "ann"); VEvent (user_event "bob")].
Proof.
  repeat constructor.
  - exists (city_row (user_event "ann")). split; [reflexivity|]. intros w1. reflexivity.
  - exists (city_row (user_event "bob")). split; [reflexivity|]. intros w1. reflexivity.
Qed.

Lemma job_execution_handles_in_submission_order_witness :
  JobRun.unstarted (JoinWithTable.engine city_joiner)
  ∧ JobRun.wld
      (JobRun.run sink JoinWithTable._lazy_init
         (JoinWithTable._process_event city_table city_joiner)
         (JoinWithTable._handle_completed sink city_joiner) JoinWithTable._cleanup
         eager_schedule
         (JobRun.start (JoinWithTable.engine city_joiner)
            [VEvent (user_event "ann"); VEvent (user_event "bob")]
            (Flow.mk_world [] tt))) =
    Flow.mk_world
      [Called 0 (Ev ann_in_oslo); Called 0 (Ev bob_in_rome); Called 0 Termination] tt.
Proof.
  split; [split; reflexivity|].
  exact (f_equal snd
           (job_execution_handles_in_submission_order sink JoinWithTable._lazy_init
              (JoinWithTable._process_event city_table city_joiner)
              (JoinWithTable._handle_completed sink city_joiner) JoinWithTable._cleanup
              (JoinWithTable.engine city_joiner)
              [VEvent (user_event "ann"); VEvent (user_event "bob")]
              (Flow.mk_world [] tt) (Flow.mk_world [] tt) eager_schedule
              (conj eq_refl eq_refl) eq_refl city_joiner_completes (λ _, eq_refl))).
Defined.

Lemma job_execution_round_robin_returns_witness :
  JobRun.unstarted (JoinWithTable.engine city_joiner)
  ∧ JobRun.outcome
      (JobRun.run sink JoinWithTable._lazy_init
         (JoinWithTable._process_event city_table city_joiner)
         (JoinWithTable._handle_completed sink city_joiner) JoinWithTable._cleanup
         (JobRun.round_robin 4)
         (JobRun.start (JoinWithTable.engine city_joiner)
            [VEvent (user_event "ann"); VEvent (user_event "bob")]
            (Flow.mk_world [] tt))) = Some (Ok VNone).
Proof.
  split; [split; reflexivity|].
  destruct (job_execution_round_robin_returns sink JoinWithTable._lazy_init
              (JoinWithTable._process_event city_table city_joiner)
              (JoinWithTable._handle_completed sink city_joiner) JoinWithTable._cleanup
              (JoinWithTable.engine city_joiner)
              [VEvent (user_event "ann"); VEvent (user_event "bob")]
              (Flow.mk_world [] tt) (Flow.mk_world [] tt)
              (conj eq_refl eq_refl) eq_refl city_joiner_completes (λ _, eq_refl))
    as (r & Hout & Hdown).
  reflexivity.
Defined.

Lemma JoinWithTable_hands_on_joined_events_in_order_witness :
  never_raises sink
  ∧ Forall (joins city_table city_joiner city_row with_city)
      [user_event "ann"; user_event "bob"]
  ∧ Flow.trace
      (JobRun.wld
         (JoinWithTable_run sink city_table city_joiner eager_schedule
            [user_event "ann"; user_event "bob"] (Flow.mk_world [] tt))) =
    [Called 0 (Ev ann_in_oslo); Called 0 (Ev bob_in_rome); Called 0 Termination].
Proof.
  split; [exact sink_never_raises|]. split; [exact city_joiner_joins|].
  exact (proj2
           (JoinWithTable_hands_on_joined_events_in_order sink city_table city_joiner
              city_row with_city first_non_none [user_event "ann"; user_event "bob"]
              [] tt eager_schedule (Ok VNone) sink_never_raises (conj eq_refl eq_refl)
              eq_refl city_joiner_joins eq_refl)).
Defined.

Example JoinWithTable_city_joiner_constructed :
  JoinWithTable.__init__ (JoinWithTable.TableObject 0) (JoinWithTable.KeyColumn "user")
    None None 1 Flow.no_kwargs =
  Ok (JoinWithTable.mk
        (_ConcurrentJobExecution.__init__ "JoinWithTable" 1 Flow.no_kwargs) 0%nat
        (Some (λ element, subscript element "user"))
        JoinWithTable.default_join_fn (VStr "*")).
Proof. reflexivity. Qed.

(** ** The bound on the jobs in flight *)

Section QueueBound.
Context {W : Type}.
Variable beh : nat → msg → W → result val * W.
Variable _lazy_init : M (Flow.world W) unit.
Variable _process_event : val → result val.
Variable _handle_completed : val → val → M (Flow.world W) unit.
Variable _cleanup : M (Flow.world W) unit.
Variable mx : Z.
Hypothesis mx_pos : 0 < mx.

Lemma put_within_bound (j : job) (self : _ConcurrentJobExecution.t) (w : Flow.world W) :
  within_bound mx self →
  within_bound mx
    (fst (snd (_ConcurrentJobExecution.put_then_continue beh j (self, w)))).
Proof.
  destruct self as [b m q ws]. intros [Hm Hlen]. simpl in Hm. subst m.
  unfold _ConcurrentJobExecution.put_then_continue, _ConcurrentJobExecution.queue in *.
  simpl in *. unfold queue_full.
  destruct (0 <? mx) eqn:Hpos; [|apply Z.ltb_ge in Hpos; lia].
  destruct (mx <=? Z.of_nat (length (default [] q))) eqn:Hfull; simpl.
  - split; [reflexivity | exact Hlen].
  - apply Z.leb_gt in Hfull.
    assert (Hnew : within_bound mx
                     (_ConcurrentJobExecution.mk b mx (Some (default [] q ++ [j])) ws)).
    { split; [reflexivity|]. unfold _ConcurrentJobExecution.queue; simpl.
      rewrite length_app. simpl. lia. }
    unfold _ConcurrentJobExecution.set_q; simpl.
    destruct j as [|event task]; simpl.
    + destruct ws as [[| e t | j' | [u|ex]]|]; simpl; try exact Hnew.
      destruct (Flow._do_downstream beh b Termination w); exact Hnew.
    + destruct ws as [[| e t | j' | [u|ex]]|]; exact Hnew.
Qed.

Lemma await_within_bound (self : _ConcurrentJobExecution.t) (w : Flow.world W) :
  within_bound mx self →
  within_bound mx
    (fst (snd (_ConcurrentJobExecution.await_worker_then_downstream beh (self, w)))).
Proof.
  intros H. unfold _ConcurrentJobExecution.await_worker_then_downstream.
  destruct (_ConcurrentJobExecution._worker_awaitable self)
    as [[| e t | j' | [u|ex]]|]; simpl; try exact H.
  destruct (Flow._do_downstream beh (_ConcurrentJobExecution.base self) Termination w);
    exact H.
Qed.

Lemma do_within_bound (m : msg) (self : _ConcurrentJobExecution.t) (w : Flow.world W) :
  within_bound mx self →
  within_bound mx
    (fst (snd (_ConcurrentJobExecution._do beh _lazy_init _process_event m (self, w)))).
Proof.
  intros H. unfold _ConcurrentJobExecution._do.
  destruct (_ConcurrentJobExecution._q self) as [q|] eqn:Hq.
  - destruct (_ConcurrentJobExecution._worker_awaitable self)
      as [[| e t | j' | [u|ex]]|]; simpl; try exact H;
      destruct m; apply put_within_bound; exact H.
  - destruct (_lazy_init w) as [[u|ex] w1]; [|exact H].
    assert (Hnew : within_bound mx
                     (_ConcurrentJobExecution.set_worker Waiting
                        (_ConcurrentJobExecution.set_q (Some []) self))).
    { destruct H as [Hm _]. split; [exact Hm|].
      unfold _ConcurrentJobExecution.queue; simpl. lia. }
    cbn [_ConcurrentJobExecution.set_worker _ConcurrentJobExecution._worker_awaitable].
    destruct m; apply put_within_bound; exact Hnew.
Qed.

Lemma shorter_within_bound (b : Flow.t) (m : Z) (j : job) (rest : list job)
    (ws ws' : option worker_state) :
  within_bound mx (_ConcurrentJobExecution.mk b m (Some (j :: rest)) ws) →
  within_bound mx (_ConcurrentJobExecution.mk b m (Some rest) ws').
Proof.
  intros [Hm Hlen]. split; [exact Hm|].
  unfold _ConcurrentJobExecution.queue in *; simpl in *. lia.
Qed.

Lemma worker_within_bound (ws ws' : option worker_state) (b : Flow.t) (m : Z)
    (q : option (list job)) :
  within_bound mx (_ConcurrentJobExecution.mk b m q ws) →
  within_bound mx (_ConcurrentJobExecution.mk b m q ws').
Proof. intros H. exact H. Qed.

Lemma except_within_bound (ex : exn) (self : _ConcurrentJobExecution.t)
    (w : Flow.world W) :
  within_bound mx self →
  within_bound mx (fst (_ConcurrentJobExecution.worker_except _cleanup ex (self, w))).
Proof.
  destruct self as [b m q ws]. intros H.
  unfold _ConcurrentJobExecution.worker_except, _ConcurrentJobExecution.worker_finally,
    _ConcurrentJobExecution.queue in *; simpl in *.
  destruct q as [[|j rest]|]; simpl; destruct (_cleanup w) as [c w1]; simpl;
    unfold _ConcurrentJobExecution.set_worker, _ConcurrentJobExecution.set_q; simpl;
    try exact H.
  eapply shorter_within_bound, H.
Qed.

Lemma worker_get_within_bound (self : _ConcurrentJobExecution.t) (w : Flow.world W)
    (p : _ConcurrentJobExecution.t * Flow.world W) :
  within_bound mx self →
  _ConcurrentJobExecution.worker_get _cleanup (self, w) = Some p →
  within_bound mx (fst p).
Proof.
  destruct self as [b m q ws]. intros H.
  unfold _ConcurrentJobExecution.worker_get, _ConcurrentJobExecution.queue; simpl.
  destruct ws as [[| e t | j' | r]|]; try discriminate.
  destruct q as [[|j rest]|]; simpl; try discriminate.
  destruct j as [|event task]; intros [= <-].
  - unfold _ConcurrentJobExecution.worker_finally, _ConcurrentJobExecution.set_q; simpl.
    destruct (_cleanup w) as [c w1]. simpl. eapply shorter_within_bound, H.
  - simpl. eapply shorter_within_bound, H.
Qed.

Lemma worker_complete_within_bound (self : _ConcurrentJobExecution.t) (w : Flow.world W)
    (p : _ConcurrentJobExecution.t * Flow.world W) :
  within_bound mx self →
  _ConcurrentJobExecution.worker_complete _handle_completed _cleanup (self, w) = Some p →
  within_bound mx (fst p).
Proof.
  intros H. unfold _ConcurrentJobExecution.worker_complete.
  destruct (_ConcurrentJobExecution._worker_awaitable self)
    as [[| e t | j' | r]|] eqn:Hws; try discriminate.
  destruct t as [completed|ex].
  - destruct (_handle_completed e completed w) as [[u|ex] w1] eqn:Hh; intros [= <-].
    + simpl. destruct self; exact H.
    + apply except_within_bound, H.
  - intros [= <-]. apply except_within_bound, H.
Qed.

Lemma settle_eng (m : msg)
    (p : progress * (_ConcurrentJobExecution.t * Flow.world W)) (rest : list msg) :
  JobRun.eng (JobRun.settle m p rest) = fst (snd p).
Proof. destruct p as [[[v|ex]|k] [e w]]; destruct m; reflexivity. Qed.

Lemma act_within_bound (a : JobRun.action) (s : JobRun.sys W) :
  within_bound mx (JobRun.eng s) →
  within_bound mx
    (JobRun.eng (JobRun.act beh _lazy_init _process_event _handle_completed _cleanup a s)).
Proof.
  destruct s as [self w rem pend out]. simpl. intros H.
  destruct a; cbn [JobRun.act JobRun.eng JobRun.wld].
  - unfold JobRun.produce; cbn [JobRun.outcome JobRun.pending JobRun.remaining
                                 JobRun.eng JobRun.wld].
    destruct out as [r|]; [exact H|].
    destruct pend as [[m k]|].
    + rewrite settle_eng. destruct k as [j|].
      * apply put_within_bound, H.
      * apply await_within_bound, H.
    + destruct rem as [|m rest]; [exact H|].
      rewrite settle_eng. apply do_within_bound, H.
  - destruct (_ConcurrentJobExecution.worker_get _cleanup (self, w)) as [[e w1]|] eqn:Hg;
      [|exact H].
    exact (worker_get_within_bound self w (e, w1) H Hg).
  - destruct (_ConcurrentJobExecution.worker_complete _handle_completed _cleanup (self, w))
      as [[e w1]|] eqn:Hc; [|exact H].
    exact (worker_complete_within_bound self w (e, w1) H Hc).
Qed.

Lemma run_within_bound (schedule : list JobRun.action) (s : JobRun.sys W) :
  within_bound mx (JobRun.eng s) →
  within_bound mx
    (JobRun.eng (JobRun.run beh _lazy_init _process_event _handle_completed _cleanup
                   schedule s)).
Proof.
  revert s; induction schedule as [|a schedule IH]; intros s H; simpl; [exact H|].
  apply IH, act_within_bound, H.
Qed.

End QueueBound.

(** A [_do] that reaches its [put] with the queue full is suspended there,
    and nothing has changed. *)
Lemma do_on_full_queue_waits {W : Type} (beh : nat → msg → W → result val * W)
    (_lazy_init : M (Flow.world W) unit) (_process_event : val → result val)
    (self : _ConcurrentJobExecution.t) (w : Flow.world W) (m : msg) :
  _ConcurrentJobExecution._q self ≠ None →
  worker_running self →
  queue_full (_ConcurrentJobExecution._max_in_flight self)
    (_ConcurrentJobExecution.queue self) = true →
  _ConcurrentJobExecution._do beh _lazy_init _process_event m (self, w) =
  (Suspended (BlockedOnPut (JobRun.msg_job _process_event m)), (self, w)).
Proof.
  destruct self as [b mx q ws]. unfold worker_running. simpl. intros Hq Hrun Hfull.
  destruct q as [q|]; [|contradiction].
  unfold _ConcurrentJobExecution._do, _ConcurrentJobExecution.put_then_continue; simpl.
  destruct ws as [[| e t | j | r]|]; try contradiction;
    destruct m; simpl; unfold _ConcurrentJobExecution.queue in *; simpl in *;
    rewrite Hfull; reflexivity.
Qed.

(** X15.  With a positive [max_in_flight], whatever the order in which the
    caller and the worker move, and whatever the calls and the hooks do,
    fail included, the queue never holds more than [max_in_flight] jobs.
    That bounds the queue, not the calls under way: a [_do] starts the call
    of its event before it looks for room, so the calls started and not yet
    handled are those of the queue, the one the worker awaits and the one of
    a [_do] that waits, at most [max_in_flight + 2].  A [_do] that finds the
    queue full is suspended in its [put] with the step as it was, and it
    stays suspended for as long as the queue is full. *)
Theorem job_execution_queue_within_bound {W : Type}
    (beh : nat → msg → W → result val * W)
    (_lazy_init : M (Flow.world W) unit) (_process_event : val → result val)
    (_handle_completed : val → val → M (Flow.world W) unit)
    (_cleanup : M (Flow.world W) unit)
    (self : _ConcurrentJobExecution.t) (es : list val) (w : Flow.world W)
    (schedule : list JobRun.action) :
  0 < _ConcurrentJobExecution._max_in_flight self →
  Z.of_nat (length (_ConcurrentJobExecution.queue self)) ≤
    _ConcurrentJobExecution._max_in_flight self →
  let s := JobRun.run beh _lazy_init _process_event _handle_completed _cleanup
             schedule (JobRun.start self es w) in
  Z.of_nat (length (_ConcurrentJobExecution.queue (JobRun.eng s))) ≤
    _ConcurrentJobExecution._max_in_flight self
  ∧ Z.of_nat (started_not_handled s) ≤ _ConcurrentJobExecution._max_in_flight self + 2
  ∧ (_ConcurrentJobExecution._q (JobRun.eng s) ≠ None →
     worker_running (JobRun.eng s) →
     queue_full (_ConcurrentJobExecution._max_in_flight self)
       (_ConcurrentJobExecution.queue (JobRun.eng s)) = true →
     (∀ m : msg,
        _ConcurrentJobExecution._do beh _lazy_init _process_event m
          (JobRun.eng s, JobRun.wld s) =
        (Suspended (BlockedOnPut (JobRun.msg_job _process_event m)),
         (JobRun.eng s, JobRun.wld s)))
     ∧ (∀ j : job,
          _ConcurrentJobExecution._do_resume beh (BlockedOnPut j)
            (JobRun.eng s, JobRun.wld s) =
          (Suspended (BlockedOnPut j), (JobRun.eng s, JobRun.wld s)))).
Proof.
  intros Hpos Hlen s.
  destruct (run_within_bound beh _lazy_init _process_event _handle_completed _cleanup
              (_ConcurrentJobExecution._max_in_flight self) Hpos schedule
              (JobRun.start self es w) (conj eq_refl Hlen)) as [Hmx Hq].
  fold s in Hmx, Hq.
  split; [exact Hq|]. split.
  - unfold started_not_handled.
    assert (Hin : (length (JobRun.inflight
                     (_ConcurrentJobExecution._worker_awaitable (JobRun.eng s))) ≤ 1)%nat).
    { destruct (_ConcurrentJobExecution._worker_awaitable (JobRun.eng s))
        as [[| e t | j | r]|]; simpl; lia. }
    assert (Hbl : (length (JobRun.blocked (JobRun.pending s)) ≤ 1)%nat).
    { destruct (JobRun.pending s) as [[m [j|]]|]; simpl; lia. }
    lia.
  - intros Hstarted Hrun Hfull. rewrite <- Hmx in Hfull. split.
    + intros m. apply do_on_full_queue_waits; assumption.
    + intros j. simpl. unfold _ConcurrentJobExecution.put_then_continue.
      destruct (JobRun.eng s). simpl in *. rewrite Hfull. reflexivity.
Qed.

Lemma job_execution_queue_within_bound_witness :
  0 < _ConcurrentJobExecution._max_in_flight (JoinWithTable.engine city_joiner)
  ∧ started_not_handled
      (JobRun.run sink JoinWithTable._lazy_init
         (JoinWithTable._process_event city_table city_joiner)
         (JoinWithTable._handle_completed sink city_joiner)
         JoinWithTable._cleanup crowding_schedule
         (JobRun.start (JoinWithTable.engine city_joiner)
            [VEvent (user_event "ann"); VEvent (user_event "bob");
             VEvent (user_event "cat")]
            (Flow.mk_world [] tt))) = 3%nat
  ∧ Z.of_nat
      (length
         (_ConcurrentJobExecution.queue
            (JobRun.eng
               (JobRun.run sink JoinWithTable._lazy_init
                  (JoinWithTable._process_event city_table city_joiner)
                  (JoinWithTable._handle_completed sink city_joiner)
                  JoinWithTable._cleanup crowding_schedule
                  (JobRun.start (JoinWithTable.engine city_joiner)
                     [VEvent (user_event "ann"); VEvent (user_event "bob");
                      VEvent (user_event "cat")]
                     (Flow.mk_world [] tt)))))) ≤ 1.
Proof.
  split; [reflexivity|]. split; [reflexivity|].
  apply (job_execution_queue_within_bound sink JoinWithTable._lazy_init
           (JoinWithTable._process_event city_table city_joiner)
           (JoinWithTable._handle_completed sink city_joiner) JoinWithTable._cleanup
           (JoinWithTable.engine city_joiner)
           [VEvent (user_event "ann"); VEvent (user_event "bob");
            VEvent (user_event "cat")]
           (Flow.mk_world [] tt) crowding_schedule);
    [reflexivity | simpl; lia].
Defined.
